(** * freesas: bead models, their canonical frame and the normalised
      spatial discrepancy (NSD)

    Shallow embedding of [freesas/model.py] (class [SASModel] and the helper
    [delta_expand]) together with the properties stated about it.

    Numbers.  The program computes on IEEE binary64 values through numpy.
    The embedding keeps the special values of that arithmetic (the two
    infinities and NaN, with the rules that create and propagate them:
    [1/0 = inf], [0/0 = nan], [0*inf = nan], ...) and replaces the finite
    values by exact real numbers: rounding, overflow and the sign of zero
    are not modelled.  Every zero divisor that occurs in the program is a
    count or a sum of squares, hence a positive zero.  The finite values of
    the embedding stand for the binary64 ones up to rounding as long as no
    intermediate result overflows or underflows.  A statement that turns on
    a result being exactly zero, or finite, therefore carries bounds on its
    data: a fineness of at least 1e-150, for which the divisor [n*f*f] does
    not underflow and its inverse is finite; or coordinates of size at
    most 1e50, distinct positions at least 1e-50 apart in one coordinate
    and fineness values between 1e-50 and 1e50, for which no square, sum,
    product or quotient of the program overflows, or underflows to zero,
    for any array that fits in memory.

    Arrays.  A numpy array of shape (n,3) is the list of its n rows, each a
    triple; a 2-d array in general is the list of its rows.

    Files.  [read] and [save] only carry coordinates between text and
    numbers, through the builtins [float] and the conversion [%8.3f].  The
    model object is therefore parametric in the type [F] of its numbers:
    the file layer is stated for every [F] with a parser and a formatter,
    the geometry for [F := float64].

    Text.  The files are opened in text mode, and the embedding follows
    Python 3 there.  A file is given by its text, the characters its bytes
    decode to; a character of the embedding is a code point below 256, as
    in every ASCII or Latin-1 file.  Slices, [startswith] and [split] act
    on these characters.  On reading, [open] translates the line ends
    (universal newlines).  On writing, the line feed is written as it is
    (the convention of POSIX systems; no translation to another line
    separator), and the text is encoded as it was decoded, so that two
    files of the same text are the same byte for byte.

    Exceptions.  Python exceptions are values of [exn], carried by [result].

    The lock around the fineness cache ([threading.Semaphore]) is not
    modelled: the embedding is sequential. *)

From Stdlib Require Import Reals Lra Lia Bool Arith ZArith QArith Qabs RNsatz.
From Stdlib Require Import Permutation.
From Stdlib Require Import DecimalString String Ascii List.
Import ListNotations.

(* ================================================================== *)
(** * Exceptions *)
(* ================================================================== *)

(** The Python exceptions the modelled code can raise.  The source defines
    no exception class of its own. *)
Inductive exn : Type :=
| AttributeError
| IndexError
| TypeError
| ValueError
| AxisError
| LinAlgError.

Inductive result (A : Type) : Type :=
| Ok (a : A)
| Raise (e : exn).

Arguments Ok {A} a.
Arguments Raise {A} e.

Definition bind {A B : Type} (r : result A) (k : A -> result B) : result B :=
  match r with
  | Ok a => k a
  | Raise e => Raise e
  end.

Notation "x <- c ;; k" := (bind c (fun x => k))
  (at level 61, c at next level, right associativity).

(** [raises r]: the call ended with an exception. *)
Definition raises {A : Type} (r : result A) : Prop :=
  match r with
  | Ok _ => False
  | Raise _ => True
  end.

(* ================================================================== *)
(** * Numbers: binary64 with exact finite values *)
(* ================================================================== *)

Module F64.

Local Open Scope R_scope.

Inductive float64 : Type :=
| Fin (r : R)
| PInf
| NInf
| NaN.

Definition of_nat (n : nat) : float64 := Fin (INR n).

Definition is_finite (x : float64) : Prop :=
  match x with
  | Fin _ => True
  | _ => False
  end.

Definition opp (x : float64) : float64 :=
  match x with
  | Fin r => Fin (- r)
  | PInf => NInf
  | NInf => PInf
  | NaN => NaN
  end.

Definition add (x y : float64) : float64 :=
  match x, y with
  | NaN, _ | _, NaN => NaN
  | Fin a, Fin b => Fin (a + b)
  | PInf, NInf | NInf, PInf => NaN
  | PInf, _ | _, PInf => PInf
  | NInf, _ | _, NInf => NInf
  end.

Definition sub (x y : float64) : float64 := add x (opp y).

(** Sign of a real number, as a three-way test. *)
Inductive sign : Type := Neg | Zero | Pos.

Definition sgn (r : R) : sign :=
  match total_order_T r 0 with
  | inleft (left _) => Neg
  | inleft (right _) => Zero
  | inright _ => Pos
  end.

(** [inf_signed s]: the infinity of sign [s]; [0 * inf] is NaN. *)
Definition inf_signed (s : sign) (positive : bool) : float64 :=
  match s with
  | Zero => NaN
  | Pos => if positive then PInf else NInf
  | Neg => if positive then NInf else PInf
  end.

Definition mul (x y : float64) : float64 :=
  match x, y with
  | NaN, _ | _, NaN => NaN
  | Fin a, Fin b => Fin (a * b)
  | Fin a, PInf | PInf, Fin a => inf_signed (sgn a) true
  | Fin a, NInf | NInf, Fin a => inf_signed (sgn a) false
  | PInf, PInf | NInf, NInf => PInf
  | PInf, NInf | NInf, PInf => NInf
  end.

(** Division.  numpy scalars do not raise on a zero divisor: the result is
    an infinity, or NaN for [0/0] (a RuntimeWarning is printed). *)
Definition div (x y : float64) : float64 :=
  match x, y with
  | NaN, _ | _, NaN => NaN
  | Fin a, Fin b =>
      match sgn b with
      | Zero => inf_signed (sgn a) true
      | _ => Fin (a / b)
      end
  | Fin _, PInf | Fin _, NInf => Fin 0
  | PInf, Fin b => match sgn b with Neg => NInf | _ => PInf end
  | NInf, Fin b => match sgn b with Neg => PInf | _ => NInf end
  | _, _ => NaN
  end.

(** [numpy.sqrt]. *)
Definition fsqrt (x : float64) : float64 :=
  match x with
  | Fin r => match sgn r with Neg => NaN | _ => Fin (sqrt r) end
  | PInf => PInf
  | NInf => NaN
  | NaN => NaN
  end.

(** [x ** 0.5]. *)
Definition pow_half (x : float64) : float64 :=
  match x with
  | Fin r => match sgn r with Neg => NaN | _ => Fin (sqrt r) end
  | PInf => PInf
  | NInf => PInf
  | NaN => NaN
  end.

(** [x ** 2]. *)
Definition sq (x : float64) : float64 := mul x x.

(** Minimum and maximum of two values as numpy's reductions [min] and
    [max] take them: NaN propagates. *)
Definition fmin (x y : float64) : float64 :=
  match x, y with
  | NaN, _ | _, NaN => NaN
  | Fin a, Fin b => Fin (Rmin a b)
  | NInf, _ | _, NInf => NInf
  | PInf, z | z, PInf => z
  end.

Definition fmax (x y : float64) : float64 :=
  match x, y with
  | NaN, _ | _, NaN => NaN
  | Fin a, Fin b => Fin (Rmax a b)
  | PInf, _ | _, PInf => PInf
  | NInf, z | z, NInf => z
  end.

End F64.

Export F64.

(* ================================================================== *)
(** * The model object *)
(* ================================================================== *)

(** One row of an (n,3) array. *)
Definition point (F : Type) : Type := (F * F * F)%type.

Definition px {F : Type} (p : point F) : F := fst (fst p).
Definition py {F : Type} (p : point F) : F := snd (fst p).
Definition pz {F : Type} (p : point F) : F := snd p.

(** [self.atoms]: the empty Python list that [__init__] stores, or the
    numpy array built by [read] or [canonical_position].  [NdArray []] is
    [numpy.array([])], which is 1-dimensional (shape (0,)); [NdArray rows]
    with rows has shape (n,3). *)
Inductive atoms_t (F : Type) : Type :=
| PyList
| NdArray (rows : list (point F)).

Arguments PyList {F}.
Arguments NdArray {F} rows.

(** [self.com]: the empty Python list of [__init__], or what
    [mol.mean(axis=0)] returned: a 0-d value when [atoms] has shape (0,), a
    3-vector otherwise. *)
Inductive com_t (F : Type) : Type :=
| ComUnset
| ComScalar (c : F)
| ComVector (c : point F).

Arguments ComUnset {F}.
Arguments ComScalar {F} c.
Arguments ComVector {F} c.

Record SASModel (F : Type) : Type := mkSASModel {
  atoms : atoms_t F;
  radius : F;
  (** the lines of the PDB file; [[]] also stands for the initial [""] *)
  header : list string;
  com : com_t F;
  _fineness : option F;
  (** a 3x3 array; [None] is the initial empty list *)
  inertensor : option (list (list F))
}.

Arguments mkSASModel {F}.
Arguments atoms {F}.
Arguments radius {F}.
Arguments header {F}.
Arguments com {F}.
Arguments _fineness {F}.
Arguments inertensor {F}.

(** [SASModel()]; [one] is the number 1.0. *)
Definition init {F : Type} (one : F) : SASModel F :=
  mkSASModel PyList one [] ComUnset None None.

Definition set_atoms {F : Type} (m : SASModel F) (a : atoms_t F) : SASModel F :=
  mkSASModel a (radius m) (header m) (com m) (_fineness m) (inertensor m).

Definition set_header {F : Type} (m : SASModel F) (h : list string) : SASModel F :=
  mkSASModel (atoms m) (radius m) h (com m) (_fineness m) (inertensor m).

Definition set_com {F : Type} (m : SASModel F) (c : com_t F) : SASModel F :=
  mkSASModel (atoms m) (radius m) (header m) c (_fineness m) (inertensor m).

Definition set_fineness {F : Type} (m : SASModel F) (f : F) : SASModel F :=
  mkSASModel (atoms m) (radius m) (header m) (com m) (Some f) (inertensor m).

Definition set_inertensor {F : Type} (m : SASModel F) (t : list (list F))
  : SASModel F :=
  mkSASModel (atoms m) (radius m) (header m) (com m) (_fineness m) (Some t).

(** [a[:,k]] for [k] in 0..2.  A Python list cannot be indexed by a tuple
    (TypeError); an array of shape (0,) has one axis only (IndexError). *)
Definition column {F : Type} (sel : point F -> F) (a : atoms_t F)
  : result (list F) :=
  match a with
  | PyList => Raise TypeError
  | NdArray [] => Raise IndexError
  | NdArray rows => Ok (map sel rows)
  end.

(** [a.shape[0]] *)
Definition shape0 {F : Type} (a : atoms_t F) : result nat :=
  match a with
  | PyList => Raise AttributeError
  | NdArray rows => Ok (length rows)
  end.

(** [a[nr]] on an array; IndexError out of range. *)
Definition getitem {F : Type} (a : atoms_t F) (nr : nat) : result (point F) :=
  match a with
  | PyList => Raise IndexError
  | NdArray rows =>
      match nth_error rows nr with
      | Some p => Ok p
      | None => Raise IndexError
      end
  end.

(* ================================================================== *)
(** * Arrays of numbers *)
(* ================================================================== *)

(** A 2-d array: the list of its rows. *)
Definition matrix : Type := list (list float64).

(** Element-wise operation on two 1-d arrays of the same length. *)
Fixpoint map2 (f : float64 -> float64 -> float64) (u v : list float64)
  : list float64 :=
  match u, v with
  | a :: u', b :: v' => f a b :: map2 f u' v'
  | _, _ => []
  end.

(** Element-wise operation on two 2-d arrays of the same shape. *)
Fixpoint mat_map2 (f : float64 -> float64 -> float64) (m1 m2 : matrix)
  : matrix :=
  match m1, m2 with
  | r1 :: m1', r2 :: m2' => map2 f r1 r2 :: mat_map2 f m1' m2'
  | _, _ => []
  end.

Definition mat_map (f : float64 -> float64) (m : matrix) : matrix :=
  map (map f) m.

Definition mat_add : matrix -> matrix -> matrix := mat_map2 add.

(** [m ** 2], element-wise. *)
Definition mat_sq : matrix -> matrix := mat_map sq.

(** [c * m] for a scalar [c]. *)
Definition mat_scale (c : float64) : matrix -> matrix := mat_map (mul c).

(** [a.sum()] of a 1-d array; the sum of an empty array is 0. *)
Definition fsum (l : list float64) : float64 := fold_left add l (Fin 0).

(** Reduction of a non-empty list by a binary operation.  numpy raises
    ValueError when [min] or [max] reduces an empty array; the program
    reaches these reductions with non-empty arrays only, and the embedding
    gives NaN on the empty list. *)
Definition reduce (f : float64 -> float64 -> float64) (l : list float64)
  : float64 :=
  match l with
  | [] => NaN
  | x :: l' => fold_left f l' x
  end.

(** [a.min()] and [a.max()] of a 1-d array. *)
Definition amin : list float64 -> float64 := reduce fmin.
Definition amax : list float64 -> float64 := reduce fmax.

(** [m.max()]: the largest entry of a 2-d array. *)
Definition mat_max (m : matrix) : float64 := amax (concat m).

(** [m.min(axis=1)]: the minimum of every row. *)
Definition min_axis1 (m : matrix) : list float64 := map amin m.

(** [m.min(axis=0)]: the minimum of every column. *)
Definition min_axis0 (m : matrix) : list float64 :=
  match m with
  | [] => []
  | r :: m' => fold_left (map2 fmin) m' r
  end.

(** [a.mean()] of a 1-d array: the sum over the number of elements; NaN for
    an empty array ([0/0]). *)
Definition mean (l : list float64) : float64 :=
  div (fsum l) (of_nat (length l)).

(** [numpy.eye(n)]. *)
Definition eye (n : nat) : matrix :=
  map (fun i => map (fun j => if Nat.eqb i j then Fin 1 else Fin 0) (seq 0 n))
      (seq 0 n).

(** [delta_expand(vec1, vec2)]: the 2-d array of the differences
    [vec1[i] - vec2[j]].  The source obtains it by broadcasting: [vec1] is
    viewed as a column repeated along the rows (stride 0 on the second
    axis), [vec2] as a row repeated along the columns. *)
Definition delta_expand (vec1 vec2 : list float64) : matrix :=
  map (fun a => map (fun b => sub a b) vec2) vec1.

(** [m[i,j]]; the program indexes inside the shape only, and the embedding
    gives NaN outside. *)
Definition entry (m : matrix) (i j : nat) : float64 :=
  nth j (nth i m []) NaN.

(** [m.T] *)
Definition transpose (m : matrix) : matrix :=
  map (fun j => map (fun r => nth j r NaN) m) (seq 0 (length (hd [] m))).

(** [numpy.dot(a, b)] for 2-d arrays: the sums of the products of the rows
    of [a] with the columns of [b]. *)
Definition dot (a b : matrix) : matrix :=
  map (fun r => map (fun c => fsum (map2 mul r c)) (transpose b)) a.

(** [w.argsort()].  numpy orders NaN after every number.  On arrays this
    short numpy's default sort is an insertion sort: equal keys keep their
    order. *)
Definition sorts_before (x y : float64) : bool :=
  match x, y with
  | NaN, _ => false
  | _, NaN => true
  | _, NInf => false
  | NInf, _ => true
  | PInf, _ => false
  | _, PInf => true
  | Fin a, Fin b => if Rlt_dec a b then true else false
  end.

Fixpoint insert_index (w : list float64) (i : nat) (sorted : list nat)
  : list nat :=
  match sorted with
  | [] => [i]
  | j :: s =>
      if sorts_before (nth i w NaN) (nth j w NaN)
      then i :: j :: s
      else j :: insert_index w i s
  end.

Definition argsort (w : list float64) : list nat :=
  fold_left (fun acc i => insert_index w i acc) (seq 0 (length w)) [].

(** [v[:, idx]]: the columns of [v] picked by the index array [idx]. *)
Definition take_columns (v : matrix) (idx : list nat) : matrix :=
  map (fun r => map (fun k => nth k r NaN) idx) v.

(** [numpy.append(m, b, axis=1)]: the rows of [b] appended to the rows of
    [m]. *)
Definition append_axis1 (m b : matrix) : matrix :=
  map (fun rb => fst rb ++ snd rb) (combine m b).

(** [numpy.delete(m, k, axis=0)] *)
Definition delete_row (k : nat) (m : matrix) : matrix :=
  firstn k m ++ skipn (S k) m.

(** The rows of an (n,3) array. *)
Definition rows_of (m : matrix) : list (point float64) :=
  map (fun r => (nth 0 r NaN, nth 1 r NaN, nth 2 r NaN)) m.

(* ================================================================== *)
(** * Centre of mass, inertia tensor, canonical position *)
(* ================================================================== *)

(** [SASModel.centroid]: [self.com = mol.mean(axis=0)].  On an array of
    shape (0,) the mean is the 0-d value [0/0] (numpy prints a
    RuntimeWarning and raises nothing). *)
Definition centroid (m : SASModel float64) : result (SASModel float64) :=
  match atoms m with
  | PyList => Raise AttributeError
  | NdArray [] => Ok (set_com m (ComScalar (mean [])))
  | NdArray rows =>
      Ok (set_com m (ComVector (mean (map px rows),
                                mean (map py rows),
                                mean (map pz rows))))
  end.

(** [mol[:,i]] for a row of [mol]. *)
Definition coord (i : nat) (p : point float64) : float64 :=
  match i with
  | 0%nat => px p
  | 1%nat => py p
  | _ => pz p
  end.

Definition delta_kron (i j : nat) : float64 :=
  if Nat.eqb i j then Fin 1 else Fin 0.

(** [(delta_kron(i,j)*(mol**2).sum(axis=1) - (mol[:,i]*mol[:,j])).sum()/mol.shape[0]] *)
Definition tensor_entry (mol : list (point float64)) (i j : nat) : float64 :=
  div (fsum (map (fun p =>
                    sub (mul (delta_kron i j)
                             (fsum [sq (px p); sq (py p); sq (pz p)]))
                        (mul (coord i p) (coord j p)))
                 mol))
      (of_nat (length mol)).

(** The loop over [i] and [j >= i], which fills both triangles. *)
Definition tensor (mol : list (point float64)) : matrix :=
  [[tensor_entry mol 0 0; tensor_entry mol 0 1; tensor_entry mol 0 2];
   [tensor_entry mol 0 1; tensor_entry mol 1 1; tensor_entry mol 1 2];
   [tensor_entry mol 0 2; tensor_entry mol 1 2; tensor_entry mol 2 2]].

(** [rows - c], the vector [c] broadcast over the rows. *)
Definition centered (rows : list (point float64)) (c : point float64)
  : list (point float64) :=
  map (fun p => (sub (px p) (px c), sub (py p) (py c), sub (pz p) (pz c))) rows.

(** [SASModel.inertiatensor].  [self.atoms - self.com] fails when the
    shapes cannot be broadcast (ValueError) or when both are lists
    (TypeError); on a 1-d array [sum(axis=1)] raises AxisError. *)
Definition inertiatensor (m : SASModel float64) : result (SASModel float64) :=
  match atoms m, com m with
  | PyList, ComUnset => Raise TypeError
  | PyList, ComScalar _ => Raise AxisError
  | PyList, ComVector _ => Raise ValueError
  | NdArray [], ComUnset => Raise AxisError
  | NdArray [], ComScalar _ => Raise AxisError
  | NdArray [], ComVector _ => Raise ValueError
  | NdArray _, ComUnset => Raise ValueError
  | NdArray rows, ComScalar c =>
      Ok (set_inertensor m (tensor (centered rows (c, c, c))))
  | NdArray rows, ComVector c =>
      Ok (set_inertensor m (tensor (centered rows c)))
  end.

(** [SASModel.canonical_translate]: the identity of size 4 with [-self.com]
    in its last column.  The unary minus of a list is a TypeError. *)
Definition canonical_translate (m : SASModel float64) : result matrix :=
  let trans (c : point float64) : matrix :=
    [[Fin 1; Fin 0; Fin 0; opp (px c)];
     [Fin 0; Fin 1; Fin 0; opp (py c)];
     [Fin 0; Fin 0; Fin 1; opp (pz c)];
     [Fin 0; Fin 0; Fin 0; Fin 1]] in
  match com m with
  | ComUnset => Raise TypeError
  | ComScalar c => Ok (trans (c, c, c))
  | ComVector c => Ok (trans c)
  end.

Section Rotation.

(** [numpy.linalg.eigh]: eigenvalues and eigenvectors (as columns) of a
    symmetric matrix. *)
Variable eigh : matrix -> result (list float64 * matrix).

(** [SASModel.canonical_rotate] *)
Definition canonical_rotate (m : SASModel float64) : result matrix :=
  match inertensor m with
  | None => Raise LinAlgError
  | Some t =>
      wv <- eigh t ;;
      let w := fst wv in
      let v := snd wv in
      let mat := take_columns v (argsort w) in
      let b := [[Fin 0]; [Fin 0]; [Fin 0]; [Fin 1]] in
      Ok (append_axis1 (transpose mat ++ [[Fin 0; Fin 0; Fin 0]]) b)
  end.

(** [SASModel.canonical_position] *)
Definition canonical_position (m : SASModel float64)
  : result (SASModel float64) :=
  match atoms m with
  | PyList => Raise AttributeError
  | NdArray [] => Raise ValueError
  | NdArray rows =>
      let mol := [map px rows; map py rows; map pz rows]
                 ++ [repeat (Fin 1) (length rows)] in
      trans <- canonical_translate m ;;
      let mol := dot trans mol in
      rot <- canonical_rotate m ;;
      let mol := dot rot mol in
      let molfinal := delete_row 3 mol in
      Ok (set_atoms m (NdArray (rows_of (transpose molfinal))))
  end.

End Rotation.

(* ================================================================== *)
(** * Fineness and discrepancy *)
(* ================================================================== *)

(** The compiled extension [freesas._distance].  Its source
    (freesas/_distance.pyx, named by setup.py) is not among the files at
    hand, so its two entry points are kept abstract. *)
Record distance_module : Type := mkDistance {
  calc_fineness : atoms_t float64 -> result float64;
  calc_distance : atoms_t float64 -> atoms_t float64 ->
                  float64 -> float64 -> result float64
}.

(** The two operands of [self.dist(other)].  Python passes references:
    [Same m] is the call [m.dist(m)], where [self] and [other] are one
    object and share its fineness cache. *)
Inductive operands : Type :=
| Same (m : SASModel float64)
| Distinct (self other : SASModel float64).

Definition self_of (o : operands) : SASModel float64 :=
  match o with
  | Same m => m
  | Distinct s _ => s
  end.

Definition other_of (o : operands) : SASModel float64 :=
  match o with
  | Same m => m
  | Distinct _ t => t
  end.

(** The call with the operands exchanged. *)
Definition swap (o : operands) : operands :=
  match o with
  | Same m => Same m
  | Distinct s t => Distinct t s
  end.

Section Discrepancy.

(** The module-level name [_distance]: the extension, or [None] when its
    import failed. *)
Variable _distance : option distance_module.

(** [SASModel._calc_fineness] *)
Definition _calc_fineness (m : SASModel float64) (use_cython : bool)
  : result float64 :=
  match _distance, use_cython with
  | Some d, true => calc_fineness d (atoms m)
  | _, _ =>
      xs <- column px (atoms m) ;;
      ys <- column py (atoms m) ;;
      zs <- column pz (atoms m) ;;
      let D := mat_add (mat_add (mat_sq (delta_expand xs xs))
                                (mat_sq (delta_expand ys ys)))
                       (mat_sq (delta_expand zs zs)) in
      let d12 :=
        mean (min_axis0 (mat_add (mat_scale (mat_max D) (eye (length xs))) D)) in
      Ok (fsqrt d12)
  end.

(** The property [SASModel.fineness]: the cached value, computed and
    stored at the first access.  Returns the value and the object after
    the access. *)
Definition fineness (m : SASModel float64) : result (float64 * SASModel float64) :=
  match _fineness m with
  | Some f => Ok (f, m)
  | None =>
      f <- _calc_fineness m true ;;
      Ok (f, set_fineness m f)
  end.

(** The value alone. *)
Definition fineness_value (m : SASModel float64) : result float64 :=
  r <- fineness m ;; Ok (fst r).

(** [self.fineness] and [other.fineness] inside [dist]. *)
Definition self_fineness (o : operands) : result (float64 * operands) :=
  match o with
  | Same m => r <- fineness m ;; Ok (fst r, Same (snd r))
  | Distinct s t => r <- fineness s ;; Ok (fst r, Distinct (snd r) t)
  end.

Definition other_fineness (o : operands) : result (float64 * operands) :=
  match o with
  | Same m => r <- fineness m ;; Ok (fst r, Same (snd r))
  | Distinct s t => r <- fineness t ;; Ok (fst r, Distinct s (snd r))
  end.

(** [SASModel.dist].  Returns the distance and the operands after the
    call (their fineness caches may have been filled). *)
Definition dist (o : operands) (use_cython : bool)
  : result (float64 * operands) :=
  match _distance, use_cython with
  | Some d, true =>
      fs <- self_fineness o ;;
      fo <- other_fineness (snd fs) ;;
      D <- calc_distance d (atoms (self_of o)) (atoms (other_of o))
                         (fst fs) (fst fo) ;;
      Ok (D, snd fo)
  | _, _ =>
      let mol1 := atoms (self_of o) in
      let mol2 := atoms (other_of o) in
      mol1x <- column px mol1 ;;
      mol1y <- column py mol1 ;;
      mol1z <- column pz mol1 ;;
      mol2x <- column px mol2 ;;
      mol2y <- column py mol2 ;;
      mol2z <- column pz mol2 ;;
      let d2 := mat_add (mat_add (mat_sq (delta_expand mol1x mol2x))
                                 (mat_sq (delta_expand mol1y mol2y)))
                        (mat_sq (delta_expand mol1z mol2z)) in
      n1 <- shape0 mol1 ;;
      fo1 <- other_fineness o ;;
      fo2 <- other_fineness (snd fo1) ;;
      let c1 := div (Fin 1) (mul (mul (of_nat n1) (fst fo1)) (fst fo2)) in
      let t1 := mul c1 (fsum (min_axis1 d2)) in
      n2 <- shape0 mol2 ;;
      fs1 <- self_fineness (snd fo2) ;;
      fs2 <- self_fineness (snd fs1) ;;
      let c2 := div (Fin 1) (mul (mul (of_nat n2) (fst fs1)) (fst fs2)) in
      let t2 := mul c2 (fsum (min_axis0 d2)) in
      Ok (pow_half (mul (Fin 0.5) (add t1 t2)), snd fs2)
  end.

(** The distance alone. *)
Definition dist_value (o : operands) (use_cython : bool) : result float64 :=
  r <- dist o use_cython ;; Ok (fst r).

End Discrepancy.

(* ================================================================== *)
(** * Text *)
(* ================================================================== *)

(** [s[:n]] *)
Fixpoint str_take (n : nat) (s : string) : string :=
  match n, s with
  | S n', String c s' => String c (str_take n' s')
  | _, _ => EmptyString
  end.

(** [s[n:]] *)
Fixpoint str_drop (n : nat) (s : string) : string :=
  match n, s with
  | S n', String _ s' => str_drop n' s'
  | _, _ => s
  end.

(** [s[a:b]] for [a <= b] *)
Definition str_slice (a b : nat) (s : string) : string :=
  str_take (b - a) (str_drop a s).

(** [line.startswith(p)] *)
Definition startswith (p line : string) : bool := String.prefix p line.

(** The characters [str.split()] separates on, for a text string of
    Python 3: among the characters below 256 these are tab, line feed,
    vertical tab, form feed and carriage return (9 to 13), the four
    separators 28 to 31, the space (32), the next-line character (133) and
    the no-break space (160). *)
Definition is_space (c : ascii) : bool :=
  let n := nat_of_ascii c in
  ((Nat.leb 9 n && Nat.leb n 13) || (Nat.leb 28 n && Nat.leb n 32)
   || Nat.eqb n 133 || Nat.eqb n 160)%bool.

(** [split_go s]: the word in progress at the front of [s], if [s] does not
    start with a separator, and the words after it. *)
Fixpoint split_go (s : string) : option string * list string :=
  match s with
  | EmptyString => (None, [])
  | String c s' =>
      let (cur, words) := split_go s' in
      if is_space c then
        (None, match cur with Some w => w :: words | None => words end)
      else
        (Some (String c (match cur with Some w => w | None => EmptyString end)),
         words)
  end.

(** [s.split()] *)
Definition split (s : string) : list string :=
  let (cur, words) := split_go s in
  match cur with
  | Some w => w :: words
  | None => words
  end.

(** [args[k]] on a list; IndexError out of range. *)
Definition index (args : list string) (k : nat) : result string :=
  match nth_error args k with
  | Some a => Ok a
  | None => Raise IndexError
  end.

(** The translation [open(filename)] applies to what it reads (text mode,
    universal newlines): a carriage return followed by a line feed, and a
    carriage return alone, are handed over as one line feed. *)
Fixpoint universal_newlines (text : string) : string :=
  match text with
  | EmptyString => EmptyString
  | String c rest =>
      if Ascii.eqb c "013" then
        match rest with
        | String c' rest' =>
            if Ascii.eqb c' "010" then String "010" (universal_newlines rest')
            else String "010" (universal_newlines rest)
        | EmptyString => String "010" EmptyString
        end
      else String c (universal_newlines rest)
  end.

(** A text cut after each of its line feeds: every line keeps its line
    feed; the last one may have none. *)
Fixpoint lines_of (text : string) : list string :=
  match text with
  | EmptyString => []
  | String c rest =>
      if Ascii.eqb c "010" then String c EmptyString :: lines_of rest
      else match lines_of rest with
           | [] => [String c EmptyString]
           | l :: ls => String c l :: ls
           end
  end.

(** The lines the iteration over [open(filename)] yields for a file of the
    given text. *)
Definition file_lines (text : string) : list string :=
  lines_of (universal_newlines text).

(** A text without carriage return. *)
Fixpoint cr_free (text : string) : bool :=
  match text with
  | EmptyString => true
  | String c rest => (negb (Ascii.eqb c "013") && cr_free rest)%bool
  end.

(** What a sequence of [write] calls leaves in the file. *)
Definition written (chunks : list string) : string :=
  fold_right String.append EmptyString chunks.

(* ================================================================== *)
(** * Reading and writing PDB files *)
(* ================================================================== *)

Section Files.

Variable F : Type.

(** The builtin [float(s)]; ValueError when [s] is not a numeral. *)
Variable float : string -> result F.

(** The conversion ["%8.3f" % x]. *)
Variable format_8_3f : F -> string.

(** The three coordinates of an ATOM line: the words 6, 7 and 8. *)
Definition atom_coordinates (line : string) : result (point F) :=
  let args := split line in
  x <- (a <- index args 6 ;; float a) ;;
  y <- (a <- index args 7 ;; float a) ;;
  z <- (a <- index args 8 ;; float a) ;;
  Ok (x, y, z).

(** The loop of [read] over the lines of the file, from the lists
    [header] and [atoms] built so far. *)
Fixpoint read_loop (lines : list string) (header : list string)
  (atoms : list (point F)) : result (list string * list (point F)) :=
  match lines with
  | [] => Ok (header, atoms)
  | line :: rest =>
      atoms' <- (if startswith "ATOM" line
                 then p <- atom_coordinates line ;; Ok (atoms ++ [p])
                 else Ok atoms) ;;
      read_loop rest (header ++ [line]) atoms'
  end.

(** [SASModel.read], on the text of the file. *)
Definition read (m : SASModel F) (text : string) : result (SASModel F) :=
  r <- read_loop (file_lines text) [] [] ;;
  Ok (set_atoms (set_header m (fst r)) (NdArray (snd r))).

(** ["%8.3f%8.3f%8.3f" % tuple(p)] *)
Definition format_point (p : point F) : string :=
  (format_8_3f (px p) ++ format_8_3f (py p) ++ format_8_3f (pz p))%string.

(** The loop of [save] over the header, with the counter [nr]; returns
    the chunks written, in order. *)
Fixpoint save_loop (lines : list string) (nr : nat) (a : atoms_t F)
  : result (list string) :=
  match lines with
  | [] => Ok []
  | line :: rest =>
      if startswith "ATOM" line then
        n <- shape0 a ;;
        line' <- (if Nat.ltb nr n
                  then p <- getitem a nr ;;
                       Ok (str_take 30 line ++ format_point p
                           ++ str_drop 54 line)%string
                  else Ok EmptyString) ;;
        out <- save_loop rest (S nr) a ;;
        Ok (line' :: out)
      else
        out <- save_loop rest nr a ;;
        Ok (line :: out)
  end.

(** [SASModel.save]: the text of the file written. *)
Definition save (m : SASModel F) : result string :=
  out <- save_loop (header m) 0 (atoms m) ;;
  Ok (written out).

End Files.

Arguments atom_coordinates {F} float line.
Arguments read_loop {F} float lines header atoms.
Arguments read {F} float m text.
Arguments format_point {F} format_8_3f p.
Arguments save_loop {F} format_8_3f lines nr a.
Arguments save {F} format_8_3f m.

(* ================================================================== *)
(** * The stated formulas *)
(* ================================================================== *)

Module Stated.

Local Open Scope R_scope.

(** A point with real coordinates. *)
Definition rpoint : Type := (R * R * R)%type.

Definition rx (p : rpoint) : R := fst (fst p).
Definition ry (p : rpoint) : R := snd (fst p).
Definition rz (p : rpoint) : R := snd p.

(** The array holding the given real points. *)
Definition inj (p : rpoint) : point float64 := (Fin (rx p), Fin (ry p), Fin (rz p)).

Definition array_of (A : list rpoint) : atoms_t float64 := NdArray (map inj A).

(** Euclidean distance [d(a,b)]. *)
Definition euclid (a b : rpoint) : R :=
  sqrt ((rx a - rx b)² + (ry a - ry b)² + (rz a - rz b)²).

(** Sum of a list of reals. *)
Definition Rsum (l : list R) : R := fold_right Rplus 0 l.

(** Minimum of a non-empty list of reals (0 on the empty list). *)
Definition Rmin_list (l : list R) : R :=
  match l with
  | [] => 0
  | x :: l' => fold_right Rmin x l'
  end.

(** [sum over a in A of min over b in B of d(a,b)^2] *)
Definition sum_min_sq (A B : list rpoint) : R :=
  Rsum (map (fun a => Rmin_list (map (fun b => (euclid a b)²) B)) A).

(** The normalised spatial discrepancy as it is stated, with fineness
    values [fA] and [fB]:
    [sqrt(0.5 * ((1/(|A| fB^2)) * sum_a min_b d^2 + (1/(|B| fA^2)) * sum_b min_a d^2))] *)
Definition nsd (A B : list rpoint) (fA fB : R) : R :=
  sqrt (0.5 * ((1 / (INR (length A) * fB²))
                 * Rsum (map (fun a => Rmin_list (map (fun b => (euclid a b)²) B)) A)
               + (1 / (INR (length B) * fA²))
                 * Rsum (map (fun b => Rmin_list (map (fun a => (euclid a b)²) A)) B))).

(** The points of [A] other than the one at index [i]. *)
Definition others (i : nat) (A : list rpoint) : list rpoint :=
  firstn i A ++ skipn (S i) A.

(** Distance from the atom [a] at index [i] to its nearest other atom. *)
Definition nearest_other (A : list rpoint) (i : nat) (a : rpoint) : R :=
  Rmin_list (map (euclid a) (others i A)).

(** The atoms of a model with their indices. *)
Definition indexed (A : list rpoint) : list (nat * rpoint) :=
  combine (seq 0 (length A)) A.

(** Fineness as it is stated: the arithmetic mean, over the atoms, of the
    distance to the nearest other atom. *)
Definition mean_nearest (A : list rpoint) : R :=
  Rsum (map (fun ia => nearest_other A (fst ia) (snd ia)) (indexed A))
  / INR (length A).

(** The root of the mean of the squared distances to the nearest other
    atom. *)
Definition rms_nearest (A : list rpoint) : R :=
  sqrt (Rsum (map (fun ia => (nearest_other A (fst ia) (snd ia))²) (indexed A))
        / INR (length A)).

(** Determinant of a square array, by expansion along the first row;
    [n] is the size. *)
Fixpoint det_rec (n : nat) (m : matrix) : float64 :=
  match n with
  | O => Fin 1
  | S n' =>
      match m with
      | [] => Fin 0
      | r :: rest =>
          fsum (map (fun j =>
                       let minor := map (fun row => firstn j row ++ skipn (S j) row) rest in
                       let term := mul (nth j r NaN) (det_rec n' minor) in
                       if Nat.even j then term else opp term)
                    (seq 0 (length r)))
      end
  end.

Definition det (m : matrix) : float64 := det_rec (length m) m.

Section Substitution.

Variable F : Type.
Variable format_8_3f : F -> string.

(** An ATOM record with the coordinates of [p] in its columns 31 to 54. *)
Definition substitute (line : string) (p : point F) : string :=
  (str_take 30 line ++ format_point format_8_3f p ++ str_drop 54 line)%string.

(** The header with the points [pts] substituted, in order, into its
    ATOM records, every other line verbatim; an ATOM record for which no
    point is left is dropped. *)
Fixpoint substituted (header : list string) (pts : list (point F))
  : list string :=
  match header with
  | [] => []
  | line :: rest =>
      if startswith "ATOM" line then
        match pts with
        | p :: pts' => substitute line p :: substituted rest pts'
        | [] => EmptyString :: substituted rest []
        end
      else line :: substituted rest pts
  end.

End Substitution.

Arguments substitute {F} format_8_3f line p.
Arguments substituted {F} format_8_3f header pts.

(** The number of ATOM records of a header. *)
Definition atom_records (header : list string) : nat :=
  length (filter (startswith "ATOM") header).

End Stated.

Export Stated.

(* ================================================================== *)
(** * Running the file layer: exact decimal numbers *)
(* ================================================================== *)

(** An instance of the two builtins of the file layer on the rational
    numbers, to run [read] and [save] on given files.  It agrees with
    CPython on plain numerals (optional sign, digits, optional point and
    digits) that carry at most three digits after the point, for which the
    nearest binary64 value prints back to the same three decimals;
    exponents, [inf], [nan] and underscores are outside of it. *)
Module Decimal.

Local Open Scope Z_scope.

(** The digits of [s] as a number; [None] when [s] has another character. *)
Definition digits_value (s : string) : option Z :=
  option_map Z.of_uint (NilEmpty.uint_of_string s).

(** [s] split at its first point, if it has one. *)
Fixpoint split_point (s : string) : string * option string :=
  match s with
  | EmptyString => (EmptyString, None)
  | String c s' =>
      if Ascii.eqb c "." then (EmptyString, Some s')
      else let (i, f) := split_point s' in (String c i, f)
  end.

(** [float(s)] on an unsigned numeral. *)
Definition unsigned_value (s : string) : result Q :=
  let (i, f) := split_point s in
  let f := match f with Some f => f | None => EmptyString end in
  match String.length i, String.length f with
  | O, O => Raise ValueError
  | _, _ =>
      match digits_value i, digits_value f with
      | Some a, Some b =>
          let k := Z.pow 10 (Z.of_nat (String.length f)) in
          Ok (Qmake (a * k + b) (Z.to_pos k))
      | _, _ => Raise ValueError
      end
  end.

(** [float(s)] *)
Definition float (s : string) : result Q :=
  match s with
  | String c s' =>
      if Ascii.eqb c "-" then (v <- unsigned_value s' ;; Ok (Qopp v))
      else if Ascii.eqb c "+" then unsigned_value s'
      else unsigned_value s
  | EmptyString => Raise ValueError
  end.

(** The nearest integer to a non-negative rational, ties to even. *)
Definition round_half_even (q : Q) : Z :=
  let n := Qnum q in
  let d := Zpos (Qden q) in
  let fl := n / d in
  let r := n mod d in
  match 2 * r ?= d with
  | Lt => fl
  | Gt => fl + 1
  | Eq => if Z.even fl then fl else fl + 1
  end.

Definition decimal_string (n : Z) : string :=
  NilZero.string_of_uint (N.to_uint (Z.to_N n)).

(** [n] in decimal on three digits, for [0 <= n < 1000]. *)
Definition three_digits (n : Z) : string :=
  ((if (n <? 100)%Z then "0" else "") ++ (if (n <? 10)%Z then "0" else "")
   ++ decimal_string n)%string.

Fixpoint spaces (n : nat) : string :=
  match n with
  | O => EmptyString
  | S n' => String " " (spaces n')
  end.

(** ["%8.3f" % q]: three decimals, right-justified on 8 columns at least. *)
Definition format_8_3f (q : Q) : string :=
  let a := round_half_even (Qabs q * 1000)%Q in
  let body := ((if (Qnum q <? 0)%Z then "-" else "")
               ++ decimal_string (a / 1000)%Z ++ "." ++ three_digits (a mod 1000)%Z)%string in
  (spaces (8 - String.length body) ++ body)%string.

End Decimal.

(** [float(s)] with its result among the modelled numbers. *)
Definition float_exact (s : string) : result float64 :=
  q <- Decimal.float s ;; Ok (Fin (Q2R q)).

(** A model as [read] leaves it, holding the given points. *)
Definition model_of (A : list rpoint) : SASModel float64 :=
  set_atoms (init (Fin 1)) (array_of A).

(* ================================================================== *)
(** * The eigen-decomposition *)
(* ================================================================== *)

(** An array of [n] rows of [k] finite numbers. *)
Definition finite_matrix (n k : nat) (m : matrix) : Prop :=
  length m = n /\ Forall (fun r => length r = k /\ Forall is_finite r) m.

(** A 3x3 array equal to its transpose. *)
Definition symmetric33 (t : matrix) : Prop :=
  entry t 0 1 = entry t 1 0 /\ entry t 0 2 = entry t 2 0
  /\ entry t 1 2 = entry t 2 1.

(** [numpy.diag(w)] *)
Definition diag (w : list float64) : matrix :=
  map (fun i => map (fun j => if Nat.eqb i j then nth i w NaN else Fin 0)
                    (seq 0 (length w)))
      (seq 0 (length w)).

(** Equality of two arrays of finite numbers, entry by entry. *)
Definition same_entries (a b : matrix) : Prop :=
  Forall2 (Forall2 (fun x y => match x, y with
                               | Fin r, Fin s => r = s
                               | _, _ => False
                               end)) a b.

(** Ascending order of a list of finite numbers. *)
Fixpoint ascending (w : list float64) : Prop :=
  match w with
  | Fin a :: ((Fin b :: _) as w') => (a <= b)%R /\ ascending w'
  | [Fin _] | [] => True
  | _ => False
  end.

(** What [numpy.linalg.eigh] promises of its result [(w, v)] on the
    symmetric 3x3 array [t]: the eigenvalues [w] ascend, the columns of [v]
    are orthonormal, and [t v = v diag(w)]. *)
Definition eigen_decomposition (t : matrix) (wv : list float64 * matrix)
  : Prop :=
  let w := fst wv in
  let v := snd wv in
  length w = 3%nat /\ finite_matrix 3 3 v /\ ascending w
  /\ same_entries (dot (transpose v) v) (eye 3)
  /\ same_entries (dot t v) (dot v (diag w)).

(** The same decomposition with the first eigenvector, e3, replaced by its
    opposite: as much an eigen-decomposition as the one below. *)
Definition eigh_decreasing_diagonal_flipped (t : matrix)
  : result (list float64 * matrix) :=
  Ok ([entry t 2 2; entry t 1 1; entry t 0 0],
      [[Fin 0; Fin 0; Fin 1];
       [Fin 0; Fin 1; Fin 0];
       [Fin (-1); Fin 0; Fin 0]]).

(** The decomposition LAPACK returns for a diagonal array whose diagonal
    decreases strictly: the eigenvalues in ascending order, with the axes
    e3, e2, e1 as eigenvectors. *)
Definition eigh_decreasing_diagonal (t : matrix)
  : result (list float64 * matrix) :=
  Ok ([entry t 2 2; entry t 1 1; entry t 0 0],
      [[Fin 0; Fin 0; Fin 1];
       [Fin 0; Fin 1; Fin 0];
       [Fin 1; Fin 0; Fin 0]]).

(* ================================================================== *)
(** * Definitions used in the statements and proofs *)
(* ================================================================== *)

(** The squared distance as [dist] and [_calc_fineness] compute it. *)
Definition sqd (a b : rpoint) : R :=
  ((rx a - rx b)² + (ry a - ry b)² + (rz a - rz b)²)%R.

(** The array [d2] of [dist] for two arrays of real points. *)
Definition sqd_matrix (A B : list rpoint) : matrix :=
  map (fun a => map (fun b => Fin (sqd a b)) B) A.

Definition d2_of (A B : list (point float64)) : matrix :=
  mat_add (mat_add (mat_sq (delta_expand (map px A) (map px B)))
                   (mat_sq (delta_expand (map py A) (map py B))))
          (mat_sq (delta_expand (map pz A) (map pz B))).

(** The last expression of [dist], on the two fineness values read. *)
Definition dist_expr (A B : list rpoint) (fa fb : float64) : float64 :=
  pow_half
    (mul (Fin 0.5)
       (add (mul (div (Fin 1) (mul (mul (of_nat (length A)) fb) fb))
                 (Fin (sum_min_sq A B)))
            (mul (div (Fin 1) (mul (mul (of_nat (length B)) fa) fa))
                 (Fin (sum_min_sq B A))))).

Definition finite_point (p : point float64) : Prop :=
  is_finite (px p) /\ is_finite (py p) /\ is_finite (pz p).

(** Arithmetic mean of a list of reals. *)
Definition rmean (l : list R) : R := (Rsum l / INR (length l))%R.

(** A 4x4 array whose last row and column are those of the identity. *)
Definition rotation_form (rot : matrix) : Prop :=
  exists r00 r01 r02 r10 r11 r12 r20 r21 r22,
    rot = [[Fin r00; Fin r01; Fin r02; Fin 0];
           [Fin r10; Fin r11; Fin r12; Fin 0];
           [Fin r20; Fin r21; Fin r22; Fin 0];
           [Fin 0; Fin 0; Fin 0; Fin 1]].

Section WellFormedFiles.

Variable F : Type.
Variable float : string -> result F.
Variable format_8_3f : F -> string.

(** A line that, when it is an ATOM record, holds three coordinates as its
    words 6 to 8 and prints them, by [%8.3f], in its columns 31 to 54. *)
Definition well_formed (line : string) : Prop :=
  startswith "ATOM" line = true ->
  exists p, atom_coordinates float line = Ok p
            /\ str_slice 30 54 line = format_point format_8_3f p.

(** [parsed lines pts]: [pts] are the points of the ATOM records of the
    well-formed [lines], in order. *)
Inductive parsed : list string -> list (point F) -> Prop :=
| parsed_nil : parsed [] []
| parsed_other line rest pts :
    startswith "ATOM" line = false ->
    parsed rest pts -> parsed (line :: rest) pts
| parsed_atom line rest p pts :
    startswith "ATOM" line = true ->
    atom_coordinates float line = Ok p ->
    str_slice 30 54 line = format_point format_8_3f p ->
    parsed rest pts -> parsed (line :: rest) (p :: pts).

End WellFormedFiles.

Arguments well_formed {F} float format_8_3f line.
Arguments parsed {F} float format_8_3f _ _.

(** ** Models and files of the examples *)

(** Two atoms at one place. *)
Definition coincident : list rpoint := [(0, 0, 0); (0, 0, 0)]%R.

(** Two atoms at distance 1. *)
Definition pair_x : list rpoint := [(0, 0, 0); (1, 0, 0)]%R.
Definition pair_y : list rpoint := [(0, 0, 1); (0, 1, 1)]%R.

(** Three atoms on a line, at 0, 1 and 3. *)
Definition line3 : list rpoint := [(0, 0, 0); (1, 0, 0); (3, 0, 0)]%R.

Definition tetrahedron : list rpoint :=
  [(0, 0, 0); (1, 0, 0); (0, 1, 0); (0, 0, 1)]%R.

(** Six atoms on the axes, at distances 1, 2 and 3 from the origin. *)
Definition axes6 : list rpoint :=
  [(1, 0, 0); (-1, 0, 0); (0, 2, 0); (0, -2, 0); (0, 0, 3); (0, 0, -3)]%R.

(** The inertia tensor of [axes6]. *)
Definition tensor_axes6 : matrix :=
  [[Fin (13 / 3); Fin 0; Fin 0];
   [Fin 0; Fin (10 / 3); Fin 0];
   [Fin 0; Fin 0; Fin (5 / 3)]].

(** [axes6] after [centroid] and [inertiatensor]. *)
Definition model_axes6 : SASModel float64 :=
  mkSASModel (array_of axes6) (Fin 1) [] (ComVector (Fin 0, Fin 0, Fin 0))
             None (Some tensor_axes6).

Definition proper : matrix :=
  [[Fin 0; Fin 0; Fin (-1); Fin 0];
   [Fin 0; Fin 1; Fin 0; Fin 0];
   [Fin 1; Fin 0; Fin 0; Fin 0];
   [Fin 0; Fin 0; Fin 0; Fin 1]].

Definition improper : matrix :=
  [[Fin 0; Fin 0; Fin 1; Fin 0];
   [Fin 0; Fin 1; Fin 0; Fin 0];
   [Fin 1; Fin 0; Fin 0; Fin 0];
   [Fin 0; Fin 0; Fin 0; Fin 1]].

(** An ATOM record whose coordinates carry two decimals. *)
Definition pdb_two_decimals : string :=
  "ATOM      1  CA  ASP A   1        1.50    2.50    3.50  1.00 20.81
".

Definition pdb_three_decimals : string :=
  "REMARK two beads
ATOM      1  CA  ASP A   1      -0.519  -5.359   8.953  1.00 20.81
ATOM      2  CA  ASP A   2       1.500   2.500   3.500  1.00 20.81
END
".

(** A file with the line ends of DOS: carriage return, line feed. *)
Definition pdb_dos : string :=
  ("REMARK two lines" ++ String "013" (String "010" "END")
   ++ String "013" (String "010" EmptyString))%string.

(** A file without ATOM record. *)
Definition pdb_no_atom : string :=
  "REMARK no atom here
".

(** A model with one ATOM record in its header and two atoms. *)
Definition model_extra_atom : SASModel Q :=
  mkSASModel (NdArray [(1 # 2, 0, 0); (7, 8, 9)]%Q) 1%Q
    ["REMARK one bead
"%string;
     "ATOM      1  CA  ASP A   1      -0.519  -5.359   8.953  1.00 20.81
"%string]
    ComUnset None None.

(* ================================================================== *)
(** * Definitions used in the further properties *)
(* ================================================================== *)

(** A map of the space onto itself that keeps every distance: the rigid
    motions and the mirror images. *)
Definition isometry (g : rpoint -> rpoint) : Prop :=
  forall a b, euclid (g a) (g b) = euclid a b.

(** The point [a] moved by the vector [t]. *)
Definition translate (t a : rpoint) : rpoint :=
  (rx a + rx t, ry a + ry t, rz a + rz t)%R.

(** The point [a] scaled by the factor [s] about the origin. *)
Definition scale (s : R) (a : rpoint) : rpoint :=
  (s * rx a, s * ry a, s * rz a)%R.

(** A map of the space onto itself that multiplies every distance by
    [s]: a rigid motion or a mirror image followed by a scaling. *)
Definition similarity (s : R) (g : rpoint -> rpoint) : Prop :=
  forall a b, euclid (g a) (g b) = (s * euclid a b)%R.

(** The operands of a call of [dist] that hold the real points [A] and
    [B] and whose fineness has not been computed yet. *)
Definition fresh_operands (o : operands) (A B : list rpoint) : Prop :=
  atoms (self_of o) = array_of A /\ atoms (other_of o) = array_of B
  /\ _fineness (self_of o) = None /\ _fineness (other_of o) = None.

(** A point whose coordinates are at most 1e50 in size. *)
Definition bounded (a : rpoint) : Prop :=
  (Rabs (rx a) <= 1e50 /\ Rabs (ry a) <= 1e50 /\ Rabs (rz a) <= 1e50)%R.

(** Two points at least 1e-50 apart in one of their coordinates. *)
Definition apart (a b : rpoint) : Prop :=
  (1e-50 <= Rabs (rx a - rx b) \/ 1e-50 <= Rabs (ry a - ry b)
   \/ 1e-50 <= Rabs (rz a - rz b))%R.

(** Points on a scale where no square of a coordinate or of a difference
    overflows, and no difference of two distinct points is lost in the
    underflow of its square: coordinates of size at most 1e50, and any two
    points at the same place or 1e-50 apart. *)
Definition well_scaled (P : list rpoint) : Prop :=
  Forall bounded P /\ forall a b, In a P -> In b P -> a = b \/ apart a b.

(** A fineness on that scale. *)
Definition scaled_fineness (f : R) : Prop := (1e-50 <= f <= 1e50)%R.

(** Two lists holding the same points, whatever their order and
    repetitions. *)
Definition same_points (A B : list rpoint) : Prop :=
  incl A B /\ incl B A.

(** The atom at index [i] has another atom at its place. *)
Definition has_twin (A : list rpoint) (i : nat) (a : rpoint) : Prop :=
  In a (others i A).

(** The point [a] taken from the point [c] and multiplied by the 3x3
    array whose rows are [r0], [r1] and [r2]. *)
Definition moved (r0 r1 r2 c a : rpoint) : rpoint :=
  (rx r0 * (rx a - rx c) + ry r0 * (ry a - ry c) + rz r0 * (rz a - rz c),
   rx r1 * (rx a - rx c) + ry r1 * (ry a - ry c) + rz r1 * (rz a - rz c),
   rx r2 * (rx a - rx c) + ry r2 * (ry a - ry c) + rz r2 * (rz a - rz c))%R.

(** Every atom of [A] with the atoms before and after it, [pre] standing
    before all of them. *)
Fixpoint picks (pre A : list rpoint) : list (rpoint * list rpoint) :=
  match A with
  | [] => []
  | a :: A' => (a, pre ++ A') :: picks (pre ++ [a]) A'
  end.

(** The centre of mass of the points [A]. *)
Definition centre (A : list rpoint) : rpoint :=
  (rmean (map rx A), rmean (map ry A), rmean (map rz A)).

(** The mean over the atoms of [A] of the product of two coordinates
    taken from the point [c]. *)
Definition moment (A : list rpoint) (c : rpoint) (u v : rpoint -> R) : R :=
  rmean (map (fun a => (u a - u c) * (v a - v c))%R A).

(** The inertia tensor of the atoms [A] about the point [c], per atom:
    the mean of [y^2 + z^2] and the like on the diagonal, the opposite of
    the mean of [x y] and the like off it. *)
Definition inertia (A : list rpoint) (c : rpoint) : matrix :=
  [[Fin (moment A c ry ry + moment A c rz rz);
    Fin (- moment A c rx ry); Fin (- moment A c rx rz)];
   [Fin (- moment A c rx ry);
    Fin (moment A c rx rx + moment A c rz rz); Fin (- moment A c ry rz)];
   [Fin (- moment A c rx rz); Fin (- moment A c ry rz);
    Fin (moment A c rx rx + moment A c ry ry)]]%R.

Section CanonicalAtoms.

Variable eigh : matrix -> result (list float64 * matrix).

(** The atoms after the three steps that put a model in its canonical
    position. *)
Definition canonical_atoms (m : SASModel float64) : result (atoms_t float64) :=
  m1 <- centroid m ;;
  m2 <- inertiatensor m1 ;;
  m3 <- canonical_position eigh m2 ;;
  Ok (atoms m3).

End CanonicalAtoms.

(** A text without line feed and without carriage return. *)
Fixpoint no_break (s : string) : bool :=
  match s with
  | EmptyString => true
  | String c rest =>
      (negb (Ascii.eqb c "010") && negb (Ascii.eqb c "013") && no_break rest)%bool
  end.

(** A line as the iteration over a file yields it when it is not the last
    one: characters other than line breaks, then one line feed. *)
Fixpoint is_line (s : string) : bool :=
  match s with
  | EmptyString => false
  | String c rest =>
      match rest with
      | EmptyString => Ascii.eqb c "010"
      | String _ _ =>
          (negb (Ascii.eqb c "010") && negb (Ascii.eqb c "013") && is_line rest)%bool
      end
  end.

(** A line of a header that [save] rewrites into a line: a line with its
    line feed, longer than 54 characters when it is an ATOM record. *)
Definition header_line (line : string) : bool :=
  (is_line line
   && (negb (startswith "ATOM" line) || Nat.ltb 54 (String.length line)))%bool.

(** The lines of a header that are no ATOM record. *)
Definition other_lines (lines : list string) : list string :=
  filter (fun line => negb (startswith "ATOM" line)) lines.

(** A string with a character at least. *)
Definition nonempty (s : string) : bool :=
  match s with
  | EmptyString => false
  | String _ _ => true
  end.

(** The model [read] builds from the file of two beads. *)
Definition model_two_beads : SASModel Q :=
  mkSASModel
    (NdArray [(- 519 # 1000, - 5359 # 1000, 8953 # 1000);
              (1500 # 1000, 2500 # 1000, 3500 # 1000)]%Q)
    1%Q (file_lines pdb_three_decimals) ComUnset None None.

(** A file whose ATOM record stops after its residue number. *)
Definition pdb_short_atom : string :=
  "REMARK cut
ATOM      1  CA  ASP A   1
".

(** A model with two ATOM records in its header and one atom. *)
Definition model_missing_atom : SASModel Q :=
  mkSASModel (NdArray [(1 # 2, 0, 0)]%Q) 1%Q
    ["ATOM      1  CA  ASP A   1      -0.519  -5.359   8.953  1.00 20.81
"%string;
     "ATOM      2  CA  ASP A   2       1.500   2.500   3.500  1.00 20.81
"%string;
     "END
"%string]
    ComUnset None None.

(** A stand-in for the extension, with a fineness of 2 for every model. *)
Definition extension_of_twos : distance_module :=
  mkDistance (fun _ => Ok (Fin 2)) (fun _ _ _ _ => Ok (Fin 0)).

(* ================================================================== *)
(** * Facts about the numbers *)
(* ================================================================== *)

Local Open Scope R_scope.

Lemma sgn_pos r : 0 < r -> sgn r = Pos.
Proof.
  intros H. unfold sgn.
  destruct (total_order_T r 0) as [[Hlt|Heq]|Hgt]; try reflexivity; lra.
Qed.

Lemma sgn_neg r : r < 0 -> sgn r = Neg.
Proof.
  intros H. unfold sgn.
  destruct (total_order_T r 0) as [[Hlt|Heq]|Hgt]; try reflexivity; lra.
Qed.

Lemma sgn_zero r : r = 0 -> sgn r = Zero.
Proof.
  intros H. unfold sgn.
  destruct (total_order_T r 0) as [[Hlt|Heq]|Hgt]; try reflexivity; lra.
Qed.

Lemma div_Fin a b : b <> 0 -> div (Fin a) (Fin b) = Fin (a / b).
Proof.
  intros Hb. unfold div, sgn.
  destruct (total_order_T b 0) as [[Hlt|Heq]|Hgt]; try reflexivity; contradiction.
Qed.

Lemma pow_half_Fin r : 0 <= r -> pow_half (Fin r) = Fin (sqrt r).
Proof.
  intros Hr. unfold pow_half, sgn.
  destruct (total_order_T r 0) as [[Hlt|Heq]|Hgt]; try reflexivity; lra.
Qed.

Lemma fsqrt_Fin r : 0 <= r -> fsqrt (Fin r) = Fin (sqrt r).
Proof.
  intros Hr. unfold fsqrt, sgn.
  destruct (total_order_T r 0) as [[Hlt|Heq]|Hgt]; try reflexivity; lra.
Qed.

Lemma sorts_before_lt a b : a < b -> sorts_before (Fin a) (Fin b) = true.
Proof. intros H. cbn. destruct (Rlt_dec a b); [reflexivity|contradiction]. Qed.

Lemma sorts_before_ge a b : b <= a -> sorts_before (Fin a) (Fin b) = false.
Proof. intros H. cbn. destruct (Rlt_dec a b); [lra|reflexivity]. Qed.

(** Evaluation of the model on given numbers. *)
Ltac eval_sgn :=
  repeat match goal with
  | |- context [sgn ?r] =>
      first [ rewrite (sgn_zero r) by lra
            | rewrite (sgn_pos r) by lra
            | rewrite (sgn_neg r) by lra ]
  end.

Ltac eval_minmax :=
  repeat match goal with
  | |- context [Rmin ?a ?b] =>
      first [ rewrite (Rmin_left a b) by lra | rewrite (Rmin_right a b) by lra ]
  | |- context [Rmax ?a ?b] =>
      first [ rewrite (Rmax_left a b) by lra | rewrite (Rmax_right a b) by lra ]
  end.

Ltac eval_abs :=
  repeat match goal with
  | |- context [Rabs ?a] =>
      first [ rewrite (Rabs_right a) by lra | rewrite (Rabs_left a) by lra ]
  end.

Ltac eval_sorts :=
  repeat match goal with
  | |- context [sorts_before (Fin ?a) (Fin ?b)] =>
      first [ rewrite (sorts_before_lt a b) by lra
            | rewrite (sorts_before_ge a b) by lra ]
  end.

Ltac eval_f64 := repeat (progress (cbn; eval_minmax; eval_sgn)).

Ltac sqrt_arg v :=
  match goal with |- context [sqrt ?r] => replace r with v by lra end.

Ltac same_numbers :=
  repeat match goal with
         | |- Some _ = Some _ => apply f_equal
         | |- Ok _ = Ok _ => apply f_equal
         | |- (_ :: _) = (_ :: _) => apply f_equal2
         | |- (_, _) = (_, _) => apply f_equal2
         | |- Fin _ = Fin _ => apply f_equal
         end;
  try reflexivity; try lra.

(** ** Finite values are closed under the arithmetic *)

Lemma is_finite_inv x : is_finite x -> exists r, x = Fin r.
Proof. destruct x; cbn; try contradiction. eauto. Qed.

Lemma finite_add x y : is_finite x -> is_finite y -> is_finite (add x y).
Proof. destruct x, y; cbn; tauto. Qed.

Lemma finite_mul x y : is_finite x -> is_finite y -> is_finite (mul x y).
Proof. destruct x, y; cbn; tauto. Qed.

Lemma finite_opp x : is_finite x -> is_finite (opp x).
Proof. destruct x; cbn; tauto. Qed.

Lemma finite_sub x y : is_finite x -> is_finite y -> is_finite (sub x y).
Proof. intros. apply finite_add; [|apply finite_opp]; assumption. Qed.

Lemma finite_fold_add l x :
  is_finite x -> Forall is_finite l -> is_finite (fold_left add l x).
Proof.
  intros Hx Hl. revert x Hx.
  induction Hl as [|y l Hy _ IH]; intros x Hx; cbn; auto.
  apply IH. now apply finite_add.
Qed.

Lemma finite_fsum l : Forall is_finite l -> is_finite (fsum l).
Proof. intros. apply finite_fold_add; cbn; auto. Qed.

Lemma finite_div_count x n :
  is_finite x -> n <> 0%nat -> is_finite (div x (of_nat n)).
Proof.
  intros Hx Hn. destruct (is_finite_inv _ Hx) as [r ->]. unfold of_nat.
  rewrite div_Fin; [exact I|]. apply not_0_INR. exact Hn.
Qed.

(* ================================================================== *)
(** * Facts about lists of reals *)
(* ================================================================== *)

Lemma INR_pos_of_nonempty {X} (l : list X) : l <> [] -> 0 < INR (length l).
Proof.
  destruct l; [congruence|]. intros _. apply lt_0_INR. cbn. lia.
Qed.

Lemma nonempty_of_two {X} (l : list X) : (2 <= length l)%nat -> l <> [].
Proof. destruct l; cbn; [lia|discriminate]. Qed.

Lemma fold_Rmin_sym l a : fold_left Rmin l a = fold_right Rmin a l.
Proof.
  apply fold_symmetric; intros.
  - apply Rmin_assoc.
  - apply Rmin_comm.
Qed.

Lemma Rmin_list_nonneg l : Forall (fun x => 0 <= x) l -> 0 <= Rmin_list l.
Proof.
  destruct 1 as [|x l Hx Hl]; cbn; [lra|].
  induction Hl as [|y l Hy Hl IH]; cbn; [assumption|].
  apply Rmin_glb; assumption.
Qed.

Lemma Rmin_list_le l x : In x l -> Rmin_list l <= x.
Proof.
  destruct l as [|y l]; [intros []|].
  cbn [Rmin_list]. revert y. induction l as [|z l IH]; intros y Hin.
  - destruct Hin as [->|[]]. cbn. lra.
  - cbn [fold_right]. destruct Hin as [->|[->|Hin]].
    + etransitivity; [apply Rmin_r|]. apply (IH x). now left.
    + apply Rmin_l.
    + etransitivity; [apply Rmin_r|]. apply (IH y). now right.
Qed.

Lemma Rmin_list_in l : l <> [] -> In (Rmin_list l) l.
Proof.
  destruct l as [|x l]; [congruence|]. intros _. cbn [Rmin_list].
  revert x. induction l as [|y l IH]; intros x.
  - now left.
  - cbn [fold_right]. unfold Rmin at 1.
    destruct (Rle_dec y (fold_right Rmin x l)).
    + right. now left.
    + destruct (IH x) as [H|H]; [left|right; right]; assumption.
Qed.

Lemma Rmin_list_glb l m :
  l <> [] -> (forall x, In x l -> m <= x) -> m <= Rmin_list l.
Proof. intros Hl H. apply H. now apply Rmin_list_in. Qed.

(** Two lists, each bounded below by an element of the other, have the
    same minimum. *)
Lemma Rmin_list_same l1 l2 :
  l1 <> [] -> l2 <> [] ->
  (forall x, In x l1 -> exists y, In y l2 /\ y <= x) ->
  (forall y, In y l2 -> exists x, In x l1 /\ x <= y) ->
  Rmin_list l1 = Rmin_list l2.
Proof.
  intros H1 H2 H12 H21. apply Rle_antisym.
  - apply Rmin_list_glb; [assumption|]. intros y Hy.
    destruct (H21 y Hy) as (x & Hx & Hxy).
    etransitivity; [apply Rmin_list_le; exact Hx|exact Hxy].
  - apply Rmin_list_glb; [assumption|]. intros x Hx.
    destruct (H12 x Hx) as (y & Hy & Hyx).
    etransitivity; [apply Rmin_list_le; exact Hy|exact Hyx].
Qed.

Lemma Rsqr_Rmin x y : 0 <= x -> 0 <= y -> (Rmin x y)² = Rmin x² y².
Proof.
  intros Hx Hy. unfold Rmin.
  destruct (Rle_dec x y) as [Hxy|Hxy]; destruct (Rle_dec x² y²) as [Hs|Hs];
    try reflexivity.
  - exfalso. apply Hs. apply Rsqr_incr_1; assumption.
  - apply Rle_antisym; [|exact Hs].
    apply Rsqr_incr_1; lra.
Qed.

Lemma Rsqr_Rmin_list l :
  Forall (fun x => 0 <= x) l -> (Rmin_list l)² = Rmin_list (map Rsqr l).
Proof.
  destruct 1 as [|x l Hx Hl]; cbn [Rmin_list map].
  - apply Rsqr_0.
  - induction Hl as [|y l Hy Hl IH]; cbn [fold_right map]; [reflexivity|].
    rewrite Rsqr_Rmin, IH; [reflexivity|assumption|].
    clear IH. induction Hl; cbn [fold_right]; [assumption|].
    apply Rmin_glb; assumption.
Qed.

Lemma Rsum_nonneg l : Forall (fun x => 0 <= x) l -> 0 <= Rsum l.
Proof. unfold Rsum. induction 1; cbn [fold_right]; lra. Qed.

Lemma Rsum_zero {X} (g : X -> R) (l : list X) :
  (forall x, In x l -> g x = 0) -> Rsum (map g l) = 0.
Proof.
  unfold Rsum. induction l as [|x l IH]; intros H; [reflexivity|].
  cbn [map fold_right]. rewrite (H x) by now left.
  rewrite IH; [lra|]. intros y Hy. apply H. now right.
Qed.

Lemma Rsum_linear (k0 k1 k2 cx cy cz : R) (l : list rpoint) :
  Rsum (map (fun a => k0 * (rx a - cx) + k1 * (ry a - cy) + k2 * (rz a - cz)) l)
  = k0 * (Rsum (map rx l) - INR (length l) * cx)
    + k1 * (Rsum (map ry l) - INR (length l) * cy)
    + k2 * (Rsum (map rz l) - INR (length l) * cz).
Proof.
  unfold Rsum. induction l as [|a l IH].
  - cbn. ring.
  - cbn [map fold_right length]. rewrite IH, S_INR. ring.
Qed.

Lemma Rsum_centred (k0 k1 k2 : R) (l : list rpoint) :
  l <> [] ->
  Rsum (map (fun a => k0 * (rx a - rmean (map rx l))
                      + k1 * (ry a - rmean (map ry l))
                      + k2 * (rz a - rmean (map rz l))) l) = 0.
Proof.
  intros Hl. rewrite Rsum_linear. unfold rmean. rewrite !length_map.
  pose proof (INR_pos_of_nonempty l Hl) as Hn.
  field. lra.
Qed.

Lemma rmean_centred_zero (k0 k1 k2 : R) (A : list rpoint) :
  A <> [] ->
  rmean (map (fun a => k0 * (rx a - rmean (map rx A))
                       + k1 * (ry a - rmean (map ry A))
                       + k2 * (rz a - rmean (map rz A))) A) = 0.
Proof.
  intros HA. unfold rmean at 1. rewrite Rsum_centred by assumption.
  unfold Rdiv. apply Rmult_0_l.
Qed.

Lemma in_firstn_in {X} (n : nat) (l : list X) x : In x (firstn n l) -> In x l.
Proof.
  intros H. rewrite <- (firstn_skipn n l). apply in_or_app. now left.
Qed.

Lemma in_skipn_in {X} (n : nat) (l : list X) x : In x (skipn n l) -> In x l.
Proof.
  intros H. rewrite <- (firstn_skipn n l). apply in_or_app. now right.
Qed.

(* ================================================================== *)
(** * Facts about arrays of finite numbers *)
(* ================================================================== *)

Lemma fold_left_add_Fin l a :
  fold_left add (map Fin l) (Fin a) = Fin (fold_left Rplus l a).
Proof.
  revert a. induction l as [|x l IH]; intros a; [reflexivity|]. cbn. apply IH.
Qed.

Lemma fsum_Fin l : fsum (map Fin l) = Fin (Rsum l).
Proof.
  unfold fsum, Rsum. rewrite fold_left_add_Fin. f_equal.
  apply fold_symmetric; intros; ring.
Qed.

Lemma fold_left_fmin_Fin l a :
  fold_left fmin (map Fin l) (Fin a) = Fin (fold_left Rmin l a).
Proof.
  revert a. induction l as [|x l IH]; intros a; [reflexivity|]. cbn. apply IH.
Qed.

Lemma amin_Fin l : l <> [] -> amin (map Fin l) = Fin (Rmin_list l).
Proof.
  destruct l as [|x l]; [congruence|]. intros _.
  unfold amin, reduce. cbn [map]. rewrite fold_left_fmin_Fin. f_equal.
  apply fold_Rmin_sym.
Qed.

Lemma fold_left_fmax_Fin l x :
  exists M, fold_left fmax (map Fin l) (Fin x) = Fin M
            /\ x <= M /\ forall y, In y l -> y <= M.
Proof.
  revert x. induction l as [|y l IH]; intros x.
  - exists x. cbn. repeat split; [lra|tauto].
  - cbn [map fold_left fmax]. destruct (IH (Rmax x y)) as (M & HM & Hx & Hl).
    exists M. split; [exact HM|]. split.
    + etransitivity; [apply Rmax_l|exact Hx].
    + intros z [<-|Hz]; [|now apply Hl].
      etransitivity; [apply Rmax_r|exact Hx].
Qed.

Lemma amax_Fin l :
  l <> [] -> exists M, amax (map Fin l) = Fin M /\ forall y, In y l -> y <= M.
Proof.
  destruct l as [|x l]; [congruence|]. intros _.
  destruct (fold_left_fmax_Fin l x) as (M & HM & Hx & Hl).
  exists M. split; [exact HM|]. intros y [<-|Hy]; auto.
Qed.

Lemma mean_Fin l : l <> [] -> mean (map Fin l) = Fin (rmean l).
Proof.
  intros Hl. unfold mean, of_nat, rmean. rewrite fsum_Fin, length_map.
  apply div_Fin. apply Rgt_not_eq. now apply INR_pos_of_nonempty.
Qed.

Lemma mean_empty : mean [] = NaN.
Proof. unfold mean, fsum, of_nat. cbn. eval_sgn. reflexivity. Qed.

Lemma map2_combine {X Y} (h : float64 -> float64 -> float64)
      (f : X -> float64) (g : Y -> float64) (l1 : list X) (l2 : list Y) :
  map2 h (map f l1) (map g l2)
  = map (fun p => h (f (fst p)) (g (snd p))) (combine l1 l2).
Proof.
  revert l2. induction l1 as [|x l1 IH]; intros [|y l2]; cbn; try reflexivity.
  now rewrite IH.
Qed.

Lemma mat_add_combine {X1 X2 Y1 Y2} (e : X1 -> Y1 -> R) (s : X2 -> Y2 -> R)
      (I1 : list X1) (I2 : list X2) (J1 : list Y1) (J2 : list Y2) :
  mat_add (map (fun i => map (fun j => Fin (e i j)) J1) I1)
          (map (fun a => map (fun b => Fin (s a b)) J2) I2)
  = map (fun ia => map (fun jb => Fin (e (fst ia) (fst jb) + s (snd ia) (snd jb)))
                       (combine J1 J2))
        (combine I1 I2).
Proof.
  unfold mat_add. revert I2. induction I1 as [|i I1 IH]; intros [|a I2];
    cbn [map mat_map2 combine]; try reflexivity.
  rewrite IH. f_equal. rewrite map2_combine. reflexivity.
Qed.

(** The minima of the rows and of the columns of an array given entry by
    entry. *)
Lemma min_axis1_entries {X Y} (g : X -> Y -> R) (I : list X) (J : list Y) :
  J <> [] ->
  min_axis1 (map (fun x => map (fun y => Fin (g x y)) J) I)
  = map Fin (map (fun x => Rmin_list (map (g x) J)) I).
Proof.
  intros HJ. unfold min_axis1. rewrite !map_map.
  apply map_ext. intros x. rewrite <- (map_map (g x) Fin).
  apply amin_Fin. destruct J; [congruence|discriminate].
Qed.

Lemma fold_map2_fmin {X Y} (g : X -> Y -> R) (h : Y -> R)
      (I : list X) (J : list Y) :
  fold_left (map2 fmin) (map (fun x => map (fun y => Fin (g x y)) J) I)
            (map (fun y => Fin (h y)) J)
  = map (fun y => Fin (fold_left Rmin (map (fun x => g x y) I) (h y))) J.
Proof.
  revert h. induction I as [|x I IH]; intros h; [reflexivity|].
  cbn [map fold_left].
  assert (E : map2 fmin (map (fun y => Fin (h y)) J) (map (fun y => Fin (g x y)) J)
              = map (fun y => Fin (Rmin (h y) (g x y))) J).
  { clear. induction J as [|y J IHJ]; [reflexivity|]. cbn. now rewrite IHJ. }
  rewrite E. apply (IH (fun y => Rmin (h y) (g x y))).
Qed.

Lemma min_axis0_entries {X Y} (g : X -> Y -> R) (I : list X) (J : list Y) :
  I <> [] ->
  min_axis0 (map (fun x => map (fun y => Fin (g x y)) J) I)
  = map Fin (map (fun y => Rmin_list (map (fun x => g x y) I)) J).
Proof.
  destruct I as [|x I]; [congruence|]. intros _.
  unfold min_axis0. cbn [map].
  rewrite (fold_map2_fmin g (fun y => g x y)). rewrite map_map.
  apply map_ext. intros y. cbn [Rmin_list]. f_equal. apply fold_Rmin_sym.
Qed.

(** An array whose rows are the images of one list: its transpose and its
    products. *)
Lemma transpose_rows {X} (fs : list (X -> float64)) (l : list X) :
  fs <> [] ->
  transpose (map (fun f => map f l) fs) = map (fun a => map (fun f => f a) fs) l.
Proof.
  intros Hfs. unfold transpose.
  assert (Hlen : length (hd [] (map (fun f => map f l) fs)) = length l).
  { destruct fs; [congruence|]. cbn. apply length_map. }
  rewrite Hlen. clear Hlen Hfs.
  rewrite (map_ext _ (fun j => map (fun f => nth j (map f l) NaN) fs))
    by (intros j; apply map_map).
  induction l as [|a l IH]; [reflexivity|].
  cbn [length seq map]. f_equal.
  rewrite <- seq_shift, map_map. rewrite <- IH.
  apply map_ext. intros j. apply map_ext. intros f. reflexivity.
Qed.

Lemma dot_rows {X} (M : matrix) (fs : list (X -> float64)) (l : list X) :
  fs <> [] ->
  dot M (map (fun f => map f l) fs)
  = map (fun g => map g l)
        (map (fun r a => fsum (map2 mul r (map (fun f => f a) fs))) M).
Proof.
  intros Hfs. unfold dot. rewrite transpose_rows by assumption.
  rewrite !map_map. apply map_ext. intros r. rewrite map_map. reflexivity.
Qed.

Lemma repeat_as_map {X} (c : float64) (l : list X) :
  repeat c (length l) = map (fun _ => c) l.
Proof. induction l; cbn; congruence. Qed.

Lemma scaled_eye M n :
  mat_scale (Fin M) (eye n)
  = map (fun i => map (fun j => Fin (M * (if Nat.eqb i j then 1 else 0))) (seq 0 n))
        (seq 0 n).
Proof.
  unfold mat_scale, mat_map, eye. rewrite map_map. apply map_ext. intros i.
  rewrite map_map. apply map_ext. intros j. destruct (Nat.eqb i j); reflexivity.
Qed.

(** The entries of a list paired with their indices, around one index. *)
Lemma combine_seq_off_index {X Z} (h : bool -> X -> Z) (A : list X) (s j : nat) :
  (j < s)%nat ->
  map (fun ia => h (Nat.eqb (fst ia) j) (snd ia)) (combine (seq s (length A)) A)
  = map (h false) A.
Proof.
  revert s. induction A as [|a A IH]; intros s Hj; [reflexivity|].
  cbn [length seq combine map fst snd].
  replace (Nat.eqb s j) with false by (symmetry; apply Nat.eqb_neq; lia).
  f_equal. apply IH. lia.
Qed.

Lemma combine_seq_split {X Z} (h : bool -> X -> Z) (A : list X) (s j : nat) (b : X) :
  nth_error A j = Some b ->
  map (fun ia => h (Nat.eqb (fst ia) (s + j)) (snd ia)) (combine (seq s (length A)) A)
  = map (h false) (firstn j A) ++ h true b :: map (h false) (skipn (S j) A).
Proof.
  revert s j. induction A as [|a A IH]; intros s j Hj.
  - destruct j; discriminate.
  - cbn [length seq combine map fst snd]. destruct j as [|j].
    + injection Hj as ->. rewrite Nat.add_0_r, Nat.eqb_refl.
      cbn [firstn skipn map app]. f_equal.
      apply combine_seq_off_index. lia.
    + cbn [nth_error] in Hj.
      replace (Nat.eqb s (s + S j)) with false by (symmetry; apply Nat.eqb_neq; lia).
      cbn [firstn skipn map app]. f_equal.
      replace (s + S j)%nat with (S s + j)%nat by lia.
      apply IH. exact Hj.
Qed.

Lemma combine_seq_nth_error {X} (A : list X) s j b :
  In (j, b) (combine (seq s (length A)) A) ->
  exists k, j = (s + k)%nat /\ nth_error A k = Some b.
Proof.
  revert s. induction A as [|a A IH]; intros s; [intros []|].
  cbn [length seq combine]. intros [E|Hin].
  - injection E as <- <-. exists 0%nat. split; [lia|reflexivity].
  - destruct (IH (S s) Hin) as (k & -> & Hk). exists (S k). split; [lia|exact Hk].
Qed.

Lemma indexed_nth_error (A : list rpoint) j b :
  In (j, b) (indexed A) -> nth_error A j = Some b.
Proof.
  intros Hin. destruct (combine_seq_nth_error A 0 j b Hin) as (k & -> & Hk).
  exact Hk.
Qed.

Lemma length_indexed A : length (indexed A) = length A.
Proof. unfold indexed. rewrite length_combine, length_seq. lia. Qed.

(* ================================================================== *)
(** * Squared distances *)
(* ================================================================== *)

Lemma sqd_nonneg a b : 0 <= sqd a b.
Proof.
  unfold sqd.
  pose proof (Rle_0_sqr (rx a - rx b)) as H1.
  pose proof (Rle_0_sqr (ry a - ry b)) as H2.
  pose proof (Rle_0_sqr (rz a - rz b)) as H3.
  lra.
Qed.

Lemma sqd_sym a b : sqd a b = sqd b a.
Proof. unfold sqd, Rsqr. ring. Qed.

Lemma sqd_self a : sqd a a = 0.
Proof. unfold sqd, Rsqr. ring. Qed.

Lemma euclid_sq a b : (euclid a b)² = sqd a b.
Proof.
  unfold euclid. rewrite Rsqr_sqrt.
  - reflexivity.
  - apply sqd_nonneg.
Qed.

Lemma euclid_nonneg a b : 0 <= euclid a b.
Proof. apply sqrt_pos. Qed.

Lemma euclid_on_axis x x' : euclid (x, 0, 0) (x', 0, 0) = Rabs (x - x').
Proof.
  unfold euclid. cbn [rx ry rz fst snd].
  replace ((x - x')² + (0 - 0)² + (0 - 0)²) with ((x - x')²) by (unfold Rsqr; ring).
  apply sqrt_Rsqr_abs.
Qed.

Lemma column_array_of (sel : point float64 -> float64) (A : list rpoint) :
  A <> [] -> column sel (array_of A) = Ok (map sel (map inj A)).
Proof. destruct A; [congruence|reflexivity]. Qed.

Lemma d2_row a B :
  map2 add (map2 add (map sq (map (fun b => sub (px (inj a)) b) (map px (map inj B))))
                     (map sq (map (fun b => sub (py (inj a)) b) (map py (map inj B)))))
           (map sq (map (fun b => sub (pz (inj a)) b) (map pz (map inj B))))
  = map (fun b => Fin (sqd a b)) B.
Proof.
  induction B as [|b B IH]; [reflexivity|].
  cbn [map map2]. rewrite IH. f_equal.
  all: cbn [sub opp add sq mul px py pz inj fst snd]; apply f_equal;
    unfold sqd, Rsqr; ring.
Qed.

Lemma d2_of_inj A B : d2_of (map inj A) (map inj B) = sqd_matrix A B.
Proof.
  unfold d2_of, sqd_matrix, mat_add, mat_sq, mat_map, delta_expand.
  induction A as [|a A IH]; [reflexivity|].
  cbn [map mat_map2]. rewrite IH. f_equal. apply d2_row.
Qed.

Lemma sum_min_sq_sqd A B :
  sum_min_sq A B = Rsum (map (fun a => Rmin_list (map (sqd a) B)) A).
Proof.
  unfold sum_min_sq. f_equal. apply map_ext. intros a. f_equal.
  apply map_ext. intros b. apply euclid_sq.
Qed.

(** The sum over [b] of the minimum over [a] of [d(a,b)^2] is the sum of
    the same form with the roles exchanged. *)
Lemma sum_min_sq_flip A B :
  Rsum (map (fun a => Rmin_list (map (fun b => (euclid b a)²) B)) A)
  = sum_min_sq A B.
Proof.
  unfold sum_min_sq. f_equal. apply map_ext. intros a. f_equal.
  apply map_ext. intros b. now rewrite !euclid_sq, sqd_sym.
Qed.

Lemma sum_min_sq_nonneg A B : 0 <= sum_min_sq A B.
Proof.
  rewrite sum_min_sq_sqd. apply Rsum_nonneg. rewrite Forall_map. apply Forall_forall.
  intros a _. apply Rmin_list_nonneg. rewrite Forall_map. apply Forall_forall.
  intros b _. apply sqd_nonneg.
Qed.

Lemma sum_min_sq_self A : sum_min_sq A A = 0.
Proof.
  rewrite sum_min_sq_sqd. apply Rsum_zero.
  intros a Ha. apply Rle_antisym.
  - apply Rmin_list_le. rewrite <- (sqd_self a). now apply in_map.
  - apply Rmin_list_nonneg. rewrite Forall_map. apply Forall_forall.
    intros b _. apply sqd_nonneg.
Qed.

Lemma mat_max_sqd A :
  A <> [] ->
  exists M, mat_max (sqd_matrix A A) = Fin M
            /\ forall a b, In a A -> In b A -> sqd a b <= M.
Proof.
  intros HA. unfold mat_max, sqd_matrix.
  assert (E : concat (map (fun a => map (fun b => Fin (sqd a b)) A) A)
              = map Fin (concat (map (fun a => map (sqd a) A) A))).
  { rewrite concat_map, map_map. f_equal. apply map_ext. intros a.
    now rewrite map_map. }
  rewrite E.
  destruct (amax_Fin (concat (map (fun a => map (sqd a) A) A))) as (M & HM & Hle).
  { destruct A as [|a A]; [congruence|]. discriminate. }
  exists M. split; [exact HM|]. intros a b Ha Hb. apply Hle.
  apply in_concat. exists (map (sqd a) A). split.
  - apply in_map_iff. now exists a.
  - now apply in_map.
Qed.

(* ================================================================== *)
(** * The discrepancy *)
(* ================================================================== *)

Section DiscrepancyFacts.

Variable _distance : option distance_module.

(** After its first access the fineness is fixed, and the atoms are
    untouched. *)
Lemma fineness_cached m f m' :
  fineness _distance m = Ok (f, m') ->
  fineness _distance m' = Ok (f, m') /\ atoms m' = atoms m.
Proof.
  unfold fineness. destruct (_fineness m) as [f0|] eqn:E.
  - intros [= <- <-]. rewrite E. auto.
  - destruct (_calc_fineness _distance m true) as [f0|e]; cbn; [|discriminate].
    intros [= <- <-]. cbn. auto.
Qed.

Lemma fineness_value_inv m f :
  fineness_value _distance m = Ok f ->
  exists m', fineness _distance m = Ok (f, m').
Proof.
  unfold fineness_value.
  destruct (fineness _distance m) as [[f0 m']|e]; cbn; [|discriminate].
  intros [= <-]. eauto.
Qed.

(** The four accesses of [dist] to the two fineness properties. *)
Lemma fineness_reads o fa fb :
  fineness_value _distance (self_of o) = Ok fa ->
  fineness_value _distance (other_of o) = Ok fb ->
  exists o1 o2,
    other_fineness _distance o = Ok (fb, o1)
    /\ other_fineness _distance o1 = Ok (fb, o1)
    /\ self_fineness _distance o1 = Ok (fa, o2)
    /\ self_fineness _distance o2 = Ok (fa, o2).
Proof.
  intros Hs Ho.
  destruct o as [m|s t]; cbn [self_of other_of] in *.
  - assert (fa = fb) by congruence. subst fb.
    destruct (fineness_value_inv _ _ Hs) as [m' Hm].
    destruct (fineness_cached _ _ _ Hm) as [Hm' _].
    exists (Same m'), (Same m'). cbn. rewrite Hm, Hm'. cbn. auto.
  - destruct (fineness_value_inv _ _ Hs) as [s' Hs1].
    destruct (fineness_value_inv _ _ Ho) as [t' Ht1].
    destruct (fineness_cached _ _ _ Hs1) as [Hs2 _].
    destruct (fineness_cached _ _ _ Ht1) as [Ht2 _].
    exists (Distinct s t'), (Distinct s' t'). cbn.
    rewrite Ht1, Ht2, Hs1, Hs2. cbn. auto.
Qed.

(** The pure-Python path of [dist] on two arrays of real points, in terms
    of the two fineness values it reads. *)
Lemma dist_python_path o use_cython A B fa fb :
  _distance = None \/ use_cython = false ->
  atoms (self_of o) = array_of A ->
  atoms (other_of o) = array_of B ->
  A <> [] -> B <> [] ->
  fineness_value _distance (self_of o) = Ok fa ->
  fineness_value _distance (other_of o) = Ok fb ->
  dist_value _distance o use_cython = Ok (dist_expr A B fa fb).
Proof.
  intros Hpath HA HB HAne HBne Hfa Hfb.
  destruct (fineness_reads _ _ _ Hfa Hfb) as (o1 & o2 & R1 & R2 & R3 & R4).
  unfold dist_value, dist.
  replace (match _distance with Some d => _ | None => _ end)
    with (Ok (dist_expr A B fa fb, o2) : result (float64 * operands));
    [reflexivity|].
  symmetry.
  assert (Hbody :
    (let mol1 := atoms (self_of o) in
      let mol2 := atoms (other_of o) in
      mol1x <- column px mol1 ;;
      mol1y <- column py mol1 ;;
      mol1z <- column pz mol1 ;;
      mol2x <- column px mol2 ;;
      mol2y <- column py mol2 ;;
      mol2z <- column pz mol2 ;;
      let d2 := mat_add (mat_add (mat_sq (delta_expand mol1x mol2x))
                                 (mat_sq (delta_expand mol1y mol2y)))
                        (mat_sq (delta_expand mol1z mol2z)) in
      n1 <- shape0 mol1 ;;
      fo1 <- other_fineness _distance o ;;
      fo2 <- other_fineness _distance (snd fo1) ;;
      let c1 := div (Fin 1) (mul (mul (of_nat n1) (fst fo1)) (fst fo2)) in
      let t1 := mul c1 (fsum (min_axis1 d2)) in
      n2 <- shape0 mol2 ;;
      fs1 <- self_fineness _distance (snd fo2) ;;
      fs2 <- self_fineness _distance (snd fs1) ;;
      let c2 := div (Fin 1) (mul (mul (of_nat n2) (fst fs1)) (fst fs2)) in
      let t2 := mul c2 (fsum (min_axis0 d2)) in
      Ok (pow_half (mul (Fin 0.5) (add t1 t2)), snd fs2))
    = Ok (dist_expr A B fa fb, o2)).
  { cbv zeta. rewrite HA, HB.
    rewrite !column_array_of by assumption. cbn [bind].
    change (mat_add _ _) with (d2_of (map inj A) (map inj B)).
    rewrite d2_of_inj.
    unfold array_of, shape0. cbn [bind].
    rewrite R1. cbn [bind fst snd]. rewrite R2. cbn [bind fst snd].
    rewrite R3. cbn [bind fst snd]. rewrite R4. cbn [bind fst snd].
    rewrite !length_map. unfold sqd_matrix.
    rewrite min_axis1_entries, min_axis0_entries by assumption.
    rewrite !fsum_Fin. rewrite <- sum_min_sq_sqd.
    replace (Rsum (map (fun b => Rmin_list (map (fun a => sqd a b) A)) B))
      with (sum_min_sq B A).
    - reflexivity.
    - rewrite sum_min_sq_sqd. f_equal. apply map_ext. intros b. f_equal.
      apply map_ext. intros a. apply sqd_sym. }
  destruct _distance as [d|], use_cython; try exact Hbody.
  destruct Hpath; discriminate.
Qed.

End DiscrepancyFacts.

(** With finite, nonzero fineness values the last expression of [dist] is
    the stated formula. *)
Lemma dist_expr_finite A B fA fB :
  A <> [] -> B <> [] -> fA <> 0 -> fB <> 0 ->
  dist_expr A B (Fin fA) (Fin fB) = Fin (nsd A B fA fB).
Proof.
  intros HA HB HfA HfB.
  pose proof (INR_pos_of_nonempty A HA) as HnA.
  pose proof (INR_pos_of_nonempty B HB) as HnB.
  pose proof (sum_min_sq_nonneg A B) as Hs1.
  pose proof (sum_min_sq_nonneg B A) as Hs2.
  assert (HqA : 0 < fA²) by (apply Rlt_0_sqr; assumption).
  assert (HqB : 0 < fB²) by (apply Rlt_0_sqr; assumption).
  assert (HdB : 0 < INR (length A) * fB²) by (apply Rmult_lt_0_compat; assumption).
  assert (HdA : 0 < INR (length B) * fA²) by (apply Rmult_lt_0_compat; assumption).
  assert (Hc1 : 0 <= 1 / (INR (length A) * fB²)).
  { apply Rlt_le. apply Rdiv_lt_0_compat; lra. }
  assert (Hc2 : 0 <= 1 / (INR (length B) * fA²)).
  { apply Rlt_le. apply Rdiv_lt_0_compat; lra. }
  assert (Hnonneg : 0 <= 0.5 * ((1 / (INR (length A) * fB²)) * sum_min_sq A B
               + (1 / (INR (length B) * fA²)) * sum_min_sq B A)).
  { apply Rmult_le_pos; [lra|].
    apply Rplus_le_le_0_compat; apply Rmult_le_pos; assumption. }
  unfold nsd. fold (sum_min_sq A B). rewrite (sum_min_sq_flip B A).
  unfold dist_expr, of_nat. cbn [mul].
  replace (INR (length A) * fB * fB) with (INR (length A) * fB²)
    by (unfold Rsqr; ring).
  replace (INR (length B) * fA * fA) with (INR (length B) * fA²)
    by (unfold Rsqr; ring).
  rewrite !div_Fin by lra. cbn [mul add].
  rewrite pow_half_Fin by exact Hnonneg. reflexivity.
Qed.

Lemma nsd_sum A B fA fB :
  nsd A B fA fB
  = sqrt (0.5 * ((1 / (INR (length A) * fB²)) * sum_min_sq A B
                 + (1 / (INR (length B) * fA²)) * sum_min_sq B A)).
Proof. unfold nsd. fold (sum_min_sq A B). now rewrite (sum_min_sq_flip B A). Qed.

Lemma nsd_sym A B fA fB : nsd A B fA fB = nsd B A fB fA.
Proof. rewrite !nsd_sum. f_equal. f_equal. apply Rplus_comm. Qed.

Lemma self_of_swap o : self_of (swap o) = other_of o.
Proof. destruct o; reflexivity. Qed.

Lemma other_of_swap o : other_of (swap o) = self_of o.
Proof. destruct o; reflexivity. Qed.

Section DiscrepancyTheorems.

Variable _distance : option distance_module.

Lemma dist_finite_value o use_cython A B fA fB :
  _distance = None \/ use_cython = false ->
  atoms (self_of o) = array_of A ->
  atoms (other_of o) = array_of B ->
  (2 <= length A)%nat -> (2 <= length B)%nat ->
  fineness_value _distance (self_of o) = Ok (Fin fA) ->
  fineness_value _distance (other_of o) = Ok (Fin fB) ->
  fA <> 0 -> fB <> 0 ->
  dist_value _distance o use_cython = Ok (Fin (nsd A B fA fB)).
Proof.
  intros Hpath HA HB H2A H2B HfA HfB HA0 HB0.
  rewrite (dist_python_path _distance o use_cython A B (Fin fA) (Fin fB))
    by auto using nonempty_of_two.
  f_equal. apply dist_expr_finite; auto using nonempty_of_two.
Qed.



(** C4, amended: for a model with two atoms or more and a model holding
    the same atoms (the same object or another one), both of a fineness of
    at least 1e-150, [dist] returns exactly 0.  The bound keeps the divisor
    [n*f*f] away from the underflow, and the factor [1./(n*f*f)] finite: a
    smaller fineness, not only the fineness 0, gives an infinite factor
    and the result NaN. *)
Theorem dist_self_zero o use_cython A fA fB :
  _distance = None \/ use_cython = false ->
  atoms (self_of o) = array_of A ->
  atoms (other_of o) = array_of A ->
  (2 <= length A)%nat ->
  fineness_value _distance (self_of o) = Ok (Fin fA) ->
  fineness_value _distance (other_of o) = Ok (Fin fB) ->
  1e-150 <= fA -> 1e-150 <= fB ->
  dist_value _distance o use_cython = Ok (Fin 0).
Proof.
  intros Hpath HA HB H2A HfA HfB HA0 HB0.
  rewrite (dist_finite_value o use_cython A A fA fB) by (assumption || lra).
  do 2 f_equal. rewrite nsd_sum, sum_min_sq_self.
  rewrite !Rmult_0_r, Rplus_0_r, Rmult_0_r. apply sqrt_0.
Qed.

End DiscrepancyTheorems.

(** ** The discrepancy on given models *)

Lemma fineness_pair_x : fineness_value None (model_of pair_x) = Ok (Fin 1).
Proof.
  unfold fineness_value, fineness. eval_f64.
  sqrt_arg 1. rewrite sqrt_1. reflexivity.
Qed.

Lemma fineness_pair_y : fineness_value None (model_of pair_y) = Ok (Fin 1).
Proof.
  unfold fineness_value, fineness. eval_f64.
  sqrt_arg 1. rewrite sqrt_1. reflexivity.
Qed.

Lemma fineness_coincident :
  fineness_value None (model_of coincident) = Ok (Fin 0).
Proof.
  unfold fineness_value, fineness. eval_f64.
  sqrt_arg 0. rewrite sqrt_0. reflexivity.
Qed.



Lemma dist_self_zero_witness :
  dist_value None (Same (model_of pair_x)) false = Ok (Fin 0).
Proof.
  apply (dist_self_zero None (Same (model_of pair_x)) false pair_x 1 1).
  - right. reflexivity.
  - reflexivity.
  - reflexivity.
  - simpl. lia.
  - exact fineness_pair_x.
  - exact fineness_pair_x.
  - lra.
  - lra.
Defined.

(** C4, as stated, fails: two atoms at one place have fineness 0, the
    factor [1/(n*f*f)] is infinite, its product with the zero sum is NaN,
    and [dist] returns NaN, not 0; both for another object holding the same
    atoms and for the object itself. *)
Lemma dist_coincident_is_nan :
  dist_value None (Distinct (model_of coincident) (model_of coincident)) false
  = Ok NaN
  /\ dist_value None (Same (model_of coincident)) false = Ok NaN
  /\ dist_value None (Same (model_of coincident)) false <> Ok (Fin 0).
Proof.
  assert (H : dist_expr coincident coincident (Fin 0) (Fin 0) = NaN).
  { unfold dist_expr. rewrite sum_min_sq_self. eval_f64. reflexivity. }
  assert (Hs : dist_value None (Same (model_of coincident)) false = Ok NaN).
  { rewrite (dist_python_path None _ false coincident coincident (Fin 0) (Fin 0));
      try reflexivity; try discriminate; auto using fineness_coincident.
    now rewrite H. }
  split; [|split].
  - rewrite (dist_python_path None _ false coincident coincident (Fin 0) (Fin 0));
      try reflexivity; try discriminate; auto using fineness_coincident.
    now rewrite H.
  - exact Hs.
  - rewrite Hs. discriminate.
Qed.

(* ================================================================== *)
(** * The fineness *)
(* ================================================================== *)

Lemma in_others_in i A a : In a (others i A) -> In a A.
Proof.
  unfold others. intros H. apply in_app_or in H as [H|H];
    eauto using in_firstn_in, in_skipn_in.
Qed.

Lemma others_nonempty i A : (2 <= length A)%nat -> others i A <> [].
Proof.
  intros H2 E. apply (f_equal (@length _)) in E. unfold others in E.
  rewrite length_app, length_firstn, length_skipn in E. cbn in E. lia.
Qed.

(** The minimum of a column of the masked array ([D.max()] added on the
    diagonal) is the squared distance to the nearest other atom. *)
Lemma column_min_is_nearest A M j b :
  (2 <= length A)%nat ->
  nth_error A j = Some b ->
  (forall a c, In a A -> In c A -> sqd a c <= M) ->
  Rmin_list (map (fun ia => M * (if Nat.eqb (fst ia) j then 1 else 0) + sqd (snd ia) b)
                 (indexed A))
  = (nearest_other A j b)².
Proof.
  intros H2 Hj HM.
  pose proof (nth_error_In _ _ Hj) as Hb.
  unfold nearest_other. rewrite Rsqr_Rmin_list.
  2:{ rewrite Forall_map. apply Forall_forall. intros a _. apply euclid_nonneg. }
  rewrite map_map.
  unfold indexed.
  pose proof (combine_seq_split
                (fun (c : bool) a => M * (if c then 1 else 0) + sqd a b) A 0 j b Hj)
    as Hsplit.
  cbn [Nat.add] in Hsplit. rewrite Hsplit. clear Hsplit.
  pose proof (others_nonempty j A H2) as Hne.
  apply Rmin_list_same.
  - destruct (firstn j A); discriminate.
  - destruct (others j A); [congruence|discriminate].
  - intros x Hx. apply in_app_or in Hx as [Hx|[<-|Hx]].
    + apply in_map_iff in Hx as (a & <- & Ha).
      exists ((euclid b a)²). split.
      * apply in_map_iff. exists a. split; [reflexivity|].
        unfold others. apply in_or_app. now left.
      * rewrite euclid_sq, (sqd_sym b a). lra.
    + destruct (others j A) as [|a l] eqn:E; [congruence|].
      exists ((euclid b a)²). split; [now left|].
      assert (Ha : In a A) by (apply (in_others_in j); rewrite E; now left).
      rewrite euclid_sq, sqd_self.
      pose proof (HM b a Hb Ha). lra.
    + apply in_map_iff in Hx as (a & <- & Ha).
      exists ((euclid b a)²). split.
      * apply in_map_iff. exists a. split; [reflexivity|].
        unfold others. apply in_or_app. now right.
      * rewrite euclid_sq, (sqd_sym b a). lra.
  - intros y Hy. apply in_map_iff in Hy as (a & <- & Ha).
    exists (M * 0 + sqd a b). split.
    + unfold others in Ha. apply in_app_or in Ha as [Ha|Ha].
      * apply in_or_app. left. apply in_map_iff. now exists a.
      * apply in_or_app. right. right. apply in_map_iff. now exists a.
    + rewrite euclid_sq, (sqd_sym b a). lra.
Qed.

(** What the pure-Python path of [_calc_fineness] returns for two atoms or
    more: the root of the mean of the squared distances to the nearest
    other atom. *)
Lemma calc_fineness_python_rms m A :
  atoms m = array_of A -> (2 <= length A)%nat ->
  _calc_fineness None m false = Ok (Fin (rms_nearest A)).
Proof.
  intros Hm H2. pose proof (nonempty_of_two A H2) as HA.
  unfold _calc_fineness. rewrite Hm.
  rewrite !column_array_of by assumption. cbn [bind].
  change (mat_add (mat_add _ _) _) with (d2_of (map inj A) (map inj A)).
  rewrite d2_of_inj.
  destruct (mat_max_sqd A HA) as (M & -> & HM).
  rewrite !length_map, scaled_eye.
  unfold sqd_matrix. rewrite mat_add_combine.
  fold (indexed A).
  rewrite min_axis0_entries.
  2:{ intros E. apply (f_equal (@length _)) in E. rewrite length_indexed in E.
      cbn in E. lia. }
  rewrite mean_Fin.
  2:{ intros E. apply (f_equal (@length _)) in E.
      rewrite length_map, length_indexed in E. cbn in E. lia. }
  unfold rmean. rewrite length_map, length_indexed.
  rewrite (map_ext_in _ (fun jb => (nearest_other A (fst jb) (snd jb))²)).
  2:{ intros [j b] Hin. cbn [fst snd].
      apply column_min_is_nearest; auto using indexed_nth_error. }
  rewrite fsqrt_Fin; [reflexivity|].
  apply Rmult_le_pos.
  - apply Rsum_nonneg. rewrite Forall_map. apply Forall_forall.
    intros jb _. apply Rle_0_sqr.
  - apply Rlt_le, Rinv_0_lt_compat. now apply INR_pos_of_nonempty.
Qed.

Lemma calc_fineness_line3 :
  _calc_fineness None (model_of line3) false = Ok (Fin (sqrt 2)).
Proof.
  unfold _calc_fineness. eval_f64. sqrt_arg 2. reflexivity.
Qed.

Lemma mean_nearest_line3 : mean_nearest line3 = 4 / 3.
Proof.
  unfold mean_nearest, nearest_other, indexed, others, line3.
  cbn [length seq combine map fst snd firstn skipn app Rmin_list fold_right Rsum].
  rewrite !euclid_on_axis. eval_abs. eval_minmax. cbn [INR]. lra.
Qed.

Lemma rms_nearest_line3 : rms_nearest line3 = sqrt 2.
Proof.
  assert (H : Ok (Fin (rms_nearest line3)) = Ok (Fin (sqrt 2))).
  { rewrite <- calc_fineness_line3.
    symmetry. apply calc_fineness_python_rms; [reflexivity|simpl; lia]. }
  now injection H.
Qed.

Lemma sqrt2_neq_four_thirds : sqrt 2 <> 4 / 3.
Proof.
  intros H. assert (Hsq : sqrt 2 * sqrt 2 = 2) by (apply sqrt_sqrt; lra).
  rewrite H in Hsq. lra.
Qed.

(** C2: on three atoms in line at 0, 1 and 3 the distances to the nearest
    other atom are 1, 1 and 2, of mean 4/3; [_calc_fineness] returns
    [sqrt((1 + 1 + 4)/3) = sqrt 2], the root of the mean of their squares. *)
Theorem calc_fineness_is_not_the_mean :
  _calc_fineness None (model_of line3) false = Ok (Fin (sqrt 2))
  /\ mean_nearest line3 = 4 / 3
  /\ rms_nearest line3 = sqrt 2
  /\ sqrt 2 <> 4 / 3.
Proof.
  repeat split.
  - exact calc_fineness_line3.
  - exact mean_nearest_line3.
  - exact rms_nearest_line3.
  - exact sqrt2_neq_four_thirds.
Qed.

Lemma calc_fineness_single (d : option distance_module) (use_cython : bool) m a :
  d = None \/ use_cython = false ->
  atoms m = array_of [a] ->
  _calc_fineness d m use_cython = Ok (Fin 0).
Proof.
  intros Hpath Hm.
  assert (Hbody : _calc_fineness None m false = Ok (Fin 0)).
  { unfold _calc_fineness. rewrite Hm. cbn.
    set (s := (rx a + - rx a) * (rx a + - rx a) + (ry a + - ry a) * (ry a + - ry a)
              + (rz a + - rz a) * (rz a + - rz a)).
    assert (Hs : s = 0) by (unfold s; ring).
    rewrite Hs. eval_f64. sqrt_arg 0. rewrite sqrt_0. reflexivity. }
  destruct Hpath as [-> | ->].
  - destruct use_cython; exact Hbody.
  - destruct d; exact Hbody.
Qed.

(** C7, amended: on a model with exactly one atom the pure-Python fineness
    raises nothing: [_calc_fineness] returns 0, and the property
    [fineness], when nothing is cached, stores and returns 0. *)
Theorem fineness_single_atom m a use_cython :
  atoms m = array_of [a] ->
  _calc_fineness None m use_cython = Ok (Fin 0)
  /\ (_fineness m = None ->
      fineness None m = Ok (Fin 0, set_fineness m (Fin 0))).
Proof.
  intros Hm. split.
  - apply (calc_fineness_single None use_cython m a); auto.
  - intros Hc. unfold fineness. rewrite Hc.
    rewrite (calc_fineness_single None true m a); auto.
Qed.

Lemma fineness_single_atom_witness :
  _calc_fineness None (model_of [(1, 2, 3)]) false = Ok (Fin 0)
  /\ (_fineness (model_of [(1, 2, 3)]) = None ->
      fineness None (model_of [(1, 2, 3)])
      = Ok (Fin 0, set_fineness (model_of [(1, 2, 3)]) (Fin 0))).
Proof.
  apply (fineness_single_atom (model_of [(1, 2, 3)]) (1, 2, 3) false).
  reflexivity.
Defined.

(** C7, as stated, fails: the fineness of a model with the single atom
    (1,2,3) is computed without any exception, and is 0. *)
Lemma fineness_single_atom_returns :
  fineness None (model_of [(1, 2, 3)])
  = Ok (Fin 0, set_fineness (model_of [(1, 2, 3)]) (Fin 0))
  /\ ~ raises (fineness None (model_of [(1, 2, 3)])).
Proof.
  assert (H : fineness None (model_of [(1, 2, 3)])
              = Ok (Fin 0, set_fineness (model_of [(1, 2, 3)]) (Fin 0))).
  { unfold fineness. cbn [_fineness model_of set_atoms init].
    rewrite (calc_fineness_single None true _ (1, 2, 3)); auto. }
  split; [exact H|]. rewrite H. cbn. tauto.
Qed.

(* ================================================================== *)
(** * Centre of mass and canonical position *)
(* ================================================================== *)

(** C6, amended: on a model whose atoms array is empty, as [read] leaves
    it for a file without ATOM record, [centroid] raises nothing and stores
    NaN as centre of mass. *)
Theorem centroid_empty_array m :
  atoms m = NdArray [] -> centroid m = Ok (set_com m (ComScalar NaN)).
Proof. intros Hm. unfold centroid. rewrite Hm, mean_empty. reflexivity. Qed.

Lemma centroid_empty_array_witness :
  centroid (set_atoms (init (Fin 1)) (NdArray []))
  = Ok (set_com (set_atoms (init (Fin 1)) (NdArray [])) (ComScalar NaN)).
Proof.
  apply (centroid_empty_array (set_atoms (init (Fin 1)) (NdArray []))).
  reflexivity.
Defined.

(** On a model just built, whose atoms are still a Python list, the call
    fails on the missing method. *)
Lemma centroid_fresh_model : centroid (init (Fin 1)) = Raise AttributeError.
Proof. reflexivity. Qed.

(** C6, as stated, fails: after reading a file without ATOM record,
    [centroid] returns normally, with NaN stored. *)
Lemma centroid_without_atoms_stores_nan :
  (m <- read float_exact (init (Fin 1)) pdb_no_atom ;; centroid m)
  = Ok (mkSASModel (NdArray []) (Fin 1) [pdb_no_atom] (ComScalar NaN) None None)
  /\ ~ raises (m <- read float_exact (init (Fin 1)) pdb_no_atom ;; centroid m).
Proof.
  assert (H : (m <- read float_exact (init (Fin 1)) pdb_no_atom ;; centroid m)
              = Ok (mkSASModel (NdArray []) (Fin 1) [pdb_no_atom]
                               (ComScalar NaN) None None)).
  { cbn. eval_sgn. reflexivity. }
  split; [exact H|]. rewrite H. cbn. tauto.
Qed.

Lemma finite_coord i p : finite_point p -> is_finite (coord i p).
Proof. intros (Hx & Hy & Hz). destruct i as [|[|i]]; assumption. Qed.

Lemma finite_tensor_entry mol i j :
  mol <> [] -> Forall finite_point mol -> is_finite (tensor_entry mol i j).
Proof.
  intros Hne Hmol. unfold tensor_entry. apply finite_div_count.
  - apply finite_fsum. rewrite Forall_map. revert Hmol. apply Forall_impl.
    intros p Hp. pose proof Hp as (Hx & Hy & Hz). apply finite_sub.
    + apply finite_mul.
      * unfold delta_kron. destruct (Nat.eqb i j); exact I.
      * apply finite_fsum. repeat constructor; apply finite_mul; assumption.
    + apply finite_mul; apply finite_coord; assumption.
  - destruct mol; [congruence|discriminate].
Qed.

Lemma finite_tensor mol :
  mol <> [] -> Forall finite_point mol -> finite_matrix 3 3 (tensor mol).
Proof.
  intros Hne Hmol. split; [reflexivity|].
  repeat constructor; auto using finite_tensor_entry.
Qed.

Lemma finite_centered rows c :
  Forall finite_point rows -> finite_point c ->
  Forall finite_point (centered rows c).
Proof.
  intros Hrows (Hx & Hy & Hz). unfold centered. rewrite Forall_map.
  revert Hrows. apply Forall_impl. intros p (Hpx & Hpy & Hpz).
  repeat split; cbn [px py pz fst snd]; apply finite_sub; assumption.
Qed.

Lemma finite_inj A : Forall finite_point (map inj A).
Proof. rewrite Forall_map. apply Forall_forall. intros a _. repeat split. Qed.

Lemma finite_row3 r :
  length r = 3%nat /\ Forall is_finite r -> exists a b c, r = [Fin a; Fin b; Fin c].
Proof.
  intros [Hlen Hfin].
  destruct r as [|x [|y [|z [|? ?]]]]; try discriminate.
  inversion Hfin as [|? ? Hx Hfin1]; subst.
  inversion Hfin1 as [|? ? Hy Hfin2]; subst.
  inversion Hfin2 as [|? ? Hz _]; subst.
  destruct (is_finite_inv _ Hx) as [a ->].
  destruct (is_finite_inv _ Hy) as [b ->].
  destruct (is_finite_inv _ Hz) as [c ->]. eauto.
Qed.

Lemma finite_matrix33 v :
  finite_matrix 3 3 v ->
  exists a00 a01 a02 a10 a11 a12 a20 a21 a22,
    v = [[Fin a00; Fin a01; Fin a02];
         [Fin a10; Fin a11; Fin a12];
         [Fin a20; Fin a21; Fin a22]].
Proof.
  intros [Hlen Hrows].
  destruct v as [|r0 [|r1 [|r2 [|? ?]]]]; try discriminate.
  inversion Hrows as [|? ? H0 Hrows1]; subst.
  inversion Hrows1 as [|? ? H1 Hrows2]; subst.
  inversion Hrows2 as [|? ? H2 _]; subst.
  destruct (finite_row3 _ H0) as (a00 & a01 & a02 & ->).
  destruct (finite_row3 _ H1) as (a10 & a11 & a12 & ->).
  destruct (finite_row3 _ H2) as (a20 & a21 & a22 & ->).
  repeat eexists.
Qed.

Lemma column_inj_x A : map px (map inj A) = map Fin (map rx A).
Proof. rewrite !map_map. reflexivity. Qed.

Lemma column_inj_y A : map py (map inj A) = map Fin (map ry A).
Proof. rewrite !map_map. reflexivity. Qed.

Lemma column_inj_z A : map pz (map inj A) = map Fin (map rz A).
Proof. rewrite !map_map. reflexivity. Qed.

(** The centre of mass of a non-empty array of real points. *)
Lemma centroid_array m A :
  atoms m = array_of A -> A <> [] ->
  centroid m
  = Ok (set_com m (ComVector (Fin (rmean (map rx A)),
                              Fin (rmean (map ry A)),
                              Fin (rmean (map rz A))))).
Proof.
  intros Hm HA. unfold centroid. rewrite Hm. unfold array_of.
  destruct A as [|a A]; [congruence|].
  change (map inj (a :: A)) with (inj a :: map inj A).
  cbv iota beta.
  change (inj a :: map inj A) with (map inj (a :: A)).
  rewrite column_inj_x, column_inj_y, column_inj_z.
  rewrite !mean_Fin by discriminate. reflexivity.
Qed.

Lemma centroid_tetrahedron :
  centroid (model_of tetrahedron)
  = Ok (set_com (model_of tetrahedron)
                (ComVector (Fin 0.25, Fin 0.25, Fin 0.25))).
Proof.
  rewrite (centroid_array _ tetrahedron) by (reflexivity || discriminate).
  do 3 f_equal. unfold rmean, Rsum. cbn.
  repeat match goal with |- (_, _) = (_, _) => apply f_equal2 end;
    apply f_equal; lra.
Qed.

Section CanonicalPosition.

Variable eigh : matrix -> result (list float64 * matrix).

(** On a symmetric 3x3 array of finite numbers [eigh] returns three
    eigenvalues and a 3x3 array of finite numbers. *)
Hypothesis eigh_finite :
  forall t, finite_matrix 3 3 t -> symmetric33 t ->
            exists w v, eigh t = Ok (w, v) /\ length w = 3%nat
                        /\ finite_matrix 3 3 v.

Lemma canonical_rotate_form m t :
  inertensor m = Some t -> finite_matrix 3 3 t -> symmetric33 t ->
  exists rot, canonical_rotate eigh m = Ok rot /\ rotation_form rot.
Proof.
  intros Ht Hfin Hsym. unfold canonical_rotate. rewrite Ht.
  destruct (eigh_finite t Hfin Hsym) as (w & v & -> & Hw & Hv).
  cbn [bind fst snd].
  destruct (finite_matrix33 v Hv)
    as (a00 & a01 & a02 & a10 & a11 & a12 & a20 & a21 & a22 & ->).
  destruct w as [|w0 [|w1 [|w2 [|? ?]]]]; try discriminate.
  eexists. split; [reflexivity|].
  unfold argsort. cbn [length seq fold_left insert_index nth].
  destruct (sorts_before w1 w0); cbn [insert_index nth];
    repeat match goal with
           | |- context [if sorts_before ?x ?y then _ else _] =>
               destruct (sorts_before x y); cbn [insert_index nth]
           end;
    unfold rotation_form; cbn; repeat eexists.
Qed.

(** The atoms after [canonical_position]: a linear map applied to the
    atoms minus the centre of mass. *)
Lemma canonical_position_value m A cx cy cz t :
  atoms m = array_of A -> A <> [] ->
  com m = ComVector (Fin cx, Fin cy, Fin cz) ->
  inertensor m = Some t -> finite_matrix 3 3 t -> symmetric33 t ->
  exists r00 r01 r02 r10 r11 r12 r20 r21 r22,
    canonical_position eigh m
    = Ok (set_atoms m (array_of
         (map (fun a => (r00 * (rx a - cx) + r01 * (ry a - cy) + r02 * (rz a - cz),
                         r10 * (rx a - cx) + r11 * (ry a - cy) + r12 * (rz a - cz),
                         r20 * (rx a - cx) + r21 * (ry a - cy) + r22 * (rz a - cz)))
              A))).
Proof.
  intros Hm HA Hcom Ht Hfin Hsym.
  destruct (canonical_rotate_form m t Ht Hfin Hsym)
    as (rot & Hrot & r00 & r01 & r02 & r10 & r11 & r12 & r20 & r21 & r22 & ->).
  exists r00, r01, r02, r10, r11, r12, r20, r21, r22.
  unfold canonical_position. rewrite Hm. unfold array_of.
  destruct A as [|a0 A0]; [congruence|].
  change (map inj (a0 :: A0)) with (inj a0 :: map inj A0). cbv iota beta.
  change (inj a0 :: map inj A0) with (map inj (a0 :: A0)).
  set (A := a0 :: A0) in *.
  unfold canonical_translate. rewrite Hcom. cbn [bind px py pz fst snd opp].
  rewrite Hrot. cbn [bind].
  rewrite repeat_as_map, !map_map.
  change ([map (fun x => px (inj x)) A; map (fun x => py (inj x)) A;
           map (fun x => pz (inj x)) A] ++ [map (fun _ => Fin 1) A])
    with (map (fun f => map f A)
              [fun x => px (inj x); fun x => py (inj x); fun x => pz (inj x);
               fun _ : rpoint => Fin 1]).
  rewrite dot_rows by discriminate.
  rewrite dot_rows by discriminate.
  cbn [map delete_row firstn skipn app].
  match goal with
  | |- context [transpose [map ?f0 A; map ?f1 A; map ?f2 A]] =>
      change [map f0 A; map f1 A; map f2 A]
        with (map (fun f => map f A) [f0; f1; f2])
  end.
  rewrite transpose_rows by discriminate.
  unfold rows_of. rewrite !map_map.
  do 3 f_equal. apply map_ext. intros a.
  cbn. unfold inj. cbn [rx ry rz fst snd].
  repeat match goal with |- (_, _) = (_, _) => apply f_equal2 end;
    apply f_equal; ring.
Qed.


End CanonicalPosition.

Lemma eigh_decreasing_diagonal_finite :
  forall t, finite_matrix 3 3 t -> symmetric33 t ->
            exists w v, eigh_decreasing_diagonal t = Ok (w, v)
                        /\ length w = 3%nat /\ finite_matrix 3 3 v.
Proof.
  intros t _ _. eexists. eexists. split; [reflexivity|]. split; [reflexivity|].
  split; [reflexivity|]. repeat constructor.
Qed.


(** ** The canonical rotation of a given model *)

Lemma inertia_axes6 :
  (m1 <- centroid (model_of axes6) ;; inertiatensor m1) = Ok model_axes6.
Proof.
  rewrite (centroid_array _ axes6) by (reflexivity || discriminate).
  cbn [bind].
  replace (rmean (map rx axes6)) with 0 by (unfold rmean, Rsum; cbn; lra).
  replace (rmean (map ry axes6)) with 0 by (unfold rmean, Rsum; cbn; lra).
  replace (rmean (map rz axes6)) with 0 by (unfold rmean, Rsum; cbn; lra).
  unfold inertiatensor, model_axes6. cbn. eval_sgn.
  unfold set_inertensor, tensor_axes6. cbn.
  f_equal. f_equal. unfold tensor, tensor_entry. eval_f64.
  same_numbers.
Qed.

Lemma eigh_axes6 :
  eigh_decreasing_diagonal tensor_axes6
  = Ok ([Fin (5 / 3); Fin (10 / 3); Fin (13 / 3)],
        [[Fin 0; Fin 0; Fin 1]; [Fin 0; Fin 1; Fin 0]; [Fin 1; Fin 0; Fin 0]]).
Proof. reflexivity. Qed.

Lemma eigh_axes6_valid :
  eigen_decomposition tensor_axes6
    ([Fin (5 / 3); Fin (10 / 3); Fin (13 / 3)],
     [[Fin 0; Fin 0; Fin 1]; [Fin 0; Fin 1; Fin 0]; [Fin 1; Fin 0; Fin 0]]).
Proof.
  unfold eigen_decomposition, finite_matrix, same_entries. cbn.
  repeat split; repeat constructor; try lra.
Qed.

Lemma canonical_rotate_axes6 :
  canonical_rotate eigh_decreasing_diagonal model_axes6 = Ok improper.
Proof.
  unfold canonical_rotate, model_axes6. cbn [inertensor].
  rewrite eigh_axes6. cbn [bind fst snd].
  unfold argsort. cbn [length seq fold_left insert_index nth].
  eval_sorts. cbn [insert_index nth]. eval_sorts. cbn [insert_index nth].
  eval_sorts. reflexivity.
Qed.

Lemma det_improper : det improper = Fin (-1).
Proof. unfold det, improper. cbn. same_numbers. Qed.

(** The orientation of the result is the one of the eigenvectors that
    [eigh] hands over: with the opposite of the first eigenvector, which
    [eigh] may return as well, the same model gets determinant +1. *)
Lemma canonical_rotate_follows_eigh :
  (exists wv, eigh_decreasing_diagonal_flipped tensor_axes6 = Ok wv
              /\ eigen_decomposition tensor_axes6 wv)
  /\ canonical_rotate eigh_decreasing_diagonal_flipped model_axes6 = Ok proper
  /\ det proper = Fin 1.
Proof.
  split; [|split].
  - eexists. split; [reflexivity|].
    unfold eigen_decomposition, finite_matrix, same_entries. cbn.
    repeat split; repeat constructor; try lra.
  - unfold canonical_rotate, model_axes6. cbn [inertensor].
    unfold eigh_decreasing_diagonal_flipped, tensor_axes6, entry.
    cbn [bind fst snd nth].
    unfold argsort. cbn [length seq fold_left insert_index nth].
    eval_sorts. cbn [insert_index nth]. eval_sorts. cbn [insert_index nth].
    eval_sorts. reflexivity.
  - unfold det, proper. cbn. same_numbers.
Qed.

(** C3: for six atoms on the axes at distances 1, 2 and 3 from the origin
    the inertia tensor is diag(13/3, 10/3, 5/3); its eigenvalues in
    ascending order belong to the axes e3, e2, e1, and [canonical_rotate]
    returns these as rows: a matrix of determinant -1. *)
Theorem canonical_rotate_determinant_minus_one :
  (m1 <- centroid (model_of axes6) ;; inertiatensor m1) = Ok model_axes6
  /\ inertensor model_axes6 = Some tensor_axes6
  /\ (exists wv, eigh_decreasing_diagonal tensor_axes6 = Ok wv
                 /\ eigen_decomposition tensor_axes6 wv)
  /\ canonical_rotate eigh_decreasing_diagonal model_axes6 = Ok improper
  /\ det improper = Fin (-1).
Proof.
  split; [exact inertia_axes6|]. split; [reflexivity|]. split.
  - eexists. split; [exact eigh_axes6|exact eigh_axes6_valid].
  - split; [exact canonical_rotate_axes6|exact det_improper].
Qed.

(* ================================================================== *)
(** * Reading and writing *)
(* ================================================================== *)

Lemma str_take_drop n s : (str_take n s ++ str_drop n s)%string = s.
Proof.
  revert s. induction n as [|n IH]; intros s; [reflexivity|].
  destruct s as [|c s]; [reflexivity|]. cbn. now rewrite IH.
Qed.

Lemma str_drop_add a b s : str_drop b (str_drop a s) = str_drop (a + b) s.
Proof.
  revert s. induction a as [|a IH]; intros s; [reflexivity|].
  destruct s as [|c s]; cbn.
  - destruct b; reflexivity.
  - apply IH.
Qed.

(** A line is its columns 1 to 30, 31 to 54 and the rest. *)
Lemma str_columns s :
  (str_take 30 s ++ str_slice 30 54 s ++ str_drop 54 s)%string = s.
Proof.
  unfold str_slice. change 54%nat with (30 + 24)%nat at 2.
  rewrite <- (str_drop_add 30 24 s).
  change (54 - 30)%nat with 24%nat.
  rewrite (str_take_drop 24 (str_drop 30 s)). apply str_take_drop.
Qed.

(** Writing the lines of a text one after the other gives the text. *)
Lemma written_lines_of text : written (lines_of text) = text.
Proof.
  unfold written. induction text as [|c rest IH]; [reflexivity|].
  cbn [lines_of]. destruct (Ascii.eqb c "010").
  - cbn [fold_right String.append]. now rewrite IH.
  - destruct (lines_of rest) as [|l ls];
      cbn [fold_right String.append] in *; now rewrite <- IH.
Qed.

(** Writing the lines read from a file gives its text with every line end
    as a line feed. *)
Lemma written_file_lines text :
  written (file_lines text) = universal_newlines text.
Proof. apply written_lines_of. Qed.

(** A text without carriage return is read as it is. *)
Lemma universal_newlines_cr_free text :
  cr_free text = true -> universal_newlines text = text.
Proof.
  induction text as [|c rest IH]; [reflexivity|].
  cbn [cr_free universal_newlines]. intros H.
  apply andb_prop in H as [Hc Hr]. apply negb_true_iff in Hc.
  rewrite Hc. now rewrite IH.
Qed.

Section FileFacts.

Variable F : Type.
Variable float : string -> result F.
Variable format_8_3f : F -> string.

Lemma well_formed_parsed lines :
  Forall (well_formed float format_8_3f) lines ->
  exists pts, parsed float format_8_3f lines pts.
Proof.
  induction 1 as [|line rest Hline _ [pts IH]].
  - exists []. constructor.
  - destruct (startswith "ATOM" line) eqn:E.
    + destruct (Hline E) as (p & Hp & Hs). exists (p :: pts).
      now apply parsed_atom.
    + exists pts. now apply parsed_other.
Qed.

Lemma read_loop_parsed lines pts :
  parsed float format_8_3f lines pts ->
  forall header atoms,
    read_loop float lines header atoms = Ok (header ++ lines, atoms ++ pts).
Proof.
  induction 1 as [|line rest pts E _ IH|line rest p pts E Hp _ _ IH];
    intros header atoms; cbn [read_loop].
  - now rewrite !app_nil_r.
  - rewrite E. cbn [bind]. rewrite IH, <- app_assoc. reflexivity.
  - rewrite E, Hp. cbn [bind]. rewrite IH, <- !app_assoc. reflexivity.
Qed.

(** Saving, from the record number [length pre] on, over the array that
    holds the points read gives the lines back. *)
Lemma save_loop_parsed lines pts :
  parsed float format_8_3f lines pts ->
  forall pre,
    save_loop format_8_3f lines (length pre) (NdArray (pre ++ pts)) = Ok lines.
Proof.
  induction 1 as [|line rest pts E _ IH|line rest p pts E Hp Hs _ IH];
    intros pre; cbn [save_loop].
  - reflexivity.
  - rewrite E, IH. reflexivity.
  - rewrite E. cbn [shape0 bind].
    assert (Hlt : Nat.ltb (length pre) (length (pre ++ p :: pts)) = true).
    { apply Nat.ltb_lt. rewrite length_app. cbn. lia. }
    rewrite Hlt. cbn [getitem].
    rewrite nth_error_app2 by lia. rewrite Nat.sub_diag. cbn [nth_error bind].
    replace (pre ++ p :: pts) with ((pre ++ [p]) ++ pts)
      by (now rewrite <- app_assoc).
    replace (S (length pre)) with (length (pre ++ [p]))
      by (rewrite length_app; cbn; lia).
    rewrite IH. cbn [bind]. rewrite <- Hs, str_columns. reflexivity.
Qed.

(** For every file in which each ATOM line holds three numerals as its
    words 6 to 8 and, in its columns 31 to 54, exactly what [%8.3f] prints
    for them, [read] followed by [save] writes the text of the file with
    every line end as a line feed. *)
Lemma read_save_line_feeds (m : SASModel F) (text : string) :
  Forall (well_formed float format_8_3f) (file_lines text) ->
  exists m', read float m text = Ok m'
             /\ save format_8_3f m' = Ok (universal_newlines text).
Proof.
  intros Hwf. destruct (well_formed_parsed _ Hwf) as [pts Hp].
  unfold read. rewrite (read_loop_parsed _ _ Hp). cbn [bind fst snd app].
  eexists. split; [reflexivity|].
  unfold save. cbn [header atoms set_atoms set_header].
  pose proof (save_loop_parsed _ _ Hp []) as Hs. cbn [length app] in Hs.
  rewrite Hs. cbn [bind].
  now rewrite written_file_lines.
Qed.

(** C8, amended: for every file without carriage return in which each
    ATOM line holds three numerals as its words 6 to 8 and, in its columns
    31 to 54, exactly what [%8.3f] prints for them, [read] followed by
    [save] writes the text of the file again, character for character:
    the same file byte for byte. *)
Theorem read_save_roundtrip (m : SASModel F) (text : string) :
  cr_free text = true ->
  Forall (well_formed float format_8_3f) (file_lines text) ->
  exists m', read float m text = Ok m' /\ save format_8_3f m' = Ok text.
Proof.
  intros Hcr Hwf.
  destruct (read_save_line_feeds m text Hwf) as (m' & Hr & Hs).
  exists m'. split; [exact Hr|].
  now rewrite Hs, universal_newlines_cr_free.
Qed.

(** What [save] writes for any array: the header with the atoms from the
    counter on substituted in order. *)
Lemma save_loop_substituted lines rows :
  forall nr,
    save_loop format_8_3f lines nr (NdArray rows)
    = Ok (substituted format_8_3f lines (skipn nr rows)).
Proof.
  induction lines as [|line rest IH]; intros nr; cbn [save_loop substituted].
  - reflexivity.
  - destruct (startswith "ATOM" line) eqn:E.
    + cbn [shape0 bind]. destruct (Nat.ltb nr (length rows)) eqn:Hlt.
      * apply Nat.ltb_lt in Hlt. cbn [getitem].
        destruct (nth_error rows nr) as [p|] eqn:Hn.
        2:{ apply nth_error_None in Hn. lia. }
        cbn [bind]. rewrite IH. cbn [bind].
        assert (Hs : skipn nr rows = p :: skipn (S nr) rows).
        { clear -Hn. revert nr Hn. induction rows as [|r rows IHr]; intros nr Hn.
          - destruct nr; discriminate.
          - destruct nr as [|nr]; cbn in *.
            + now injection Hn as ->.
            + now apply IHr. }
        rewrite Hs. reflexivity.
      * apply Nat.ltb_ge in Hlt. cbn [bind]. rewrite IH. cbn [bind].
        rewrite !skipn_all2 by lia. reflexivity.
    + rewrite IH. reflexivity.
Qed.

(** Only as many points as the header has ATOM records are used. *)
Lemma substituted_firstn lines :
  forall pts,
    substituted format_8_3f lines (firstn (atom_records lines) pts)
    = substituted format_8_3f lines pts.
Proof.
  unfold atom_records.
  induction lines as [|line rest IH]; intros pts; cbn [substituted filter].
  - reflexivity.
  - destruct (startswith "ATOM" line) eqn:E.
    + cbn [length]. destruct pts as [|p pts]; cbn [firstn].
      * reflexivity.
      * now rewrite IH.
    + now rewrite IH.
Qed.

(** C10: for a model whose atoms array holds more points than its header
    has ATOM records, [save] raises nothing; it writes the header with the
    first [k] atoms substituted, in order, one into each of its [k] ATOM
    records, and every other line verbatim: exactly what it writes for the
    model cut to its first [k] atoms. *)
Theorem save_ignores_extra_atoms (m : SASModel F) (rows : list (point F)) :
  atoms m = NdArray rows ->
  (atom_records (header m) < length rows)%nat ->
  save format_8_3f m
  = Ok (written (substituted format_8_3f (header m)
                             (firstn (atom_records (header m)) rows)))
  /\ length (firstn (atom_records (header m)) rows) = atom_records (header m)
  /\ save format_8_3f
          (set_atoms m (NdArray (firstn (atom_records (header m)) rows)))
     = save format_8_3f m.
Proof.
  intros Hm Hlt. unfold save. cbn [atoms header set_atoms]. rewrite Hm.
  rewrite !save_loop_substituted. cbn [skipn bind].
  rewrite substituted_firstn. split; [reflexivity|]. split; [|reflexivity].
  rewrite length_firstn. lia.
Qed.

End FileFacts.

(** ** Given files *)

(** C8, as stated, fails: a file whose ATOM record carries its coordinates
    with two decimals is read, and saved with three. *)
Lemma read_save_two_decimals :
  (m <- read Decimal.float (init 1%Q) pdb_two_decimals ;;
   save Decimal.format_8_3f m)
  = Ok "ATOM      1  CA  ASP A   1       1.500   2.500   3.500  1.00 20.81
"%string
  /\ (m <- read Decimal.float (init 1%Q) pdb_two_decimals ;;
      save Decimal.format_8_3f m) <> Ok pdb_two_decimals.
Proof.
  split.
  - vm_compute. reflexivity.
  - vm_compute. intros H. discriminate H.
Qed.

(** A file with the line ends of DOS is read with line feeds, and saved
    with line feeds: another file than the one read. *)
Lemma read_save_carriage_return :
  (m <- read Decimal.float (init 1%Q) pdb_dos ;; save Decimal.format_8_3f m)
  = Ok "REMARK two lines
END
"%string
  /\ (m <- read Decimal.float (init 1%Q) pdb_dos ;;
      save Decimal.format_8_3f m) <> Ok pdb_dos.
Proof.
  split.
  - vm_compute. reflexivity.
  - vm_compute. intros H. discriminate H.
Qed.

(** The separators 28 to 31 cut words as the space does. *)
Lemma split_unit_separator :
  split ("-0.519" ++ String "031" "-5.359   8.953")
  = ["-0.519"; "-5.359"; "8.953"]%string.
Proof. vm_compute. reflexivity. Qed.

Lemma read_save_roundtrip_witness :
  exists m', read Decimal.float (init 1%Q) pdb_three_decimals = Ok m'
             /\ save Decimal.format_8_3f m' = Ok pdb_three_decimals.
Proof.
  apply (read_save_roundtrip Q Decimal.float Decimal.format_8_3f).
  { vm_compute. reflexivity. }
  vm_compute file_lines.
  repeat (apply Forall_cons;
          [ intros E; vm_compute in E;
            match type of E with
            | false = true => discriminate E
            | _ => eexists; split;
                   [ vm_compute; reflexivity | vm_compute; reflexivity ]
            end
          | ]).
  apply Forall_nil.
Defined.

Lemma save_ignores_extra_atoms_witness :
  save Decimal.format_8_3f model_extra_atom
  = Ok (written (substituted Decimal.format_8_3f (header model_extra_atom)
                   (firstn (atom_records (header model_extra_atom))
                           [(1 # 2, 0, 0); (7, 8, 9)]%Q)))
  /\ length (firstn (atom_records (header model_extra_atom))
                    [(1 # 2, 0, 0); (7, 8, 9)]%Q)
     = atom_records (header model_extra_atom)
  /\ save Decimal.format_8_3f
          (set_atoms model_extra_atom
             (NdArray (firstn (atom_records (header model_extra_atom))
                              [(1 # 2, 0, 0); (7, 8, 9)]%Q)))
     = save Decimal.format_8_3f model_extra_atom.
Proof.
  apply (save_ignores_extra_atoms Q Decimal.format_8_3f model_extra_atom
           [(1 # 2, 0, 0); (7, 8, 9)]%Q).
  - reflexivity.
  - vm_compute. lia.
Defined.

(** The file written in that example: the record holds the first atom. *)
Lemma save_extra_atom_text :
  save Decimal.format_8_3f model_extra_atom
  = Ok "REMARK one bead
ATOM      1  CA  ASP A   1       0.500   0.000   0.000  1.00 20.81
"%string.
Proof. vm_compute. reflexivity. Qed.

(* ================================================================== *)
(** * Further properties of the fineness *)
(* ================================================================== *)

Lemma translate_isometry t : isometry (translate t).
Proof.
  intros a b. unfold euclid, translate. cbn [rx ry rz fst snd]. f_equal.
  unfold Rsqr. ring.
Qed.

Lemma isometry_similarity g : isometry g -> similarity 1 g.
Proof. intros Hg a b. rewrite Hg. ring. Qed.

Lemma scale_similarity s : 0 <= s -> similarity s (scale s).
Proof.
  intros Hs a b. unfold euclid, scale. cbn [rx ry rz fst snd].
  transitivity (sqrt (s² * ((rx a - rx b)² + (ry a - ry b)² + (rz a - rz b)²))).
  - f_equal. unfold Rsqr. ring.
  - rewrite sqrt_mult_alt by apply Rle_0_sqr.
    now rewrite sqrt_Rsqr by exact Hs.
Qed.

Lemma Rmin_scale s x y : 0 <= s -> Rmin (s * x) (s * y) = s * Rmin x y.
Proof.
  intros Hs. unfold Rmin.
  destruct (Rle_dec x y) as [H|H], (Rle_dec (s * x) (s * y)) as [H'|H'];
    try reflexivity.
  - exfalso. apply H'. now apply Rmult_le_compat_l.
  - apply Rle_antisym; [exact H'|]. apply Rmult_le_compat_l; lra.
Qed.

Lemma Rmin_list_scale s l :
  0 <= s -> Rmin_list (map (Rmult s) l) = s * Rmin_list l.
Proof.
  intros Hs. destruct l as [|x l]; cbn [map Rmin_list]; [ring|].
  induction l as [|y l IH]; cbn [map fold_right]; [reflexivity|].
  rewrite IH. now apply Rmin_scale.
Qed.

Lemma Rsum_scale {X} (c : R) (h : X -> R) (l : list X) :
  Rsum (map (fun x => c * h x) l) = c * Rsum (map h l).
Proof.
  unfold Rsum. induction l as [|x l IH]; cbn [map fold_right]; [ring|].
  rewrite IH. ring.
Qed.

Lemma indexed_map g A :
  indexed (map g A) = map (fun ia => (fst ia, g (snd ia))) (indexed A).
Proof.
  unfold indexed. rewrite length_map. generalize (seq 0 (length A)) as s.
  induction A as [|a A IH]; intros [|i s]; cbn; try reflexivity.
  now rewrite IH.
Qed.

Lemma others_map g i A : others i (map g A) = map g (others i A).
Proof. unfold others. now rewrite firstn_map, skipn_map, map_app. Qed.

Lemma nearest_other_similarity s g A i a :
  0 <= s -> similarity s g ->
  nearest_other (map g A) i (g a) = s * nearest_other A i a.
Proof.
  intros Hs Hg. unfold nearest_other. rewrite others_map, map_map.
  rewrite <- Rmin_list_scale by exact Hs. rewrite map_map.
  f_equal. apply map_ext. intros b. apply Hg.
Qed.

Lemma rms_nearest_similarity s g A :
  0 <= s -> similarity s g -> rms_nearest (map g A) = s * rms_nearest A.
Proof.
  intros Hs Hg. unfold rms_nearest. rewrite indexed_map, map_map, length_map.
  set (X := Rsum (map (fun ia => (nearest_other A (fst ia) (snd ia))²) (indexed A))).
  transitivity (sqrt (s² * (X / INR (length A)))).
  - f_equal. unfold Rdiv. rewrite <- Rmult_assoc. f_equal.
    unfold X. rewrite <- Rsum_scale. f_equal. apply map_ext.
    intros [i a]. cbn [fst snd].
    rewrite (nearest_other_similarity s g A i a Hs Hg). unfold Rsqr. ring.
  - rewrite sqrt_mult_alt by apply Rle_0_sqr.
    now rewrite sqrt_Rsqr by exact Hs.
Qed.

Lemma rms_nearest_single a : rms_nearest [a] = 0.
Proof.
  unfold rms_nearest, indexed, nearest_other, others, Rsum. cbn.
  replace ((0² + 0) / 1) with 0 by (unfold Rsqr; field). apply sqrt_0.
Qed.

Lemma sum_min_sq_similarity s g A B :
  0 <= s -> similarity s g ->
  sum_min_sq (map g A) (map g B) = s² * sum_min_sq A B.
Proof.
  intros Hs Hg. unfold sum_min_sq. rewrite map_map, <- Rsum_scale.
  f_equal. apply map_ext. intros a.
  rewrite <- Rmin_list_scale by apply Rle_0_sqr. rewrite !map_map.
  f_equal. apply map_ext. intros b. rewrite Hg. unfold Rsqr. ring.
Qed.

(** ** A fineness of zero *)

Lemma euclid_zero a b : euclid a b = 0 -> a = b.
Proof.
  intros H. assert (Hs : sqd a b = 0) by (rewrite <- euclid_sq, H; apply Rsqr_0).
  unfold sqd in Hs.
  pose proof (Rle_0_sqr (rx a - rx b)) as H1.
  pose proof (Rle_0_sqr (ry a - ry b)) as H2.
  pose proof (Rle_0_sqr (rz a - rz b)) as H3.
  assert (E1 : (rx a - rx b)² = 0) by lra.
  assert (E2 : (ry a - ry b)² = 0) by lra.
  assert (E3 : (rz a - rz b)² = 0) by lra.
  apply Rsqr_0_uniq in E1, E2, E3.
  destruct a as [[ax ay] az], b as [[bx by_] bz]. cbn [rx ry rz fst snd] in *.
  repeat f_equal; lra.
Qed.

Lemma euclid_self a : euclid a a = 0.
Proof.
  apply Rsqr_inj; [apply euclid_nonneg|lra|].
  rewrite euclid_sq, sqd_self, Rsqr_0. reflexivity.
Qed.

Lemma nearest_zero_iff L a :
  L <> [] -> (Rmin_list (map (euclid a) L) = 0 <-> In a L).
Proof.
  intros HL. split.
  - intros H.
    assert (Hin : In (Rmin_list (map (euclid a) L)) (map (euclid a) L)).
    { apply Rmin_list_in. destruct L; [congruence|discriminate]. }
    rewrite H in Hin. apply in_map_iff in Hin as (b & Hb & Hin).
    apply euclid_zero in Hb. now subst b.
  - intros Hin. apply Rle_antisym.
    + etransitivity; [apply Rmin_list_le, in_map; exact Hin|].
      rewrite euclid_self. lra.
    + apply Rmin_list_nonneg. rewrite Forall_map. apply Forall_forall.
      intros b _. apply euclid_nonneg.
Qed.

Lemma Rsum_zero_inv l :
  Forall (fun x => 0 <= x) l -> Rsum l = 0 -> Forall (fun x => x = 0) l.
Proof.
  unfold Rsum. induction 1 as [|x l Hx Hl IH]; cbn [fold_right]; intros H.
  - constructor.
  - pose proof (Rsum_nonneg l Hl) as Hs. unfold Rsum in Hs.
    constructor; [lra|]. apply IH. lra.
Qed.

Lemma combine_seq_in {X} (A : list X) s i a :
  nth_error A i = Some a -> In ((s + i)%nat, a) (combine (seq s (length A)) A).
Proof.
  revert s i. induction A as [|b A IH]; intros s i Hn.
  - destruct i; discriminate.
  - cbn [length seq combine]. destruct i as [|i]; cbn [nth_error] in Hn.
    + injection Hn as ->. left. f_equal. lia.
    + right. replace (s + S i)%nat with (S s + i)%nat by lia. now apply IH.
Qed.

Lemma nth_error_indexed (A : list rpoint) i a :
  nth_error A i = Some a -> In (i, a) (indexed A).
Proof. intros H. apply (combine_seq_in A 0 i a H). Qed.

Lemma rms_nearest_zero_iff A :
  (2 <= length A)%nat ->
  (rms_nearest A = 0
   <-> forall i a, nth_error A i = Some a -> has_twin A i a).
Proof.
  intros H2. pose proof (nonempty_of_two A H2) as HA.
  pose proof (INR_pos_of_nonempty A HA) as Hn.
  set (l := map (fun ia => (nearest_other A (fst ia) (snd ia))²) (indexed A)).
  assert (Hl : Forall (fun x => 0 <= x) l).
  { unfold l. rewrite Forall_map. apply Forall_forall. intros ia _.
    apply Rle_0_sqr. }
  assert (Hq : 0 <= Rsum l / INR (length A)).
  { apply Rmult_le_pos; [now apply Rsum_nonneg|].
    apply Rlt_le, Rinv_0_lt_compat, Hn. }
  unfold rms_nearest. fold l. unfold has_twin. split.
  - intros H i a Hia.
    apply sqrt_eq_0 in H; [|exact Hq].
    assert (Hs : Rsum l = 0).
    { unfold Rdiv in H. apply Rmult_integral in H as [H|H]; [exact H|].
      pose proof (Rinv_0_lt_compat _ Hn). lra. }
    pose proof (Rsum_zero_inv l Hl Hs) as Hz. unfold l in Hz.
    rewrite Forall_map, Forall_forall in Hz.
    specialize (Hz (i, a) (nth_error_indexed A i a Hia)). cbn [fst snd] in Hz.
    apply Rsqr_0_uniq in Hz. unfold nearest_other in Hz.
    apply nearest_zero_iff in Hz; [exact Hz|]. now apply others_nonempty.
  - intros H.
    assert (Hs : Rsum l = 0).
    { unfold l. apply Rsum_zero. intros [i a] Hin. cbn [fst snd].
      apply indexed_nth_error in Hin. specialize (H i a Hin).
      unfold nearest_other.
      replace (Rmin_list (map (euclid a) (others i A))) with 0.
      - apply Rsqr_0.
      - symmetry. apply nearest_zero_iff; [now apply others_nonempty|exact H]. }
    rewrite Hs. unfold Rdiv. rewrite Rmult_0_l. apply sqrt_0.
Qed.

(** ** The fineness a model computes *)

Section FinenessProperties.

Variable _distance : option distance_module.

(** The pure-Python fineness of any array of real points. *)
Lemma calc_fineness_cases m use_cython A :
  _distance = None \/ use_cython = false ->
  atoms m = array_of A ->
  _calc_fineness _distance m use_cython
  = match A with
    | [] => Raise IndexError
    | [_] => Ok (Fin 0)
    | _ => Ok (Fin (rms_nearest A))
    end.
Proof.
  intros Hpath Hm. destruct A as [|a [|b A]].
  - unfold _calc_fineness. rewrite Hm. cbn.
    destruct Hpath as [-> | ->]; [reflexivity|]. destruct _distance; reflexivity.
  - now apply (calc_fineness_single _distance use_cython m a).
  - pose proof (calc_fineness_python_rms m (a :: b :: A) Hm) as H.
    assert (H2 : (2 <= length (a :: b :: A))%nat) by (cbn; lia).
    specialize (H H2).
    destruct Hpath as [-> | ->].
    + destruct use_cython; exact H.
    + destruct _distance; exact H.
Qed.


(** The pure-Python fineness of a non-empty array of real points. *)
Lemma calc_fineness_nonempty m use_cython A :
  _distance = None \/ use_cython = false ->
  atoms m = array_of A -> A <> [] ->
  _calc_fineness _distance m use_cython = Ok (Fin (rms_nearest A)).
Proof.
  intros Hpath Hm HA. rewrite (calc_fineness_cases m use_cython A Hpath Hm).
  destruct A as [|a [|b A]]; [congruence| |reflexivity].
  now rewrite rms_nearest_single.
Qed.


(** X3: for a model holding two atoms or more, on a scale where the
    squares of the program neither overflow nor underflow (coordinates of
    size at most 1e50, distinct atoms at least 1e-50 apart in one
    coordinate), the pure-Python fineness is exactly 0 if and only if every
    atom has another atom at its own place. *)
Theorem calc_fineness_zero_iff_twins m use_cython A :
  _distance = None \/ use_cython = false ->
  atoms m = array_of A -> (2 <= length A)%nat ->
  well_scaled A ->
  (_calc_fineness _distance m use_cython = Ok (Fin 0)
   <-> forall i a, nth_error A i = Some a -> has_twin A i a).
Proof.
  intros Hpath Hm H2 _.
  rewrite (calc_fineness_cases m use_cython A Hpath Hm).
  rewrite <- (rms_nearest_zero_iff A H2).
  destruct A as [|a [|b A]]; cbn in H2; try lia. split.
  - intros [= H]. exact H.
  - intros ->. reflexivity.
Qed.

(** The value of an access to [fineness] is the one the object holds
    afterwards. *)
Lemma fineness_stored m f m1 :
  fineness _distance m = Ok (f, m1) -> _fineness m1 = Some f.
Proof.
  unfold fineness. destruct (_fineness m) as [f0|] eqn:E.
  - intros [= <- <-]. exact E.
  - destruct (_calc_fineness _distance m true) as [f0|e]; cbn; [|discriminate].
    intros [= <- <-]. reflexivity.
Qed.

Lemma fineness_of_stored m f :
  _fineness m = Some f -> fineness _distance m = Ok (f, m).
Proof. intros H. unfold fineness. now rewrite H. Qed.

Variable float : string -> result float64.
Variable eigh : matrix -> result (list float64 * matrix).

(** X4: the fineness is computed once.  After a first access to
    [fineness], reading another file into the model, or moving the model
    to its canonical position, replaces the atoms and leaves the stored
    value: the next access returns the number of the first one. *)
Theorem fineness_not_refreshed m f m1 text m2 :
  fineness _distance m = Ok (f, m1) ->
  read float m1 text = Ok m2 \/ canonical_position eigh m1 = Ok m2 ->
  fineness _distance m2 = Ok (f, m2).
Proof.
  intros Hf Hm2. apply fineness_stored in Hf. apply fineness_of_stored.
  destruct Hm2 as [Hr | Hc].
  - unfold read in Hr.
    destruct (read_loop float (file_lines text) [] []) as [r|e];
      cbn in Hr; [|discriminate].
    injection Hr as <-. exact Hf.
  - unfold canonical_position in Hc.
    destruct (atoms m1) as [|[|p rows]]; try discriminate.
    destruct (canonical_translate m1) as [t|e]; cbn in Hc; [|discriminate].
    destruct (canonical_rotate eigh m1) as [r|e]; cbn in Hc; [|discriminate].
    injection Hc as <-. exact Hf.
Qed.

(** X5: without atoms the pure-Python computations raise: on a model
    just created ([atoms] is a list) [_calc_fineness] and [dist] raise
    TypeError, and on a model whose file had no ATOM record ([atoms] is an
    empty array) they raise IndexError, whatever the other model of [dist]
    is. *)
Theorem no_atoms_raise o use_cython e :
  _distance = None \/ use_cython = false ->
  atoms (self_of o) = PyList /\ e = TypeError
  \/ atoms (self_of o) = NdArray [] /\ e = IndexError ->
  _calc_fineness _distance (self_of o) use_cython = Raise e
  /\ dist _distance o use_cython = Raise e.
Proof.
  intros Hpath Ha.
  assert (He : column px (atoms (self_of o)) = Raise e).
  { destruct Ha as [[-> ->] | [-> ->]]; reflexivity. }
  split.
  - unfold _calc_fineness. rewrite He. cbn [bind].
    destruct Hpath as [-> | ->]; [reflexivity|]. destruct _distance; reflexivity.
  - unfold dist. cbv zeta. rewrite He. cbn [bind].
    destruct Hpath as [-> | ->]; [reflexivity|]. destruct _distance; reflexivity.
Qed.

End FinenessProperties.



Lemma calc_fineness_zero_iff_twins_witness :
  _calc_fineness None (model_of coincident) false = Ok (Fin 0)
  <-> forall i a, nth_error coincident i = Some a -> has_twin coincident i a.
Proof.
  apply (calc_fineness_zero_iff_twins None (model_of coincident) false
           coincident).
  - left. reflexivity.
  - reflexivity.
  - simpl. lia.
  - split.
    + repeat constructor; cbn [rx ry rz fst snd]; rewrite Rabs_R0; lra.
    + intros a b [<- | [<- | []]] [<- | [<- | []]]; left; reflexivity.
Defined.

Lemma fineness_model_pair_x :
  fineness None (model_of pair_x)
  = Ok (Fin 1, set_fineness (model_of pair_x) (Fin 1)).
Proof. unfold fineness. eval_f64. sqrt_arg 1. rewrite sqrt_1. reflexivity. Qed.

Lemma fineness_not_refreshed_witness :
  fineness None
    (set_atoms (set_header (set_fineness (model_of pair_x) (Fin 1))
                           (file_lines pdb_no_atom))
               (NdArray []))
  = Ok (Fin 1,
        set_atoms (set_header (set_fineness (model_of pair_x) (Fin 1))
                              (file_lines pdb_no_atom))
                  (NdArray [])).
Proof.
  apply (fineness_not_refreshed None float_exact eigh_decreasing_diagonal
           (model_of pair_x) (Fin 1) (set_fineness (model_of pair_x) (Fin 1))
           pdb_no_atom).
  - exact fineness_model_pair_x.
  - left. reflexivity.
Defined.

Lemma no_atoms_raise_witness :
  _calc_fineness None (self_of (Same (init (Fin 1)))) true = Raise TypeError
  /\ dist None (Same (init (Fin 1))) true = Raise TypeError.
Proof.
  apply (no_atoms_raise None (Same (init (Fin 1))) true TypeError).
  - left. reflexivity.
  - left. split; reflexivity.
Defined.

(* ================================================================== *)
(** * Further properties of the discrepancy *)
(* ================================================================== *)

Lemma Rmin_sq_zero_iff L a :
  L <> [] -> (Rmin_list (map (fun b => (euclid a b)²) L) = 0 <-> In a L).
Proof.
  intros HL. split.
  - intros H.
    assert (Hin : In (Rmin_list (map (fun b => (euclid a b)²) L))
                     (map (fun b => (euclid a b)²) L)).
    { apply Rmin_list_in. destruct L; [congruence|discriminate]. }
    rewrite H in Hin. apply in_map_iff in Hin as (b & Hb & Hin).
    apply Rsqr_0_uniq, euclid_zero in Hb. now subst b.
  - intros Hin. apply Rle_antisym.
    + etransitivity.
      * apply Rmin_list_le. apply (in_map (fun b => (euclid a b)²) L a Hin).
      * cbv beta. rewrite euclid_self, Rsqr_0. lra.
    + apply Rmin_list_nonneg. rewrite Forall_map. apply Forall_forall.
      intros b _. apply Rle_0_sqr.
Qed.

Lemma sum_min_sq_zero_iff A B :
  B <> [] -> (sum_min_sq A B = 0 <-> incl A B).
Proof.
  intros HB. unfold sum_min_sq. split.
  - intros H a Ha.
    assert (Hl : Forall (fun x => 0 <= x)
               (map (fun a => Rmin_list (map (fun b => (euclid a b)²) B)) A)).
    { rewrite Forall_map. apply Forall_forall. intros a' _.
      apply Rmin_list_nonneg. rewrite Forall_map. apply Forall_forall.
      intros b _. apply Rle_0_sqr. }
    pose proof (Rsum_zero_inv _ Hl H) as Hz.
    rewrite Forall_map, Forall_forall in Hz.
    apply (Rmin_sq_zero_iff B a HB). now apply Hz.
  - intros H. apply Rsum_zero. intros a Ha.
    apply (Rmin_sq_zero_iff B a HB). now apply H.
Qed.

Lemma nsd_zero_iff A B fA fB :
  A <> [] -> B <> [] -> fA <> 0 -> fB <> 0 ->
  (nsd A B fA fB = 0 <-> same_points A B).
Proof.
  intros HA HB HfA HfB.
  pose proof (INR_pos_of_nonempty A HA) as HnA.
  pose proof (INR_pos_of_nonempty B HB) as HnB.
  pose proof (sum_min_sq_nonneg A B) as Hs1.
  pose proof (sum_min_sq_nonneg B A) as Hs2.
  assert (HqA : 0 < fA²) by (apply Rlt_0_sqr; assumption).
  assert (HqB : 0 < fB²) by (apply Rlt_0_sqr; assumption).
  assert (HdB : 0 < INR (length A) * fB²) by (apply Rmult_lt_0_compat; assumption).
  assert (HdA : 0 < INR (length B) * fA²) by (apply Rmult_lt_0_compat; assumption).
  assert (Hc1 : 0 < 1 / (INR (length A) * fB²)) by (apply Rdiv_lt_0_compat; lra).
  assert (Hc2 : 0 < 1 / (INR (length B) * fA²)) by (apply Rdiv_lt_0_compat; lra).
  set (c1 := 1 / (INR (length A) * fB²)) in *.
  set (c2 := 1 / (INR (length B) * fA²)) in *.
  assert (H1 : 0 <= c1 * sum_min_sq A B) by (apply Rmult_le_pos; lra).
  assert (H2 : 0 <= c2 * sum_min_sq B A) by (apply Rmult_le_pos; lra).
  rewrite nsd_sum. fold c1 c2. unfold same_points.
  rewrite <- (sum_min_sq_zero_iff A B HB), <- (sum_min_sq_zero_iff B A HA).
  split.
  - intros H. apply sqrt_eq_0 in H; [|lra].
    assert (E1 : c1 * sum_min_sq A B = 0) by lra.
    assert (E2 : c2 * sum_min_sq B A = 0) by lra.
    apply Rmult_integral in E1, E2. split; lra.
  - intros [-> ->]. rewrite !Rmult_0_r, Rplus_0_r, Rmult_0_r. apply sqrt_0.
Qed.

(** One term [(1/(n*f*f)) * S] of the last expression of [dist]. *)
Lemma dist_term_scale n f S s :
  0 < s -> 0 <= S ->
  mul (div (Fin 1) (mul (mul (of_nat n) (Fin (s * f))) (Fin (s * f))))
      (Fin (s² * S))
  = mul (div (Fin 1) (mul (mul (of_nat n) (Fin f)) (Fin f))) (Fin S).
Proof.
  intros Hs HS. unfold of_nat. cbn [mul].
  assert (Hs2 : 0 < s²) by (apply Rlt_0_sqr; lra).
  destruct (Req_dec (INR n * f * f) 0) as [H0|H0].
  - assert (H0' : INR n * (s * f) * (s * f) = 0).
    { replace (INR n * (s * f) * (s * f)) with (s * s * (INR n * f * f)) by ring.
      rewrite H0. ring. }
    unfold div. rewrite (sgn_zero _ H0), (sgn_zero _ H0').
    rewrite (sgn_pos 1) by lra. cbn [inf_signed mul].
    destruct (Req_dec S 0) as [-> | HS0].
    + rewrite Rmult_0_r. reflexivity.
    + rewrite (sgn_pos S) by lra. rewrite (sgn_pos (s² * S)); [reflexivity|].
      apply Rmult_lt_0_compat; lra.
  - assert (H0' : INR n * (s * f) * (s * f) <> 0).
    { replace (INR n * (s * f) * (s * f)) with (s * s * (INR n * f * f)) by ring.
      apply Rmult_integral_contrapositive. split; [|exact H0].
      apply Rmult_integral_contrapositive. split; lra. }
    assert (Hf : f <> 0) by (intros ->; apply H0; ring).
    assert (Hn : INR n <> 0) by (intros E; apply H0; rewrite E; ring).
    rewrite !div_Fin by assumption. cbn [mul]. f_equal.
    unfold Rsqr. field. repeat split; assumption || lra.
Qed.

Lemma dist_expr_similarity s g A B fa fb :
  0 < s -> similarity s g ->
  dist_expr (map g A) (map g B) (Fin (s * fa)) (Fin (s * fb))
  = dist_expr A B (Fin fa) (Fin fb).
Proof.
  intros Hs Hg. unfold dist_expr. rewrite !length_map.
  rewrite !(sum_min_sq_similarity s g) by (lra || assumption).
  rewrite !dist_term_scale by (lra || apply sum_min_sq_nonneg).
  reflexivity.
Qed.

(** With a fineness of zero the last expression of [dist] is no finite
    number. *)
Lemma dist_term_zero n S :
  0 <= S ->
  mul (div (Fin 1) (mul (mul (of_nat n) (Fin 0)) (Fin 0))) (Fin S) = PInf
  \/ mul (div (Fin 1) (mul (mul (of_nat n) (Fin 0)) (Fin 0))) (Fin S) = NaN.
Proof.
  intros HS. unfold of_nat. cbn [mul]. unfold div.
  rewrite (sgn_zero (INR n * 0 * 0)) by ring.
  rewrite (sgn_pos 1) by lra. cbn [inf_signed mul].
  destruct (Req_dec S 0) as [-> | HS0].
  - right. rewrite (sgn_zero 0) by reflexivity. reflexivity.
  - left. rewrite (sgn_pos S) by lra. reflexivity.
Qed.

Lemma dist_term_cases n f S :
  0 <= S -> (0 < n)%nat ->
  (exists t, 0 <= t
     /\ mul (div (Fin 1) (mul (mul (of_nat n) (Fin f)) (Fin f))) (Fin S) = Fin t)
  \/ mul (div (Fin 1) (mul (mul (of_nat n) (Fin f)) (Fin f))) (Fin S) = PInf
  \/ mul (div (Fin 1) (mul (mul (of_nat n) (Fin f)) (Fin f))) (Fin S) = NaN.
Proof.
  intros HS Hn. destruct (Req_dec f 0) as [-> | Hf].
  - right. now apply dist_term_zero.
  - left. unfold of_nat. cbn [mul].
    assert (Hq : 0 < INR n * f * f).
    { rewrite Rmult_assoc. apply Rmult_lt_0_compat; [now apply lt_0_INR|].
      fold (Rsqr f). now apply Rlt_0_sqr. }
    rewrite div_Fin by lra. cbn [mul]. eexists. split; [|reflexivity].
    apply Rmult_le_pos; [|exact HS]. apply Rlt_le. apply Rdiv_lt_0_compat; lra.
Qed.

Lemma dist_expr_zero_fineness A B fA fB :
  A <> [] -> B <> [] -> fA = 0 \/ fB = 0 ->
  dist_expr A B (Fin fA) (Fin fB) = PInf
  \/ dist_expr A B (Fin fA) (Fin fB) = NaN.
Proof.
  intros HA HB Hz. unfold dist_expr.
  assert (HnA : (0 < length A)%nat) by (destruct A; [congruence|cbn; lia]).
  assert (HnB : (0 < length B)%nat) by (destruct B; [congruence|cbn; lia]).
  pose proof (sum_min_sq_nonneg A B) as Hs1.
  pose proof (sum_min_sq_nonneg B A) as Hs2.
  destruct (dist_term_cases (length A) fB (sum_min_sq A B) Hs1 HnA)
    as [(t1 & Ht1 & E1) | [E1 | E1]];
  destruct (dist_term_cases (length B) fA (sum_min_sq B A) Hs2 HnB)
    as [(t2 & Ht2 & E2) | [E2 | E2]].
  1:{ exfalso. destruct Hz as [-> | ->].
      - destruct (dist_term_zero (length B) (sum_min_sq B A) Hs2) as [E|E];
          rewrite E in E2; discriminate.
      - destruct (dist_term_zero (length A) (sum_min_sq A B) Hs1) as [E|E];
          rewrite E in E1; discriminate. }
  all: rewrite E1, E2; cbn [add mul];
    try rewrite (sgn_pos 0.5) by lra; cbn [inf_signed pow_half]; auto.
Qed.

(** Absolute values of given numbers against given bounds. *)
Ltac scale_abs :=
  unfold Rabs;
  repeat match goal with
         | |- context [Rcase_abs ?x] => destruct (Rcase_abs x)
         end;
  lra.

Section DiscrepancyProperties.

Variable _distance : option distance_module.

(** X6: for two models of two atoms or more each, on a scale where no
    intermediate value of the program overflows or underflows (coordinates
    of size at most 1e50, distinct positions at least 1e-50 apart in one
    coordinate, fineness values between 1e-50 and 1e50), the pure-Python
    [dist] returns exactly 0 if and only if the two models occupy the same
    set of points (in any order, atoms of one place counted once). *)
Theorem dist_zero_iff_same_points o use_cython A B fA fB :
  _distance = None \/ use_cython = false ->
  atoms (self_of o) = array_of A ->
  atoms (other_of o) = array_of B ->
  (2 <= length A)%nat -> (2 <= length B)%nat ->
  fineness_value _distance (self_of o) = Ok (Fin fA) ->
  fineness_value _distance (other_of o) = Ok (Fin fB) ->
  well_scaled (A ++ B) -> scaled_fineness fA -> scaled_fineness fB ->
  (dist_value _distance o use_cython = Ok (Fin 0) <-> same_points A B).
Proof.
  intros Hpath HA HB H2A H2B HfA HfB _ [HA0 _] [HB0 _].
  assert (HA1 : fA <> 0) by lra. assert (HB1 : fB <> 0) by lra.
  rewrite (dist_finite_value _distance o use_cython A B fA fB) by assumption.
  rewrite <- (nsd_zero_iff A B fA fB) by auto using nonempty_of_two.
  split.
  - intros [= H]. exact H.
  - intros ->. reflexivity.
Qed.

End DiscrepancyProperties.

(** X7: a fineness of zero ruins the discrepancy without any exception:
    without the extension, when the fineness of one of the two models is 0
    (a single atom, or every atom doubled), [dist] returns [inf] or
    [nan], never a finite number. *)
Theorem dist_zero_fineness_not_finite o use_cython A B fA fB :
  atoms (self_of o) = array_of A ->
  atoms (other_of o) = array_of B ->
  A <> [] -> B <> [] ->
  fineness_value None (self_of o) = Ok (Fin fA) ->
  fineness_value None (other_of o) = Ok (Fin fB) ->
  fA = 0 \/ fB = 0 ->
  dist_value None o use_cython = Ok PInf
  \/ dist_value None o use_cython = Ok NaN.
Proof.
  intros HA HB HAne HBne HfA HfB Hz.
  rewrite (dist_python_path None o use_cython A B (Fin fA) (Fin fB))
    by auto.
  destruct (dist_expr_zero_fineness A B fA fB HAne HBne Hz) as [-> | ->]; auto.
Qed.


(** The fineness a model without stored value and without extension
    computes. *)
Lemma fineness_value_fresh m A :
  atoms m = array_of A -> A <> [] -> _fineness m = None ->
  fineness_value None m = Ok (Fin (rms_nearest A)).
Proof.
  intros Hm HA Hf. unfold fineness_value, fineness. rewrite Hf.
  rewrite (calc_fineness_nonempty None m true A) by auto.
  reflexivity.
Qed.

Lemma dist_value_fresh o use_cython A B :
  fresh_operands o A B -> A <> [] -> B <> [] ->
  dist_value None o use_cython
  = Ok (dist_expr A B (Fin (rms_nearest A)) (Fin (rms_nearest B))).
Proof.
  intros (HA & HB & HfA & HfB) HAne HBne.
  apply dist_python_path; auto using fineness_value_fresh.
Qed.

Lemma dist_value_no_atoms o use_cython A B :
  atoms (self_of o) = array_of A -> atoms (other_of o) = array_of B ->
  A = [] \/ B = [] ->
  dist_value None o use_cython = Raise IndexError.
Proof.
  intros HA HB He. unfold dist_value, dist. cbv zeta. rewrite HA, HB.
  destruct A as [|a A].
  - destruct use_cython; reflexivity.
  - destruct He as [He | ->]; [discriminate|].
    destruct use_cython; reflexivity.
Qed.



(** ** What a call of [dist] leaves behind *)

Lemma other_fineness_inv _distance o f o1 :
  other_fineness _distance o = Ok (f, o1) ->
  atoms (self_of o1) = atoms (self_of o)
  /\ atoms (other_of o1) = atoms (other_of o)
  /\ _fineness (other_of o1) = Some f
  /\ (forall g, _fineness (self_of o) = Some g -> _fineness (self_of o1) = Some g).
Proof.
  destruct o as [m|s t]; cbn [other_fineness self_of other_of];
    [destruct (fineness _distance m) as [[f0 m1]|e] eqn:E
    |destruct (fineness _distance t) as [[f0 m1]|e] eqn:E];
    cbn [bind fst snd]; try discriminate; intros [= <- <-];
    cbn [self_of other_of];
    pose proof (fineness_stored _ _ _ _ E) as Hs;
    destruct (fineness_cached _ _ _ _ E) as [_ Ha]; repeat split; auto.
  intros g Hg. unfold fineness in E. rewrite Hg in E.
  injection E as <- <-. exact Hg.
Qed.

Lemma self_fineness_inv _distance o f o1 :
  self_fineness _distance o = Ok (f, o1) ->
  atoms (self_of o1) = atoms (self_of o)
  /\ atoms (other_of o1) = atoms (other_of o)
  /\ _fineness (self_of o1) = Some f
  /\ (forall g, _fineness (other_of o) = Some g -> _fineness (other_of o1) = Some g).
Proof.
  destruct o as [m|s t]; cbn [self_fineness self_of other_of];
    [destruct (fineness _distance m) as [[f0 m1]|e] eqn:E
    |destruct (fineness _distance s) as [[f0 m1]|e] eqn:E];
    cbn [bind fst snd]; try discriminate; intros [= <- <-];
    cbn [self_of other_of];
    pose proof (fineness_stored _ _ _ _ E) as Hs;
    destruct (fineness_cached _ _ _ _ E) as [_ Ha]; repeat split; auto.
  intros g Hg. unfold fineness in E. rewrite Hg in E.
  injection E as <- <-. exact Hg.
Qed.

Lemma other_fineness_stored _distance o f :
  _fineness (other_of o) = Some f -> other_fineness _distance o = Ok (f, o).
Proof.
  destruct o as [m|s t]; cbn [other_fineness other_of]; intros H;
    unfold fineness; rewrite H; reflexivity.
Qed.

Lemma self_fineness_stored _distance o f :
  _fineness (self_of o) = Some f -> self_fineness _distance o = Ok (f, o).
Proof.
  destruct o as [m|s t]; cbn [self_fineness self_of]; intros H;
    unfold fineness; rewrite H; reflexivity.
Qed.

Lemma Ok_pair_inv {X Y} (x x' : X) (y y' : Y) :
  Ok (x, y) = Ok (x', y') -> x = x' /\ y = y'.
Proof. intros [= -> ->]. auto. Qed.

(** One step of a computation that ended well. *)
Ltac ok_step H :=
  match type of H with
  | bind ?c _ = Ok _ =>
      let E := fresh "E" in
      destruct c eqn:E; cbn [bind fst snd] in H; [|discriminate H]
  end.

(** A read of a fineness inside a computation that ended well. *)
Ltac read_step H :=
  match type of H with
  | bind (other_fineness ?dd ?o) _ = Ok _ =>
      first
        [ rewrite (other_fineness_stored dd o _ ltac:(eassumption)) in H;
          cbn [bind fst snd] in H
        | let R := fresh "R" in
          destruct (other_fineness dd o) as [[? ?]|] eqn:R;
          cbn [bind fst snd] in H; [|discriminate H];
          destruct (other_fineness_inv _ _ _ _ R) as (? & ? & ? & ?) ]
  | bind (self_fineness ?dd ?o) _ = Ok _ =>
      first
        [ rewrite (self_fineness_stored dd o _ ltac:(eassumption)) in H;
          cbn [bind fst snd] in H
        | let R := fresh "R" in
          destruct (self_fineness dd o) as [[? ?]|] eqn:R;
          cbn [bind fst snd] in H; [|discriminate H];
          destruct (self_fineness_inv _ _ _ _ R) as (? & ? & ? & ?) ]
  end.

Ltac python_steps H :=
  cbv zeta in H; do 7 ok_step H; do 2 read_step H; ok_step H;
  do 2 read_step H; apply Ok_pair_inv in H; destruct H as [<- <-].

(** X10: on its pure-Python path, a call of [dist] that returns leaves the
    atoms of both models as they were (its only effect is to store the
    fineness values it computed), and the same call made again returns
    the same number. *)
Theorem dist_repeatable _distance o use_cython d o' :
  _distance = None \/ use_cython = false ->
  dist _distance o use_cython = Ok (d, o') ->
  dist _distance o' use_cython = Ok (d, o')
  /\ atoms (self_of o') = atoms (self_of o)
  /\ atoms (other_of o') = atoms (other_of o).
Proof.
  intros Hpath H. unfold dist in H. destruct _distance as [dm|], use_cython.
  1: destruct Hpath; discriminate.
  all: python_steps H; (split; [|split; congruence]);
    unfold dist; cbv zeta;
    match goal with
    | |- context [other_fineness _ ?o1] =>
        replace (atoms (self_of o1)) with (atoms (self_of o)) by congruence;
        replace (atoms (other_of o1)) with (atoms (other_of o)) by congruence;
        repeat match goal with E : _ = Ok _ |- _ => rewrite E end;
        cbn [bind fst snd];
        repeat (first [ rewrite (other_fineness_stored _ o1 _ ltac:(eauto))
                      | rewrite (self_fineness_stored _ o1 _ ltac:(eauto)) ];
                cbn [bind fst snd]);
        reflexivity
    end.
Qed.

Lemma dist_zero_iff_same_points_witness :
  dist_value None (Distinct (model_of pair_x) (model_of pair_y)) false
  = Ok (Fin 0)
  <-> same_points pair_x pair_y.
Proof.
  apply (dist_zero_iff_same_points None
           (Distinct (model_of pair_x) (model_of pair_y)) false
           pair_x pair_y 1 1).
  - right. reflexivity.
  - reflexivity.
  - reflexivity.
  - simpl. lia.
  - simpl. lia.
  - exact fineness_pair_x.
  - exact fineness_pair_y.
  - split.
    + repeat constructor; cbn [rx ry rz fst snd]; scale_abs.
    + intros a b Ha Hb. cbn [app In pair_x pair_y] in Ha, Hb.
      repeat match goal with
             | H : _ \/ _ |- _ => destruct H as [<- | H]
             | H : False |- _ => destruct H
             end;
        first [ left; reflexivity
              | right; unfold apart; cbn [rx ry rz fst snd];
                first [ left; scale_abs
                      | right; left; scale_abs
                      | right; right; scale_abs ] ].
  - unfold scaled_fineness. lra.
  - unfold scaled_fineness. lra.
Defined.

Lemma dist_zero_fineness_not_finite_witness :
  dist_value None (Distinct (model_of pair_x) (model_of coincident)) false
  = Ok PInf
  \/ dist_value None (Distinct (model_of pair_x) (model_of coincident)) false
     = Ok NaN.
Proof.
  apply (dist_zero_fineness_not_finite
           (Distinct (model_of pair_x) (model_of coincident)) false
           pair_x coincident 1 0).
  - reflexivity.
  - reflexivity.
  - discriminate.
  - discriminate.
  - exact fineness_pair_x.
  - exact fineness_coincident.
  - right. reflexivity.
Defined.


Lemma dist_same_pair_x :
  dist None (Same (model_of pair_x)) true
  = Ok (Fin 0, Same (set_fineness (model_of pair_x) (Fin 1))).
Proof.
  unfold dist. cbv zeta. cbn [other_fineness self_fineness self_of other_of].
  change (atoms (model_of pair_x)) with (array_of pair_x).
  rewrite fineness_model_pair_x.
  cbn [bind fst snd column shape0 array_of pair_x map length].
  repeat (first
    [ rewrite (other_fineness_stored None
                 (Same (set_fineness (model_of pair_x) (Fin 1))) (Fin 1) eq_refl)
    | rewrite (self_fineness_stored None
                 (Same (set_fineness (model_of pair_x) (Fin 1))) (Fin 1) eq_refl) ];
    cbn [bind fst snd]).
  eval_f64. sqrt_arg 0. rewrite sqrt_0. reflexivity.
Qed.

Lemma dist_repeatable_witness :
  dist None (Same (set_fineness (model_of pair_x) (Fin 1))) true
  = Ok (Fin 0, Same (set_fineness (model_of pair_x) (Fin 1)))
  /\ atoms (self_of (Same (set_fineness (model_of pair_x) (Fin 1))))
     = atoms (self_of (Same (model_of pair_x)))
  /\ atoms (other_of (Same (set_fineness (model_of pair_x) (Fin 1))))
     = atoms (other_of (Same (model_of pair_x))).
Proof.
  apply (dist_repeatable None (Same (model_of pair_x)) true (Fin 0)
           (Same (set_fineness (model_of pair_x) (Fin 1)))).
  - left. reflexivity.
  - exact dist_same_pair_x.
Defined.


(* ================================================================== *)
(** * Further properties of the canonical position *)
(* ================================================================== *)

Lemma Rsum_plus {X} (f g : X -> R) (l : list X) :
  Rsum (map (fun x => f x + g x) l) = Rsum (map f l) + Rsum (map g l).
Proof.
  unfold Rsum. induction l as [|x l IH]; cbn [map fold_right]; [ring|].
  rewrite IH. ring.
Qed.

Lemma rmean_plus {X} (f g : X -> R) (l : list X) :
  rmean (map (fun x => f x + g x) l) = rmean (map f l) + rmean (map g l).
Proof. unfold rmean. rewrite !length_map, Rsum_plus. unfold Rdiv. ring. Qed.

Lemma rmean_scale {X} (c : R) (f : X -> R) (l : list X) :
  rmean (map (fun x => c * f x) l) = c * rmean (map f l).
Proof. unfold rmean. rewrite !length_map, Rsum_scale. unfold Rdiv. ring. Qed.

Lemma rmean_opp {X} (f : X -> R) (l : list X) :
  rmean (map (fun x => - f x) l) = - rmean (map f l).
Proof.
  replace (- rmean (map f l)) with (-1 * rmean (map f l)) by ring.
  rewrite <- rmean_scale. f_equal. apply map_ext. intros x. ring.
Qed.

Lemma rmean_shift {X} (f : X -> R) (c : R) (l : list X) :
  l <> [] -> rmean (map (fun x => f x + c) l) = rmean (map f l) + c.
Proof.
  intros Hl. rewrite rmean_plus. f_equal.
  unfold rmean. rewrite length_map.
  pose proof (INR_pos_of_nonempty l Hl) as Hn.
  replace (Rsum (map (fun _ => c) l)) with (INR (length l) * c).
  - field. lra.
  - unfold Rsum. clear Hl Hn. induction l as [|x l IH]; [cbn; ring|].
    cbn [map fold_right length]. rewrite <- IH, S_INR. ring.
Qed.

(** An entry of the tensor on points with real coordinates. *)
Lemma tensor_entry_real A cx cy cz i j :
  A <> [] ->
  tensor_entry (centered (map inj A) (Fin cx, Fin cy, Fin cz)) i j
  = Fin (rmean (map (fun a =>
           let d := (rx a - cx, ry a - cy, rz a - cz) in
           (if Nat.eqb i j then 1 else 0)
             * (rx d * rx d + ry d * ry d + rz d * rz d)
           - match i with 0%nat => rx d | 1%nat => ry d | _ => rz d end
             * match j with 0%nat => rx d | 1%nat => ry d | _ => rz d end) A)).
Proof.
  intros HA. unfold tensor_entry, centered. rewrite !map_map, !length_map.
  set (h := fun a : rpoint =>
           let d := (rx a - cx, ry a - cy, rz a - cz) in
           (if Nat.eqb i j then 1 else 0)
             * (rx d * rx d + ry d * ry d + rz d * rz d)
           - match i with 0%nat => rx d | 1%nat => ry d | _ => rz d end
             * match j with 0%nat => rx d | 1%nat => ry d | _ => rz d end).
  rewrite (map_ext _ (fun a => Fin (h a))).
  - rewrite <- (map_map h Fin), fsum_Fin. unfold of_nat.
    rewrite div_Fin; [unfold rmean; now rewrite length_map|].
    apply Rgt_not_eq. now apply INR_pos_of_nonempty.
  - intros a. unfold h, delta_kron, inj, coord, fsum.
    destruct (Nat.eqb i j), i as [|[|i]], j as [|[|j]];
      cbn [px py pz fst snd rx ry rz fold_left sub opp add sq mul];
      apply f_equal; ring.
Qed.

Section CanonicalSteps.

Variable eigh : matrix -> result (list float64 * matrix).

Lemma tensor_points A c :
  A <> [] -> tensor (centered (map inj A) (inj c)) = inertia A c.
Proof.
  intros HA. destruct c as [[cx cy] cz].
  change (inj (cx, cy, cz)) with (Fin cx, Fin cy, Fin cz).
  unfold tensor, inertia, moment. rewrite !tensor_entry_real by assumption.
  cbn [Nat.eqb rx ry rz fst snd].
  rewrite <- !rmean_plus, <- !rmean_opp.
  repeat match goal with
         | |- (_ :: _) = (_ :: _) => apply f_equal2
         | |- Fin _ = Fin _ => apply f_equal
         | |- rmean _ = rmean _ => apply f_equal
         | |- map _ _ = map _ _ => apply map_ext; intros a; ring
         end; reflexivity.
Qed.

Lemma inertiatensor_array m A c :
  atoms m = array_of A -> A <> [] -> com m = ComVector (inj c) ->
  inertiatensor m
  = Ok (set_inertensor m (tensor (centered (map inj A) (inj c)))).
Proof.
  intros Hm HA Hc. unfold inertiatensor. rewrite Hm, Hc. unfold array_of.
  destruct A as [|a0 A0]; [congruence|reflexivity].
Qed.


(** X12: the three steps must be called in their order.  On a model that
    holds atoms and on which nothing was computed yet, [inertiatensor]
    raises ValueError and [canonical_position] raises TypeError; after
    [centroid] alone, [canonical_position] raises LinAlgError. *)
Theorem canonical_steps_in_order m p rows :
  atoms m = NdArray (p :: rows) -> com m = ComUnset -> inertensor m = None ->
  inertiatensor m = Raise ValueError
  /\ canonical_position eigh m = Raise TypeError
  /\ (exists m1, centroid m = Ok m1
                 /\ canonical_position eigh m1 = Raise LinAlgError).
Proof.
  intros Ha Hc Hi. split; [|split].
  - unfold inertiatensor. now rewrite Ha, Hc.
  - unfold canonical_position, canonical_translate. now rewrite Ha, Hc.
  - unfold centroid. rewrite Ha. eexists. split; [reflexivity|].
    unfold canonical_position, canonical_translate, canonical_rotate.
    cbn [atoms com inertensor set_com]. rewrite Ha, Hi. reflexivity.
Qed.

End CanonicalSteps.

Ltac inv_Forall2 :=
  repeat match goal with
         | H : Forall2 _ (_ :: _) (_ :: _) |- _ =>
             apply Forall2_cons_iff in H; destruct H
         | H : Forall2 _ [] [] |- _ => clear H
         end.

Lemma ascending3 w :
  length w = 3%nat -> ascending w ->
  exists w0 w1 w2, w = [Fin w0; Fin w1; Fin w2] /\ w0 <= w1 /\ w1 <= w2.
Proof.
  intros Hl Ha. destruct w as [|[a| | |] [|[b| | |] [|[c| | |] [|? ?]]]];
    try discriminate; cbn in Ha; try tauto.
  exists a, b, c. repeat split; tauto.
Qed.

Lemma eigen_decomposition_inv t w v :
  eigen_decomposition t (w, v) ->
  exists w0 w1 w2 v00 v01 v02 v10 v11 v12 v20 v21 v22,
    w = [Fin w0; Fin w1; Fin w2]
    /\ v = [[Fin v00; Fin v01; Fin v02];
            [Fin v10; Fin v11; Fin v12];
            [Fin v20; Fin v21; Fin v22]]
    /\ w0 <= w1 /\ w1 <= w2
    /\ v00 * v00 + v10 * v10 + v20 * v20 = 1
    /\ v01 * v01 + v11 * v11 + v21 * v21 = 1
    /\ v02 * v02 + v12 * v12 + v22 * v22 = 1
    /\ v00 * v01 + v10 * v11 + v20 * v21 = 0
    /\ v00 * v02 + v10 * v12 + v20 * v22 = 0
    /\ v01 * v02 + v11 * v12 + v21 * v22 = 0.
Proof.
  intros (Hl & Hv & Ha & Ho & _). cbn [fst snd] in *.
  destruct (ascending3 w Hl Ha) as (w0 & w1 & w2 & -> & H01 & H12).
  destruct (finite_matrix33 v Hv)
    as (v00 & v01 & v02 & v10 & v11 & v12 & v20 & v21 & v22 & ->).
  exists w0, w1, w2, v00, v01, v02, v10, v11, v12, v20, v21, v22.
  unfold same_entries in Ho. cbn in Ho. inv_Forall2.
  repeat split; try assumption; lra.
Qed.

(** The rotation [canonical_rotate] builds from an eigen-decomposition:
    the eigenvectors as rows. *)
Lemma canonical_rotate_of_decomposition eigh m t w0 w1 w2
      v00 v01 v02 v10 v11 v12 v20 v21 v22 :
  inertensor m = Some t ->
  eigh t = Ok ([Fin w0; Fin w1; Fin w2],
               [[Fin v00; Fin v01; Fin v02];
                [Fin v10; Fin v11; Fin v12];
                [Fin v20; Fin v21; Fin v22]]) ->
  w0 <= w1 -> w1 <= w2 ->
  canonical_rotate eigh m
  = Ok [[Fin v00; Fin v10; Fin v20; Fin 0];
        [Fin v01; Fin v11; Fin v21; Fin 0];
        [Fin v02; Fin v12; Fin v22; Fin 0];
        [Fin 0; Fin 0; Fin 0; Fin 1]].
Proof.
  intros Ht He H01 H12. unfold canonical_rotate. rewrite Ht, He.
  cbn [bind fst snd].
  unfold argsort. cbn [length seq fold_left insert_index nth].
  rewrite (sorts_before_ge w1 w0) by lra. cbn [insert_index nth].
  rewrite (sorts_before_ge w2 w0) by lra. cbn [insert_index nth].
  rewrite (sorts_before_ge w2 w1) by lra. reflexivity.
Qed.

(** The atoms in homogeneous coordinates, after the canonical
    translation. *)
Lemma canonical_position_points eigh m A c :
  atoms m = array_of A -> A <> [] -> com m = ComVector (inj c) ->
  canonical_position eigh m
  = (rot <- canonical_rotate eigh m ;;
     Ok (set_atoms m (NdArray (rows_of (transpose (delete_row 3
           (dot rot (map (fun f => map f A)
                         [fun a => Fin (rx a - rx c);
                          fun a => Fin (ry a - ry c);
                          fun a => Fin (rz a - rz c);
                          fun _ : rpoint => Fin 1])))))))).
Proof.
  intros Hm HA Hcom. unfold canonical_position. rewrite Hm. unfold array_of.
  destruct A as [|a0 A0]; [congruence|].
  change (map inj (a0 :: A0)) with (inj a0 :: map inj A0). cbv iota beta.
  change (inj a0 :: map inj A0) with (map inj (a0 :: A0)).
  set (A := a0 :: A0) in *.
  unfold canonical_translate. rewrite Hcom. cbn [bind px py pz fst snd opp inj].
  rewrite repeat_as_map, !map_map.
  change ([map (fun x => px (inj x)) A; map (fun x => py (inj x)) A;
           map (fun x => pz (inj x)) A] ++ [map (fun _ => Fin 1) A])
    with (map (fun f => map f A)
              [fun x => px (inj x); fun x => py (inj x); fun x => pz (inj x);
               fun _ : rpoint => Fin 1]).
  rewrite dot_rows by discriminate.
  cbn [map]. 
  replace (map (fun a : rpoint => fsum (map2 mul [Fin 1; Fin 0; Fin 0; Fin (- rx c)]
                  [px (inj a); py (inj a); pz (inj a); Fin 1])) A)
    with (map (fun a => Fin (rx a - rx c)) A)
    by (apply map_ext; intros a; cbn; apply f_equal; ring).
  replace (map (fun a : rpoint => fsum (map2 mul [Fin 0; Fin 1; Fin 0; Fin (- ry c)]
                  [px (inj a); py (inj a); pz (inj a); Fin 1])) A)
    with (map (fun a => Fin (ry a - ry c)) A)
    by (apply map_ext; intros a; cbn; apply f_equal; ring).
  replace (map (fun a : rpoint => fsum (map2 mul [Fin 0; Fin 0; Fin 1; Fin (- rz c)]
                  [px (inj a); py (inj a); pz (inj a); Fin 1])) A)
    with (map (fun a => Fin (rz a - rz c)) A)
    by (apply map_ext; intros a; cbn; apply f_equal; ring).
  replace (map (fun a : rpoint => fsum (map2 mul [Fin 0; Fin 0; Fin 0; Fin 1]
                  [px (inj a); py (inj a); pz (inj a); Fin 1])) A)
    with (map (fun _ : rpoint => Fin 1) A)
    by (apply map_ext; intros a; cbn; apply f_equal; ring).
  reflexivity.
Qed.

Lemma canonical_position_moved eigh m A c r0 r1 r2 :
  atoms m = array_of A -> A <> [] -> com m = ComVector (inj c) ->
  canonical_rotate eigh m
  = Ok [[Fin (rx r0); Fin (ry r0); Fin (rz r0); Fin 0];
        [Fin (rx r1); Fin (ry r1); Fin (rz r1); Fin 0];
        [Fin (rx r2); Fin (ry r2); Fin (rz r2); Fin 0];
        [Fin 0; Fin 0; Fin 0; Fin 1]] ->
  canonical_position eigh m
  = Ok (set_atoms m (array_of (map (moved r0 r1 r2 c) A))).
Proof.
  intros Hm HA Hcom Hrot.
  rewrite (canonical_position_points eigh m A c Hm HA Hcom), Hrot.
  cbn [bind]. rewrite dot_rows by discriminate.
  cbn [map delete_row firstn skipn app].
  match goal with
  | |- context [transpose [map ?f0 A; map ?f1 A; map ?f2 A]] =>
      change [map f0 A; map f1 A; map f2 A]
        with (map (fun f => map f A) [f0; f1; f2])
  end.
  rewrite transpose_rows by discriminate.
  unfold rows_of, array_of. rewrite !map_map.
  do 3 f_equal. apply map_ext. intros a.
  cbn. unfold inj, moved. cbn [rx ry rz fst snd].
  repeat match goal with |- (_, _) = (_, _) => apply f_equal2 end;
    apply f_equal; ring.
Qed.

Lemma columns_orthonormal_isometry
      (v00 v01 v02 v10 v11 v12 v20 v21 v22 : R) c :
  v00 * v00 + v10 * v10 + v20 * v20 = 1 ->
  v01 * v01 + v11 * v11 + v21 * v21 = 1 ->
  v02 * v02 + v12 * v12 + v22 * v22 = 1 ->
  v00 * v01 + v10 * v11 + v20 * v21 = 0 ->
  v00 * v02 + v10 * v12 + v20 * v22 = 0 ->
  v01 * v02 + v11 * v12 + v21 * v22 = 0 ->
  isometry (moved (v00, v10, v20) (v01, v11, v21) (v02, v12, v22) c).
Proof.
  intros H0 H1 H2 H3 H4 H5 a b. unfold euclid, moved.
  cbn [rx ry rz fst snd]. f_equal. unfold Rsqr.
  set (x := rx a - rx b). set (y := ry a - ry b). set (z := rz a - rz b).
  transitivity ((v00 * x + v10 * y + v20 * z) * (v00 * x + v10 * y + v20 * z)
                + (v01 * x + v11 * y + v21 * z) * (v01 * x + v11 * y + v21 * z)
                + (v02 * x + v12 * y + v22 * z) * (v02 * x + v12 * y + v22 * z)).
  - unfold x, y, z. ring.
  - clearbody x y z. nsatz.
Qed.

Lemma columns_orthonormal_det
      (v00 v01 v02 v10 v11 v12 v20 v21 v22 : R) :
  v00 * v00 + v10 * v10 + v20 * v20 = 1 ->
  v01 * v01 + v11 * v11 + v21 * v21 = 1 ->
  v02 * v02 + v12 * v12 + v22 * v22 = 1 ->
  v00 * v01 + v10 * v11 + v20 * v21 = 0 ->
  v00 * v02 + v10 * v12 + v20 * v22 = 0 ->
  v01 * v02 + v11 * v12 + v21 * v22 = 0 ->
  let d := v00 * (v11 * v22 - v21 * v12) - v10 * (v01 * v22 - v21 * v02)
           + v20 * (v01 * v12 - v11 * v02) in
  d = 1 \/ d = -1.
Proof.
  intros H0 H1 H2 H3 H4 H5 d.
  assert (Hd : d * d = 1) by (unfold d; nsatz).
  assert (Hf : (d - 1) * (d + 1) = 0) by (ring_simplify; lra).
  apply Rmult_integral in Hf. destruct Hf; [left|right]; lra.
Qed.

Section CanonicalFrame.

Variable eigh : matrix -> result (list float64 * matrix).

Lemma canonical_position_by_eigenvectors m A c t wv :
  atoms m = array_of A -> A <> [] -> com m = ComVector (inj c) ->
  inertensor m = Some t -> eigh t = Ok wv -> eigen_decomposition t wv ->
  exists r0 r1 r2,
    isometry (moved r0 r1 r2 c)
    /\ canonical_position eigh m
       = Ok (set_atoms m (array_of (map (moved r0 r1 r2 c) A))).
Proof.
  intros Hm HA Hcom Ht He Hd. destruct wv as [w v].
  destruct (eigen_decomposition_inv t w v Hd)
    as (w0 & w1 & w2 & v00 & v01 & v02 & v10 & v11 & v12 & v20 & v21 & v22
        & -> & -> & H01 & H12 & E0 & E1 & E2 & E3 & E4 & E5).
  exists (v00, v10, v20), (v01, v11, v21), (v02, v12, v22). split.
  - now apply columns_orthonormal_isometry.
  - apply canonical_position_moved; try assumption.
    cbn [rx ry rz fst snd].
    now apply (canonical_rotate_of_decomposition eigh m t w0 w1 w2).
Qed.

(** X13: [canonical_position] is a rigid motion.  When [eigh] returns an
    eigen-decomposition of the stored inertia tensor (orthonormal
    eigenvectors, eigenvalues ascending), the call replaces the atoms [A]
    by their images through a map that keeps every distance between two
    points, and changes nothing else of the model. *)
Theorem canonical_position_rigid m A c t wv :
  atoms m = array_of A -> A <> [] -> com m = ComVector (inj c) ->
  inertensor m = Some t -> eigh t = Ok wv -> eigen_decomposition t wv ->
  exists g, isometry g
            /\ canonical_position eigh m = Ok (set_atoms m (array_of (map g A))).
Proof.
  intros Hm HA Hcom Ht He Hd.
  destruct (canonical_position_by_eigenvectors m A c t wv Hm HA Hcom Ht He Hd)
    as (r0 & r1 & r2 & Hiso & Hpos).
  exists (moved r0 r1 r2 c). split; assumption.
Qed.

(** X14: the canonical position keeps the fineness.  When [eigh] returns
    an eigen-decomposition of the stored inertia tensor, the pure-Python
    [_calc_fineness] returns the same number on the model after
    [canonical_position] as before it. *)
Theorem canonical_position_keeps_fineness _distance use_cython m m' A c t wv :
  _distance = None \/ use_cython = false ->
  atoms m = array_of A -> A <> [] -> com m = ComVector (inj c) ->
  inertensor m = Some t -> eigh t = Ok wv -> eigen_decomposition t wv ->
  canonical_position eigh m = Ok m' ->
  _calc_fineness _distance m' use_cython = _calc_fineness _distance m use_cython.
Proof.
  intros Hpath Hm HA Hcom Ht He Hd Hpos.
  destruct (canonical_position_by_eigenvectors m A c t wv Hm HA Hcom Ht He Hd)
    as (r0 & r1 & r2 & Hg & Hpos').
  set (g := moved r0 r1 r2 c) in *.
  rewrite Hpos' in Hpos. injection Hpos as <-.
  rewrite (calc_fineness_nonempty _distance m use_cython A) by assumption.
  rewrite (calc_fineness_nonempty _distance _ use_cython (map g A));
    [|assumption|reflexivity|destruct A; [congruence|discriminate]].
  rewrite (rms_nearest_similarity 1 g A) by (lra || now apply isometry_similarity).
  now rewrite Rmult_1_l.
Qed.

(** X15: [canonical_translate] returns the 4x4 matrix of the translation
    that takes the centre of mass to the origin: on the homogeneous
    coordinates of a point [a] its product is [a - c], with 1 kept as
    fourth coordinate. *)
Theorem canonical_translate_to_origin m c :
  com m = ComVector (inj c) ->
  exists trans,
    canonical_translate m = Ok trans
    /\ forall a,
         dot trans [[Fin (rx a)]; [Fin (ry a)]; [Fin (rz a)]; [Fin 1]]
         = [[Fin (rx a - rx c)]; [Fin (ry a - ry c)]; [Fin (rz a - rz c)];
            [Fin 1]].
Proof.
  intros Hcom. unfold canonical_translate. rewrite Hcom.
  eexists. split; [reflexivity|]. intros a. cbn.
  repeat match goal with
         | |- (_ :: _) = (_ :: _) => apply f_equal2
         | |- Fin _ = Fin _ => apply f_equal
         end; try reflexivity; ring.
Qed.

(** X16: the matrix of [canonical_rotate] is orthogonal.  When [eigh]
    returns an eigen-decomposition of the stored inertia tensor, the
    determinant of the 4x4 array returned is 1 or -1. *)
Theorem canonical_rotate_determinant_unit m t wv :
  inertensor m = Some t -> eigh t = Ok wv -> eigen_decomposition t wv ->
  exists rot, canonical_rotate eigh m = Ok rot
              /\ (det rot = Fin 1 \/ det rot = Fin (-1)).
Proof.
  intros Ht He Hd. destruct wv as [w v].
  destruct (eigen_decomposition_inv t w v Hd)
    as (w0 & w1 & w2 & v00 & v01 & v02 & v10 & v11 & v12 & v20 & v21 & v22
        & -> & -> & H01 & H12 & E0 & E1 & E2 & E3 & E4 & E5).
  exists [[Fin v00; Fin v10; Fin v20; Fin 0];
          [Fin v01; Fin v11; Fin v21; Fin 0];
          [Fin v02; Fin v12; Fin v22; Fin 0];
          [Fin 0; Fin 0; Fin 0; Fin 1]].
  split.
  - apply (canonical_rotate_of_decomposition eigh m t w0 w1 w2); assumption.
  - pose proof (columns_orthonormal_det v00 v01 v02 v10 v11 v12 v20 v21 v22
                  E0 E1 E2 E3 E4 E5) as Hdet.
    cbv zeta in Hdet. unfold det. cbn.
    destruct Hdet as [Hdet | Hdet]; [left | right]; apply f_equal;
      (etransitivity; [|exact Hdet]); ring.
Qed.

End CanonicalFrame.

(** ** The canonical position forgets where the model was *)

Lemma centre_translate t A :
  A <> [] -> centre (map (translate t) A) = translate t (centre A).
Proof.
  intros HA. unfold centre, translate. cbn [rx ry rz fst snd].
  rewrite !map_map. cbn [rx ry rz fst snd].
  rewrite !rmean_shift by assumption. reflexivity.
Qed.

Lemma inertia_translate t A c :
  inertia (map (translate t) A) (translate t c) = inertia A c.
Proof.
  unfold inertia, moment. rewrite !map_map.
  repeat match goal with
         | |- (_ :: _) = (_ :: _) => apply f_equal2
         | |- Fin _ = Fin _ => apply f_equal
         | |- (_ + _)%R = (_ + _)%R => apply f_equal2
         | |- (- _)%R = (- _)%R => apply f_equal
         | |- rmean _ = rmean _ => apply f_equal
         | |- map _ _ = map _ _ =>
             apply map_ext; intros a; unfold translate;
             cbn [rx ry rz fst snd]; ring
         end; reflexivity.
Qed.

Lemma canonical_atoms_points eigh m A :
  atoms m = array_of A -> A <> [] ->
  canonical_atoms eigh m
  = (rot <- canonical_rotate eigh (set_inertensor m (inertia A (centre A))) ;;
     Ok (NdArray (rows_of (transpose (delete_row 3
           (dot rot (map (fun f => map f A)
                         [fun a => Fin (rx a - rx (centre A));
                          fun a => Fin (ry a - ry (centre A));
                          fun a => Fin (rz a - rz (centre A));
                          fun _ : rpoint => Fin 1]))))))).
Proof.
  intros Hm HA. unfold canonical_atoms.
  rewrite (centroid_array m A Hm HA). cbn [bind].
  change (ComVector (Fin (rmean (map rx A)), Fin (rmean (map ry A)),
                     Fin (rmean (map rz A))))
    with (ComVector (inj (centre A))).
  rewrite (inertiatensor_array (set_com m (ComVector (inj (centre A)))) A
             (centre A)) by (assumption || reflexivity).
  rewrite (tensor_points A (centre A)) by assumption.
  cbn [bind].
  rewrite (canonical_position_points eigh _ A (centre A))
    by (assumption || reflexivity).
  unfold canonical_rotate. cbn [inertensor set_inertensor set_com].
  destruct (eigh (inertia A (centre A))) as [wv|e]; reflexivity.
Qed.

Section CanonicalTranslation.

Variable eigh : matrix -> result (list float64 * matrix).

(** X17: the canonical position forgets where the model was.  For two
    models whose atoms differ by a translation, the three steps
    [centroid], [inertiatensor], [canonical_position] end with the same
    atoms, or with the same exception, whatever [eigh] returns. *)
Theorem canonical_atoms_translation m m' A t :
  atoms m = array_of A -> atoms m' = array_of (map (translate t) A) ->
  canonical_atoms eigh m' = canonical_atoms eigh m.
Proof.
  intros Hm Hm'. destruct A as [|a0 A0] eqn:EA.
  - unfold canonical_atoms, centroid. rewrite Hm, Hm'. cbn [array_of map bind].
    unfold inertiatensor. cbn [atoms com set_com]. rewrite Hm, Hm'.
    reflexivity.
  - rewrite <- EA in *.
    assert (HA : A <> []) by (rewrite EA; discriminate).
    assert (HA' : map (translate t) A <> []) by (rewrite EA; discriminate).
    rewrite (canonical_atoms_points eigh m A Hm HA).
    rewrite (canonical_atoms_points eigh m' (map (translate t) A) Hm' HA').
    rewrite (centre_translate t A HA), inertia_translate.
    unfold canonical_rotate. cbn [inertensor set_inertensor].
    cbn [map]. rewrite !map_map.
    replace (map (fun x => Fin (rx (translate t x) - rx (translate t (centre A)))) A)
      with (map (fun a => Fin (rx a - rx (centre A))) A)
      by (apply map_ext; intros a; unfold translate; cbn [rx ry rz fst snd];
          apply f_equal; ring).
    replace (map (fun x => Fin (ry (translate t x) - ry (translate t (centre A)))) A)
      with (map (fun a => Fin (ry a - ry (centre A))) A)
      by (apply map_ext; intros a; unfold translate; cbn [rx ry rz fst snd];
          apply f_equal; ring).
    replace (map (fun x => Fin (rz (translate t x) - rz (translate t (centre A)))) A)
      with (map (fun a => Fin (rz a - rz (centre A))) A)
      by (apply map_ext; intros a; unfold translate; cbn [rx ry rz fst snd];
          apply f_equal; ring).
    reflexivity.
Qed.

End CanonicalTranslation.

(** X18: on a model holding real points [A], not empty, [centroid] stores
    the mean of the points, and the centre of mass moves with the model:
    for the atoms translated by [t] it stores the mean translated by
    [t]. *)
Theorem centroid_moves_with_model m m' A t :
  atoms m = array_of A -> atoms m' = array_of (map (translate t) A) ->
  A <> [] ->
  centroid m = Ok (set_com m (ComVector (inj (centre A))))
  /\ centroid m' = Ok (set_com m' (ComVector (inj (translate t (centre A))))).
Proof.
  intros Hm Hm' HA. split.
  - apply (centroid_array m A Hm HA).
  - rewrite <- (centre_translate t A HA).
    apply (centroid_array m' (map (translate t) A) Hm').
    destruct A; [congruence|discriminate].
Qed.

(** ** The canonical position aligns the principal axes *)

Lemma principal_diagonal
  (p0 p1 p2 q0 q1 q2 r0 r1 r2 wp Mxx Myy Mzz Mxy Mxz Myz : R) :
  p0 * p0 + p1 * p1 + p2 * p2 = 1 ->
  q0 * q0 + q1 * q1 + q2 * q2 = 1 ->
  r0 * r0 + r1 * r1 + r2 * r2 = 1 ->
  p0 * q0 + p1 * q1 + p2 * q2 = 0 ->
  p0 * r0 + p1 * r1 + p2 * r2 = 0 ->
  q0 * r0 + q1 * r1 + q2 * r2 = 0 ->
  (Myy + Mzz) * p0 + (- Mxy) * p1 + (- Mxz) * p2 = p0 * wp ->
  (- Mxy) * p0 + (Mxx + Mzz) * p1 + (- Myz) * p2 = p1 * wp ->
  (- Mxz) * p0 + (- Myz) * p1 + (Mxx + Myy) * p2 = p2 * wp ->
  (q0 * q0 * Mxx + q1 * q1 * Myy + q2 * q2 * Mzz
   + (q0 * q1 + q1 * q0) * Mxy + (q0 * q2 + q2 * q0) * Mxz
   + (q1 * q2 + q2 * q1) * Myz)
  + (r0 * r0 * Mxx + r1 * r1 * Myy + r2 * r2 * Mzz
     + (r0 * r1 + r1 * r0) * Mxy + (r0 * r2 + r2 * r0) * Mxz
     + (r1 * r2 + r2 * r1) * Myz)
  = wp.
Proof. intros. nsatz. Qed.

Lemma principal_off_diagonal
  (p0 p1 p2 q0 q1 q2 wp Mxx Myy Mzz Mxy Mxz Myz : R) :
  p0 * q0 + p1 * q1 + p2 * q2 = 0 ->
  (Myy + Mzz) * p0 + (- Mxy) * p1 + (- Mxz) * p2 = p0 * wp ->
  (- Mxy) * p0 + (Mxx + Mzz) * p1 + (- Myz) * p2 = p1 * wp ->
  (- Mxz) * p0 + (- Myz) * p1 + (Mxx + Myy) * p2 = p2 * wp ->
  p0 * q0 * Mxx + p1 * q1 * Myy + p2 * q2 * Mzz
  + (p0 * q1 + p1 * q0) * Mxy + (p0 * q2 + p2 * q0) * Mxz
  + (p1 * q2 + p2 * q1) * Myz
  = 0.
Proof. intros. nsatz. Qed.

(** The second moments of the atoms after a linear map, from those
    before. *)
Lemma moment_bilinear A c p q :
  rmean (map (fun a =>
                (rx p * (rx a - rx c) + ry p * (ry a - ry c) + rz p * (rz a - rz c))
                * (rx q * (rx a - rx c) + ry q * (ry a - ry c) + rz q * (rz a - rz c)))
             A)
  = rx p * rx q * moment A c rx rx + ry p * ry q * moment A c ry ry
    + rz p * rz q * moment A c rz rz
    + (rx p * ry q + ry p * rx q) * moment A c rx ry
    + (rx p * rz q + rz p * rx q) * moment A c rx rz
    + (ry p * rz q + rz p * ry q) * moment A c ry rz.
Proof.
  unfold moment, rmean. rewrite !length_map.
  assert (H : Rsum (map (fun a =>
                (rx p * (rx a - rx c) + ry p * (ry a - ry c) + rz p * (rz a - rz c))
                * (rx q * (rx a - rx c) + ry q * (ry a - ry c) + rz q * (rz a - rz c)))
             A)
    = rx p * rx q * Rsum (map (fun a => (rx a - rx c) * (rx a - rx c)) A)
      + ry p * ry q * Rsum (map (fun a => (ry a - ry c) * (ry a - ry c)) A)
      + rz p * rz q * Rsum (map (fun a => (rz a - rz c) * (rz a - rz c)) A)
      + (rx p * ry q + ry p * rx q)
        * Rsum (map (fun a => (rx a - rx c) * (ry a - ry c)) A)
      + (rx p * rz q + rz p * rx q)
        * Rsum (map (fun a => (rx a - rx c) * (rz a - rz c)) A)
      + (ry p * rz q + rz p * ry q)
        * Rsum (map (fun a => (ry a - ry c) * (rz a - rz c)) A)).
  { unfold Rsum. induction A as [|a A IH]; cbn [map fold_right]; [ring|].
    rewrite IH. ring. }
  rewrite H. unfold Rdiv. ring.
Qed.

Lemma moment_moved A c r0 r1 r2 (i j : nat) :
  let row k := match k with 0%nat => r0 | 1%nat => r1 | _ => r2 end in
  let sel k := match k with 0%nat => rx | 1%nat => ry | _ => rz end in
  moment (map (moved r0 r1 r2 c) A) (0, 0, 0) (sel i) (sel j)
  = rx (row i) * rx (row j) * moment A c rx rx
    + ry (row i) * ry (row j) * moment A c ry ry
    + rz (row i) * rz (row j) * moment A c rz rz
    + (rx (row i) * ry (row j) + ry (row i) * rx (row j)) * moment A c rx ry
    + (rx (row i) * rz (row j) + rz (row i) * rx (row j)) * moment A c rx rz
    + (ry (row i) * rz (row j) + rz (row i) * ry (row j)) * moment A c ry rz.
Proof.
  intros row sel. rewrite <- moment_bilinear. unfold moment at 1.
  rewrite map_map. f_equal. apply map_ext. intros a.
  unfold row, sel, moved.
  destruct i as [|[|i]], j as [|[|j]]; cbn [rx ry rz fst snd]; ring.
Qed.

Lemma centre_moved A r0 r1 r2 :
  A <> [] -> centre (map (moved r0 r1 r2 (centre A)) A) = (0, 0, 0).
Proof.
  intros HA. unfold centre at 1. rewrite !map_map.
  unfold moved, centre. cbn [rx ry rz fst snd].
  rewrite !rmean_centred_zero by assumption. reflexivity.
Qed.

(** The equations [t v = v diag(w)] for the inertia tensor. *)
Lemma eigen_equations A c w0 w1 w2 v00 v01 v02 v10 v11 v12 v20 v21 v22 :
  eigen_decomposition (inertia A c)
    ([Fin w0; Fin w1; Fin w2],
     [[Fin v00; Fin v01; Fin v02];
      [Fin v10; Fin v11; Fin v12];
      [Fin v20; Fin v21; Fin v22]]) ->
  let Mxx := moment A c rx rx in let Myy := moment A c ry ry in
  let Mzz := moment A c rz rz in let Mxy := moment A c rx ry in
  let Mxz := moment A c rx rz in let Myz := moment A c ry rz in
  ((Myy + Mzz) * v00 + (- Mxy) * v10 + (- Mxz) * v20 = v00 * w0
   /\ (- Mxy) * v00 + (Mxx + Mzz) * v10 + (- Myz) * v20 = v10 * w0
   /\ (- Mxz) * v00 + (- Myz) * v10 + (Mxx + Myy) * v20 = v20 * w0)
  /\ ((Myy + Mzz) * v01 + (- Mxy) * v11 + (- Mxz) * v21 = v01 * w1
      /\ (- Mxy) * v01 + (Mxx + Mzz) * v11 + (- Myz) * v21 = v11 * w1
      /\ (- Mxz) * v01 + (- Myz) * v11 + (Mxx + Myy) * v21 = v21 * w1)
  /\ ((Myy + Mzz) * v02 + (- Mxy) * v12 + (- Mxz) * v22 = v02 * w2
      /\ (- Mxy) * v02 + (Mxx + Mzz) * v12 + (- Myz) * v22 = v12 * w2
      /\ (- Mxz) * v02 + (- Myz) * v12 + (Mxx + Myy) * v22 = v22 * w2).
Proof.
  intros (_ & _ & _ & _ & He). cbn [fst snd] in He. unfold inertia in He.
  intros Mxx Myy Mzz Mxy Mxz Myz.
  fold Mxx Myy Mzz Mxy Mxz Myz in He. clearbody Mxx Myy Mzz Mxy Mxz Myz.
  unfold same_entries in He. cbn in He. inv_Forall2.
  repeat split; lra.
Qed.

Lemma inertia_moved_diagonal A w v :
  A <> [] ->
  eigen_decomposition (inertia A (centre A)) (w, v) ->
  exists r0 r1 r2 w0 w1 w2,
    w = [Fin w0; Fin w1; Fin w2] /\ w0 <= w1 /\ w1 <= w2
    /\ v = [[Fin (rx r0); Fin (rx r1); Fin (rx r2)];
            [Fin (ry r0); Fin (ry r1); Fin (ry r2)];
            [Fin (rz r0); Fin (rz r1); Fin (rz r2)]]
    /\ inertia (map (moved r0 r1 r2 (centre A)) A) (0, 0, 0) = diag w.
Proof.
  intros HA Hd.
  destruct (eigen_decomposition_inv _ w v Hd)
    as (w0 & w1 & w2 & v00 & v01 & v02 & v10 & v11 & v12 & v20 & v21 & v22
        & -> & -> & H01 & H12 & E0 & E1 & E2 & E3 & E4 & E5).
  pose proof (eigen_equations A (centre A) w0 w1 w2
                v00 v01 v02 v10 v11 v12 v20 v21 v22 Hd) as Heq.
  cbv zeta in Heq.
  destruct Heq as ((P0 & P1 & P2) & (Q0 & Q1 & Q2) & (R0 & R1 & R2)).
  exists (v00, v10, v20), (v01, v11, v21), (v02, v12, v22), w0, w1, w2.
  cbn [rx ry rz fst snd]. repeat split; try assumption.
  set (c := centre A) in *.
  set (r0 := (v00, v10, v20)). set (r1 := (v01, v11, v21)).
  set (r2 := (v02, v12, v22)).
  pose proof (moment_moved A c r0 r1 r2 0 0) as Mxx'.
  pose proof (moment_moved A c r0 r1 r2 1 1) as Myy'.
  pose proof (moment_moved A c r0 r1 r2 2 2) as Mzz'.
  pose proof (moment_moved A c r0 r1 r2 0 1) as Mxy'.
  pose proof (moment_moved A c r0 r1 r2 0 2) as Mxz'.
  pose proof (moment_moved A c r0 r1 r2 1 2) as Myz'.
  cbv zeta in Mxx', Myy', Mzz', Mxy', Mxz', Myz'.
  unfold r0, r1, r2 in Mxx', Myy', Mzz', Mxy', Mxz', Myz'.
  cbn [rx ry rz fst snd] in Mxx', Myy', Mzz', Mxy', Mxz', Myz'.
  fold r0 r1 r2 in Mxx', Myy', Mzz', Mxy', Mxz', Myz'.
  unfold inertia, diag. cbn [length seq map nth Nat.eqb].
  rewrite Mxx', Myy', Mzz', Mxy', Mxz', Myz'.
  clear Mxx' Myy' Mzz' Mxy' Mxz' Myz'.
  clear Hd.
  remember (moment A c rx rx) as Mxx eqn:HMxx in *.
  remember (moment A c ry ry) as Myy eqn:HMyy in *.
  remember (moment A c rz rz) as Mzz eqn:HMzz in *.
  remember (moment A c rx ry) as Mxy eqn:HMxy in *.
  remember (moment A c rx rz) as Mxz eqn:HMxz in *.
  remember (moment A c ry rz) as Myz eqn:HMyz in *.
  clear HMxx HMyy HMzz HMxy HMxz HMyz.
  assert (D0 := principal_diagonal v00 v10 v20 v01 v11 v21 v02 v12 v22 w0
                  Mxx Myy Mzz Mxy Mxz Myz E0 E1 E2 E3 E4 E5 P0 P1 P2).
  assert (D1 := principal_diagonal v01 v11 v21 v00 v10 v20 v02 v12 v22 w1
                  Mxx Myy Mzz Mxy Mxz Myz E1 E0 E2
                  ltac:(lra) E5 E4 Q0 Q1 Q2).
  assert (D2 := principal_diagonal v02 v12 v22 v00 v10 v20 v01 v11 v21 w2
                  Mxx Myy Mzz Mxy Mxz Myz E2 E0 E1
                  ltac:(lra) ltac:(lra) E3 R0 R1 R2).
  assert (O01 := principal_off_diagonal v00 v10 v20 v01 v11 v21 w0
                   Mxx Myy Mzz Mxy Mxz Myz E3 P0 P1 P2).
  assert (O02 := principal_off_diagonal v00 v10 v20 v02 v12 v22 w0
                   Mxx Myy Mzz Mxy Mxz Myz E4 P0 P1 P2).
  assert (O12 := principal_off_diagonal v01 v11 v21 v02 v12 v22 w1
                   Mxx Myy Mzz Mxy Mxz Myz E5 Q0 Q1 Q2).
  repeat match goal with
         | |- (_ :: _) = (_ :: _) => apply f_equal2
         | |- Fin _ = Fin _ => apply f_equal
         end; try reflexivity; lra.
Qed.

Section PrincipalAxes.

Variable eigh : matrix -> result (list float64 * matrix).

(** X19: the canonical position aligns the principal axes of inertia on
    the axes of the frame.  For a model holding real points [A], when
    [eigh] returns an eigen-decomposition [(w, v)] of the inertia tensor
    of [A] about its centre of mass, the steps [centroid],
    [inertiatensor], [canonical_position] succeed, and computed again on
    the result the centre of mass is the origin and the inertia tensor is
    [diag(w)]: diagonal, carrying the eigenvalues in ascending order. *)
Theorem canonical_position_principal_axes m A w v :
  atoms m = array_of A -> A <> [] ->
  eigh (inertia A (centre A)) = Ok (w, v) ->
  eigen_decomposition (inertia A (centre A)) (w, v) ->
  exists m3 m5,
    (m1 <- centroid m ;; m2 <- inertiatensor m1 ;; canonical_position eigh m2)
    = Ok m3
    /\ (m4 <- centroid m3 ;; inertiatensor m4) = Ok m5
    /\ com m5 = ComVector (Fin 0, Fin 0, Fin 0)
    /\ inertensor m5 = Some (diag w).
Proof.
  intros Hm HA He Hd.
  destruct (inertia_moved_diagonal A w v HA Hd)
    as (r0 & r1 & r2 & w0 & w1 & w2 & Hw & H01 & H12 & Hv & Hdiag).
  rewrite (centroid_array m A Hm HA). cbn [bind].
  change (ComVector (Fin (rmean (map rx A)), Fin (rmean (map ry A)),
                     Fin (rmean (map rz A))))
    with (ComVector (inj (centre A))).
  set (m1 := set_com m (ComVector (inj (centre A)))).
  rewrite (inertiatensor_array m1 A (centre A)) by (assumption || reflexivity).
  rewrite (tensor_points A (centre A)) by assumption.
  cbn [bind]. set (m2 := set_inertensor m1 (inertia A (centre A))).
  assert (Hrot : canonical_rotate eigh m2
                 = Ok [[Fin (rx r0); Fin (ry r0); Fin (rz r0); Fin 0];
                       [Fin (rx r1); Fin (ry r1); Fin (rz r1); Fin 0];
                       [Fin (rx r2); Fin (ry r2); Fin (rz r2); Fin 0];
                       [Fin 0; Fin 0; Fin 0; Fin 1]]).
  { apply (canonical_rotate_of_decomposition eigh m2 (inertia A (centre A))
             w0 w1 w2); try assumption; [reflexivity|].
    rewrite He, Hw, Hv. reflexivity. }
  rewrite (canonical_position_moved eigh m2 A (centre A) r0 r1 r2)
    by (assumption || reflexivity).
  set (A' := map (moved r0 r1 r2 (centre A)) A).
  assert (HA' : A' <> []) by (unfold A'; destruct A; [congruence|discriminate]).
  set (m3 := set_atoms m2 (array_of A')).
  exists m3. 
  assert (Hc : centroid m3 = Ok (set_com m3 (ComVector (inj (0, 0, 0))))).
  { rewrite (centroid_array m3 A') by (reflexivity || assumption).
    change (ComVector (Fin (rmean (map rx A')), Fin (rmean (map ry A')),
                       Fin (rmean (map rz A'))))
      with (ComVector (inj (centre A'))).
    unfold A'. now rewrite centre_moved. }
  eexists. split; [reflexivity|]. rewrite Hc. cbn [bind].
  rewrite (inertiatensor_array _ A' (0, 0, 0)) by (assumption || reflexivity).
  rewrite (tensor_points A' (0, 0, 0)) by assumption.
  split; [reflexivity|]. split; [reflexivity|].
  cbn [inertensor set_inertensor]. unfold A'. now rewrite Hdiag.
Qed.

End PrincipalAxes.

(** ** The canonical position of given models *)


Lemma canonical_steps_in_order_witness :
  inertiatensor (model_of pair_x) = Raise ValueError
  /\ canonical_position eigh_decreasing_diagonal (model_of pair_x)
     = Raise TypeError
  /\ (exists m1, centroid (model_of pair_x) = Ok m1
                 /\ canonical_position eigh_decreasing_diagonal m1
                    = Raise LinAlgError).
Proof.
  apply (canonical_steps_in_order eigh_decreasing_diagonal (model_of pair_x)
           (inj (0, 0, 0)) [inj (1, 0, 0)]).
  - reflexivity.
  - reflexivity.
  - reflexivity.
Defined.

Lemma canonical_position_rigid_witness :
  exists g, isometry g
            /\ canonical_position eigh_decreasing_diagonal model_axes6
               = Ok (set_atoms model_axes6 (array_of (map g axes6))).
Proof.
  apply (canonical_position_rigid eigh_decreasing_diagonal model_axes6 axes6
           (0, 0, 0) tensor_axes6
           ([Fin (5 / 3); Fin (10 / 3); Fin (13 / 3)],
            [[Fin 0; Fin 0; Fin 1]; [Fin 0; Fin 1; Fin 0]; [Fin 1; Fin 0; Fin 0]])).
  - reflexivity.
  - discriminate.
  - reflexivity.
  - reflexivity.
  - exact eigh_axes6.
  - exact eigh_axes6_valid.
Defined.

Lemma canonical_rotate_determinant_unit_witness :
  exists rot, canonical_rotate eigh_decreasing_diagonal model_axes6 = Ok rot
              /\ (det rot = Fin 1 \/ det rot = Fin (-1)).
Proof.
  apply (canonical_rotate_determinant_unit eigh_decreasing_diagonal
           model_axes6 tensor_axes6
           ([Fin (5 / 3); Fin (10 / 3); Fin (13 / 3)],
            [[Fin 0; Fin 0; Fin 1]; [Fin 0; Fin 1; Fin 0]; [Fin 1; Fin 0; Fin 0]])).
  - reflexivity.
  - exact eigh_axes6.
  - exact eigh_axes6_valid.
Defined.

Lemma canonical_atoms_translation_witness :
  canonical_atoms eigh_decreasing_diagonal
    (model_of (map (translate (1, 2, 3)) line3))
  = canonical_atoms eigh_decreasing_diagonal (model_of line3).
Proof.
  apply (canonical_atoms_translation eigh_decreasing_diagonal
           (model_of line3) (model_of (map (translate (1, 2, 3)) line3))
           line3 (1, 2, 3)).
  - reflexivity.
  - reflexivity.
Defined.

Lemma centre_axes6 : centre axes6 = (0, 0, 0).
Proof.
  unfold centre, rmean, Rsum. cbn.
  repeat match goal with |- (_, _) = (_, _) => apply f_equal2 end; lra.
Qed.

Lemma inertia_axes6_centre : inertia axes6 (centre axes6) = tensor_axes6.
Proof.
  rewrite centre_axes6. unfold inertia, tensor_axes6, moment, rmean, Rsum. cbn.
  repeat match goal with
         | |- (_ :: _) = (_ :: _) => apply f_equal2
         | |- Fin _ = Fin _ => apply f_equal
         end; try reflexivity; lra.
Qed.

Lemma canonical_position_principal_axes_witness :
  exists m3 m5,
    (m1 <- centroid (model_of axes6) ;;
     m2 <- inertiatensor m1 ;;
     canonical_position eigh_decreasing_diagonal m2) = Ok m3
    /\ (m4 <- centroid m3 ;; inertiatensor m4) = Ok m5
    /\ com m5 = ComVector (Fin 0, Fin 0, Fin 0)
    /\ inertensor m5 = Some (diag [Fin (5 / 3); Fin (10 / 3); Fin (13 / 3)]).
Proof.
  apply (canonical_position_principal_axes eigh_decreasing_diagonal
           (model_of axes6) axes6
           [Fin (5 / 3); Fin (10 / 3); Fin (13 / 3)]
           [[Fin 0; Fin 0; Fin 1]; [Fin 0; Fin 1; Fin 0]; [Fin 1; Fin 0; Fin 0]]).
  - reflexivity.
  - discriminate.
  - rewrite inertia_axes6_centre. exact eigh_axes6.
  - rewrite inertia_axes6_centre. exact eigh_axes6_valid.
Defined.

Lemma centroid_moves_with_model_witness :
  centroid (model_of line3)
  = Ok (set_com (model_of line3) (ComVector (inj (centre line3))))
  /\ centroid (model_of (map (translate (1, 2, 3)) line3))
     = Ok (set_com (model_of (map (translate (1, 2, 3)) line3))
                   (ComVector (inj (translate (1, 2, 3) (centre line3))))).
Proof.
  apply (centroid_moves_with_model (model_of line3)
           (model_of (map (translate (1, 2, 3)) line3)) line3 (1, 2, 3)).
  - reflexivity.
  - reflexivity.
  - discriminate.
Defined.

Lemma canonical_position_keeps_fineness_witness :
  _calc_fineness None
    (set_atoms model_axes6
       (array_of (map (moved (0, 0, 1) (0, 1, 0) (1, 0, 0) (0, 0, 0)) axes6)))
    false
  = _calc_fineness None model_axes6 false.
Proof.
  apply (canonical_position_keeps_fineness eigh_decreasing_diagonal None false
           model_axes6 _ axes6 (0, 0, 0) tensor_axes6
           ([Fin (5 / 3); Fin (10 / 3); Fin (13 / 3)],
            [[Fin 0; Fin 0; Fin 1]; [Fin 0; Fin 1; Fin 0]; [Fin 1; Fin 0; Fin 0]])).
  - left. reflexivity.
  - reflexivity.
  - discriminate.
  - reflexivity.
  - reflexivity.
  - exact eigh_axes6.
  - exact eigh_axes6_valid.
  - apply (canonical_position_moved eigh_decreasing_diagonal model_axes6 axes6
             (0, 0, 0) (0, 0, 1) (0, 1, 0) (1, 0, 0)).
    + reflexivity.
    + discriminate.
    + reflexivity.
    + exact canonical_rotate_axes6.
Defined.

Lemma canonical_translate_to_origin_witness :
  exists trans,
    canonical_translate model_axes6 = Ok trans
    /\ forall a,
         dot trans [[Fin (rx a)]; [Fin (ry a)]; [Fin (rz a)]; [Fin 1]]
         = [[Fin (rx a - rx (0, 0, 0))]; [Fin (ry a - ry (0, 0, 0))];
            [Fin (rz a - rz (0, 0, 0))]; [Fin 1]].
Proof.
  apply (canonical_translate_to_origin model_axes6 (0, 0, 0)).
  reflexivity.
Defined.

(* ================================================================== *)
(** * Further properties of reading and writing *)
(* ================================================================== *)

Lemma prefix_empty s : String.prefix EmptyString s = true.
Proof. destruct s; reflexivity. Qed.

Lemma startswith_substitute {F} (format_8_3f : F -> string) line p :
  startswith "ATOM" line = true ->
  startswith "ATOM" (substitute format_8_3f line p) = true.
Proof.
  unfold startswith, substitute.
  destruct line as [|c1 [|c2 [|c3 [|c4 s]]]];
    cbn [String.prefix str_take String.append];
    repeat match goal with
           | |- context [ascii_dec ?a ?b] => destruct (ascii_dec a b)
           end;
    try discriminate; intros _; apply prefix_empty.
Qed.

Lemma no_break_app s t :
  no_break s = true -> no_break t = true -> no_break (s ++ t) = true.
Proof.
  induction s as [|c s IH]; cbn [no_break String.append]; [auto|].
  intros H Ht. apply andb_prop in H as [Hc Hs].
  rewrite Hc. cbn [andb]. now apply IH.
Qed.

Lemma is_line_app s t :
  no_break s = true -> is_line t = true -> is_line (s ++ t) = true.
Proof.
  induction s as [|c s IH]; cbn [no_break String.append]; [auto|].
  intros H Ht. apply andb_prop in H as [Hc Hs].
  specialize (IH Hs Ht). cbn [is_line].
  destruct (s ++ t)%string eqn:E; [discriminate IH|].
  rewrite Hc. exact IH.
Qed.

(** The characters of a line before its line feed. *)
Lemma no_break_take n s :
  is_line s = true -> (n < String.length s)%nat -> no_break (str_take n s) = true.
Proof.
  revert s. induction n as [|n IH]; intros s Hs Hn; [reflexivity|].
  destruct s as [|c s]; [discriminate Hs|].
  cbn [str_take no_break]. cbn [is_line] in Hs. cbn [String.length] in Hn.
  destruct s as [|c' s'].
  - cbn [String.length] in Hn. lia.
  - apply andb_prop in Hs as [Hc Hs]. rewrite Hc. cbn [andb].
    apply IH; [exact Hs|lia].
Qed.

(** The end of a line is a line. *)
Lemma is_line_drop n s :
  is_line s = true -> (n < String.length s)%nat -> is_line (str_drop n s) = true.
Proof.
  revert s. induction n as [|n IH]; intros s Hs Hn.
  - destruct s; exact Hs.
  - destruct s as [|c s]; [discriminate Hs|].
    cbn [str_drop]. cbn [is_line] in Hs. cbn [String.length] in Hn.
    destruct s as [|c' s'].
    + cbn [String.length] in Hn. lia.
    + apply andb_prop in Hs as [_ Hs]. apply IH; [exact Hs|lia].
Qed.

Lemma is_line_substitute {F} (format_8_3f : F -> string) line p :
  is_line line = true -> (54 < String.length line)%nat ->
  no_break (format_point format_8_3f p) = true ->
  is_line (substitute format_8_3f line p) = true.
Proof.
  intros Hl H54 Hp. unfold substitute.
  apply is_line_app; [apply no_break_take; [exact Hl|lia]|].
  apply is_line_app; [exact Hp|]. now apply is_line_drop.
Qed.

(** A line in front of a text is read as it is. *)
Lemma universal_newlines_line l s :
  is_line l = true ->
  universal_newlines (l ++ s) = (l ++ universal_newlines s)%string.
Proof.
  induction l as [|c l IH]; [discriminate|].
  cbn [is_line]. destruct l as [|c' l'].
  - intros Hc. apply Ascii.eqb_eq in Hc. subst c. reflexivity.
  - intros H. apply andb_prop in H as [H Hl]. apply andb_prop in H as [_ Hcr].
    apply negb_true_iff in Hcr.
    change ((String c (String c' l') ++ s)%string)
      with (String c (String c' l' ++ s)).
    cbn [universal_newlines]. rewrite Hcr.
    change ((String c (String c' l') ++ universal_newlines s)%string)
      with (String c (String c' l' ++ universal_newlines s)).
    f_equal. now apply IH.
Qed.

Lemma lines_of_line l s :
  is_line l = true -> lines_of (l ++ s) = l :: lines_of s.
Proof.
  induction l as [|c l IH]; [discriminate|].
  cbn [is_line]. destruct l as [|c' l'].
  - intros Hc. cbn [String.append lines_of]. now rewrite Hc.
  - intros H. apply andb_prop in H as [H Hl]. apply andb_prop in H as [Hlf _].
    apply negb_true_iff in Hlf.
    change ((String c (String c' l') ++ s)%string)
      with (String c (String c' l' ++ s)).
    cbn [lines_of]. rewrite Hlf. now rewrite (IH Hl).
Qed.

(** The lines of the file that a sequence of [write] calls leaves, when
    every string written is a line or empty. *)
Lemma file_lines_written chunks :
  Forall (fun c => nonempty c = true -> is_line c = true) chunks ->
  file_lines (written chunks) = filter nonempty chunks.
Proof.
  unfold file_lines, written.
  induction 1 as [|c chunks Hc _ IH]; [reflexivity|].
  cbn [fold_right filter]. destruct c as [|a c'].
  - cbn [nonempty String.append]. exact IH.
  - cbn [nonempty]. specialize (Hc eq_refl).
    rewrite (universal_newlines_line _ _ Hc), (lines_of_line _ _ Hc).
    now rewrite IH.
Qed.

Section FileProperties.

Variable F : Type.
Variable float : string -> result F.
Variable format_8_3f : F -> string.

Lemma read_loop_inv lines :
  forall header atoms header' atoms',
    read_loop float lines header atoms = Ok (header', atoms') ->
    header' = header ++ lines
    /\ exists pts, atoms' = atoms ++ pts /\ length pts = atom_records lines.
Proof.
  unfold atom_records.
  induction lines as [|line rest IH]; intros header atoms header' atoms' H;
    cbn [read_loop] in H.
  - injection H as <- <-. rewrite app_nil_r. split; [reflexivity|].
    exists []. now rewrite app_nil_r.
  - cbn [filter]. destruct (startswith "ATOM" line) eqn:E.
    + destruct (atom_coordinates float line) as [p|e]; cbn [bind] in H;
        [|discriminate].
      destruct (IH _ _ _ _ H) as (-> & pts & -> & Hl).
      rewrite <- !app_assoc. split; [reflexivity|].
      exists (p :: pts). split; [reflexivity|]. cbn [length]. now rewrite Hl.
    + cbn [bind] in H.
      destruct (IH _ _ _ _ H) as (-> & pts & -> & Hl).
      rewrite <- app_assoc. split; [reflexivity|].
      exists pts. split; [reflexivity|exact Hl].
Qed.

(** X20: what a successful [read] leaves in the model.  The header is the
    list of all the lines of the file as [open] hands them over, ATOM
    records included, so that writing it back gives the text of the file
    with every line end as a line feed; the atoms are an array with one
    row for each ATOM record; the radius, the centre of mass, the stored
    fineness and the inertia tensor are those of before the call, whatever
    the file. *)
Theorem read_keeps_file (m m' : SASModel F) (text : string) :
  read float m text = Ok m' ->
  header m' = file_lines text
  /\ written (header m') = universal_newlines text
  /\ (exists pts, atoms m' = NdArray pts
                  /\ length pts = atom_records (header m'))
  /\ radius m' = radius m /\ com m' = com m
  /\ _fineness m' = _fineness m /\ inertensor m' = inertensor m.
Proof.
  unfold read. intros H.
  destruct (read_loop float (file_lines text) [] []) as [[h a]|e] eqn:E;
    cbn [bind fst snd] in H; [|discriminate].
  injection H as <-.
  destruct (read_loop_inv _ _ _ _ _ E) as (-> & pts & -> & Hl).
  cbn [header atoms radius com _fineness inertensor set_atoms set_header app].
  split; [reflexivity|]. split; [apply written_file_lines|].
  split; [|auto]. exists pts. auto.
Qed.

Lemma atom_coordinates_short line :
  (length (split line) < 9)%nat ->
  exists e, atom_coordinates float line = Raise e.
Proof.
  intros Hl. unfold atom_coordinates, index.
  assert (H8 : nth_error (split line) 8 = None)
    by (apply nth_error_None; lia).
  rewrite H8.
  destruct (nth_error (split line) 6) as [a6|]; cbn [bind]; [|eauto].
  destruct (float a6) as [x|e]; cbn [bind]; [|eauto].
  destruct (nth_error (split line) 7) as [a7|]; cbn [bind]; [|eauto].
  destruct (float a7) as [y|e]; cbn [bind]; eauto.
Qed.

Lemma read_loop_short lines :
  forall line header atoms,
    In line lines -> startswith "ATOM" line = true ->
    (length (split line) < 9)%nat ->
    exists e, read_loop float lines header atoms = Raise e.
Proof.
  induction lines as [|l rest IH]; intros line header atoms Hin Hs Hl;
    [destruct Hin|].
  cbn [read_loop]. destruct Hin as [-> | Hin].
  - rewrite Hs. destruct (atom_coordinates_short line Hl) as [e ->].
    cbn [bind]. eauto.
  - destruct (startswith "ATOM" l).
    + destruct (atom_coordinates float l) as [p|e]; cbn [bind]; [|eauto].
      now apply (IH line).
    + cbn [bind]. now apply (IH line).
Qed.

(** X21: a file with a cut ATOM record cannot be read.  When a line of
    the file starts with ATOM and has fewer than nine words, [read]
    raises an exception (IndexError, unless a word read before it is no
    number), wherever the line stands in the file. *)
Theorem read_cut_record (m : SASModel F) (text line : string) :
  In line (file_lines text) -> startswith "ATOM" line = true ->
  (length (split line) < 9)%nat ->
  raises (read float m text).
Proof.
  intros Hin Hs Hl. unfold read.
  destruct (read_loop_short (file_lines text) line [] [] Hin Hs Hl) as [e ->].
  exact I.
Qed.

Lemma substituted_chunks lines :
  forall rows,
    forallb header_line lines = true ->
    forallb (fun p => no_break (format_point format_8_3f p)) rows = true ->
    Forall (fun c => nonempty c = true -> is_line c = true)
           (substituted format_8_3f lines rows).
Proof.
  induction lines as [|line rest IH]; intros rows Hh Hr;
    cbn [substituted forallb] in *; [constructor|].
  apply andb_prop in Hh as [Hline Hrest].
  unfold header_line in Hline. apply andb_prop in Hline as [Hl H54].
  destruct (startswith "ATOM" line) eqn:E.
  - cbn [negb orb] in H54. apply Nat.ltb_lt in H54.
    destruct rows as [|p rows].
    + constructor; [discriminate|]. now apply IH.
    + cbn [forallb] in Hr. apply andb_prop in Hr as [Hp Hr].
      constructor; [|now apply IH].
      intros _. now apply is_line_substitute.
  - constructor; [auto|]. now apply IH.
Qed.

Lemma substituted_records lines :
  forall rows,
    (length rows <= atom_records lines)%nat ->
    atom_records (filter nonempty (substituted format_8_3f lines rows))
    = length rows.
Proof.
  unfold atom_records.
  induction lines as [|line rest IH]; intros rows Hl;
    cbn [substituted filter length] in *.
  - destruct rows; [reflexivity|cbn in Hl; lia].
  - destruct (startswith "ATOM" line) eqn:E.
    + destruct rows as [|p rows]; cbn [filter length nonempty] in *.
      * apply (IH []). cbn. lia.
      * pose proof (startswith_substitute format_8_3f line p E) as Hs.
        assert (Hn : nonempty (substitute format_8_3f line p) = true).
        { destruct (substitute format_8_3f line p); [discriminate Hs|reflexivity]. }
        rewrite Hn. cbn [filter]. rewrite Hs. cbn [length]. f_equal.
        apply IH. lia.
    + destruct line as [|c l]; cbn [nonempty filter]; [|rewrite E]; now apply IH.
Qed.

Lemma substituted_other_lines lines :
  forall rows,
    forallb header_line lines = true ->
    other_lines (filter nonempty (substituted format_8_3f lines rows))
    = other_lines lines.
Proof.
  unfold other_lines.
  induction lines as [|line rest IH]; intros rows Hh;
    cbn [substituted filter forallb] in *; [reflexivity|].
  apply andb_prop in Hh as [Hline Hrest].
  unfold header_line in Hline. apply andb_prop in Hline as [Hl _].
  destruct (startswith "ATOM" line) eqn:E; cbn [negb].
  - destruct rows as [|p rows]; cbn [filter nonempty].
    + now apply IH.
    + pose proof (startswith_substitute format_8_3f line p E) as Hs.
      assert (Hn : nonempty (substitute format_8_3f line p) = true).
      { destruct (substitute format_8_3f line p); [discriminate Hs|reflexivity]. }
      rewrite Hn. cbn [filter]. rewrite Hs. cbn [negb]. now apply IH.
  - assert (Hn : nonempty line = true) by (destruct line; [discriminate Hl|reflexivity]).
    cbn [filter]. rewrite Hn. cbn [filter]. rewrite E. cbn [negb]. f_equal.
    now apply IH.
Qed.

(** X22: a model with no more atoms than its header has ATOM records is
    saved without any exception, and the ATOM records left over are
    dropped.  When the header is made of lines of a file (each ends with
    its only line feed and holds no carriage return), its ATOM records are
    longer than 54 characters and the coordinates print without line
    break, the file written has exactly as many ATOM records as the model
    has atoms, and its other lines are those of the header, in order. *)
Theorem save_drops_spare_records (m : SASModel F) (rows : list (point F)) :
  atoms m = NdArray rows ->
  (length rows <= atom_records (header m))%nat ->
  forallb header_line (header m) = true ->
  forallb (fun p => no_break (format_point format_8_3f p)) rows = true ->
  exists text,
    save format_8_3f m = Ok text
    /\ atom_records (file_lines text) = length rows
    /\ other_lines (file_lines text) = other_lines (header m).
Proof.
  intros Hm Hl Hh Hr.
  exists (written (substituted format_8_3f (header m) rows)). split.
  - unfold save. rewrite Hm, save_loop_substituted. reflexivity.
  - rewrite (file_lines_written _ (substituted_chunks _ _ Hh Hr)). split.
    + now apply substituted_records.
    + now apply substituted_other_lines.
Qed.

End FileProperties.

Lemma read_two_beads :
  read Decimal.float (init 1%Q) pdb_three_decimals = Ok model_two_beads.
Proof. vm_compute. reflexivity. Qed.

Lemma read_keeps_file_witness :
  header model_two_beads = file_lines pdb_three_decimals
  /\ written (header model_two_beads) = universal_newlines pdb_three_decimals
  /\ (exists pts, atoms model_two_beads = NdArray pts
                  /\ length pts = atom_records (header model_two_beads))
  /\ radius model_two_beads = radius (init 1%Q)
  /\ com model_two_beads = com (init 1%Q)
  /\ _fineness model_two_beads = _fineness (init 1%Q)
  /\ inertensor model_two_beads = inertensor (init 1%Q).
Proof.
  apply (read_keeps_file Q Decimal.float (init 1%Q) model_two_beads
           pdb_three_decimals).
  exact read_two_beads.
Defined.

Lemma read_cut_record_witness :
  raises (read float_exact (init (Fin 1)) pdb_short_atom).
Proof.
  apply (read_cut_record float64 float_exact (init (Fin 1)) pdb_short_atom
           "ATOM      1  CA  ASP A   1
").
  - right. left. reflexivity.
  - reflexivity.
  - vm_compute. lia.
Defined.

Lemma save_drops_spare_records_witness :
  exists text,
    save Decimal.format_8_3f model_missing_atom = Ok text
    /\ atom_records (file_lines text) = length [(1 # 2, 0, 0)]%Q
    /\ other_lines (file_lines text) = other_lines (header model_missing_atom).
Proof.
  apply (save_drops_spare_records Q Decimal.format_8_3f model_missing_atom
           [(1 # 2, 0, 0)]%Q).
  - reflexivity.
  - vm_compute. lia.
  - vm_compute. reflexivity.
  - vm_compute. reflexivity.
Defined.

(** The file written in that example: one ATOM record is left. *)
Lemma save_missing_atom_text :
  save Decimal.format_8_3f model_missing_atom
  = Ok "ATOM      1  CA  ASP A   1       0.500   0.000   0.000  1.00 20.81
END
"%string.
Proof. vm_compute. reflexivity. Qed.

(* ================================================================== *)
(** * The order of the atoms *)
(* ================================================================== *)

Lemma Rsum_perm l l' : Permutation l l' -> Rsum l' = Rsum l.
Proof.
  unfold Rsum. induction 1; cbn [fold_right]; lra.
Qed.

Lemma Rmin_list_perm l l' : Permutation l l' -> Rmin_list l' = Rmin_list l.
Proof.
  intros Hp. destruct l as [|x l].
  - apply Permutation_nil in Hp. now subst.
  - assert (Hl' : l' <> []).
    { intros ->. apply Permutation_sym, Permutation_nil in Hp. discriminate. }
    apply Rmin_list_same; try assumption; try discriminate.
    + intros y Hy. exists y. split; [|lra].
      apply (Permutation_in y (Permutation_sym Hp) Hy).
    + intros y Hy. exists y. split; [|lra].
      apply (Permutation_in y Hp Hy).
Qed.

Lemma sum_min_sq_perm A A' B B' :
  Permutation A A' -> Permutation B B' -> sum_min_sq A' B' = sum_min_sq A B.
Proof.
  intros HA HB. unfold sum_min_sq.
  rewrite (Rsum_perm _ _ (Permutation_map _ HA)).
  f_equal. apply map_ext. intros a.
  apply Rmin_list_perm. now apply Permutation_map.
Qed.

Lemma others_at_prefix (pre : list rpoint) a A :
  others (length pre) (pre ++ a :: A) = pre ++ A.
Proof.
  unfold others. rewrite firstn_app, Nat.sub_diag, firstn_all.
  cbn [firstn]. rewrite app_nil_r.
  replace (S (length pre)) with (length (pre ++ [a]))
    by (rewrite length_app; cbn; lia).
  replace (pre ++ a :: A) with ((pre ++ [a]) ++ A)
    by (now rewrite <- app_assoc).
  rewrite skipn_app, Nat.sub_diag, skipn_all. reflexivity.
Qed.

Lemma picks_indexed {Z} (G : rpoint -> list rpoint -> Z) A :
  forall pre,
    map (fun ia => G (snd ia) (others (fst ia) (pre ++ A)))
        (combine (seq (length pre) (length A)) A)
    = map (fun ar => G (fst ar) (snd ar)) (picks pre A).
Proof.
  induction A as [|a A IH]; intros pre; [reflexivity|].
  cbn [length seq combine map picks fst snd].
  rewrite others_at_prefix. f_equal.
  specialize (IH (pre ++ [a])).
  rewrite length_app in IH. cbn [length] in IH.
  rewrite Nat.add_1_r, <- app_assoc in IH. exact IH.
Qed.

Lemma picks_pre_perm (g : rpoint -> list rpoint -> R) A :
  (forall a R R', Permutation R R' -> g a R' = g a R) ->
  forall pre pre',
    Permutation pre pre' ->
    Rsum (map (fun ar => g (fst ar) (snd ar)) (picks pre' A))
    = Rsum (map (fun ar => g (fst ar) (snd ar)) (picks pre A)).
Proof.
  intros Hg. unfold Rsum.
  induction A as [|a A IH]; intros pre pre' Hp; [reflexivity|].
  cbn [picks map fold_right fst snd].
  rewrite (Hg a (pre ++ A) (pre' ++ A)) by now apply Permutation_app_tail.
  rewrite (IH (pre ++ [a]) (pre' ++ [a])) by now apply Permutation_app_tail.
  reflexivity.
Qed.

Lemma picks_perm (g : rpoint -> list rpoint -> R) A A' :
  (forall a R R', Permutation R R' -> g a R' = g a R) ->
  Permutation A A' ->
  forall pre,
    Rsum (map (fun ar => g (fst ar) (snd ar)) (picks pre A'))
    = Rsum (map (fun ar => g (fst ar) (snd ar)) (picks pre A)).
Proof.
  intros Hg Hp.
  induction Hp as [|x l l' Hp IH|x y l|l l' l'' _ IH1 _ IH2]; intros pre.
  - reflexivity.
  - cbn [picks map fst snd]. unfold Rsum in *. cbn [fold_right].
    rewrite (Hg x (pre ++ l) (pre ++ l')) by now apply Permutation_app_head.
    now rewrite IH.
  - cbn [picks map fst snd].
    pose proof (picks_pre_perm g l Hg ((pre ++ [y]) ++ [x]) ((pre ++ [x]) ++ [y]))
      as Ht.
    unfold Rsum in *. cbn [fold_right].
    rewrite Ht.
    2:{ rewrite <- !app_assoc. apply Permutation_app_head. cbn. constructor. }
    rewrite (Hg x ((pre ++ [y]) ++ l) (pre ++ y :: l))
      by (rewrite <- app_assoc; apply Permutation_refl).
    rewrite (Hg y (pre ++ x :: l) ((pre ++ [x]) ++ l))
      by (rewrite <- app_assoc; apply Permutation_refl).
    lra.
  - now rewrite IH2, IH1.
Qed.

Lemma rms_nearest_perm A A' :
  Permutation A A' -> rms_nearest A' = rms_nearest A.
Proof.
  intros Hp. unfold rms_nearest, nearest_other, indexed.
  rewrite <- (Permutation_length Hp). do 2 f_equal.
  pose proof (picks_indexed
                (fun a R => (Rmin_list (map (euclid a) R))²) A []) as H1.
  pose proof (picks_indexed
                (fun a R => (Rmin_list (map (euclid a) R))²) A' []) as H2.
  cbn [length app] in H1, H2.
  rewrite (Permutation_length Hp) at 1.
  rewrite H1, H2.
  apply (picks_perm (fun a R => (Rmin_list (map (euclid a) R))²) A A'); auto.
  intros a R R' HR. f_equal. apply Rmin_list_perm. now apply Permutation_map.
Qed.

Section OrderOfAtoms.

Variable _distance : option distance_module.

(** X23: the pure-Python fineness does not depend on the order of the
    atoms: two models holding the same atoms in two orders get the same
    result from [_calc_fineness]. *)
Theorem calc_fineness_order m m' use_cython A A' :
  _distance = None \/ use_cython = false ->
  atoms m = array_of A -> atoms m' = array_of A' ->
  Permutation A A' ->
  _calc_fineness _distance m' use_cython = _calc_fineness _distance m use_cython.
Proof.
  intros Hpath Hm Hm' Hp. destruct A as [|a A0] eqn:EA.
  - apply Permutation_nil in Hp. subst A'.
    now rewrite (calc_fineness_cases _distance m use_cython []),
                (calc_fineness_cases _distance m' use_cython []).
  - rewrite <- EA in *.
    assert (HA : A <> []) by (rewrite EA; discriminate).
    assert (HA' : A' <> []).
    { intros ->. apply Permutation_sym, Permutation_nil in Hp. congruence. }
    rewrite (calc_fineness_nonempty _distance m use_cython A),
            (calc_fineness_nonempty _distance m' use_cython A') by assumption.
    now rewrite (rms_nearest_perm A A').
Qed.

End OrderOfAtoms.

(** X24: without the extension, [dist] does not depend on the order of
    the atoms: for two pairs of models whose fineness has not been
    computed yet and which hold the same atoms in two orders, it returns
    the same number, or the same exception when a model has no atom. *)
Theorem dist_order o o' use_cython A A' B B' :
  fresh_operands o A B -> fresh_operands o' A' B' ->
  Permutation A A' -> Permutation B B' ->
  dist_value None o' use_cython = dist_value None o use_cython.
Proof.
  intros Ho Ho' HpA HpB.
  destruct A as [|a A0] eqn:EA.
  { apply Permutation_nil in HpA. subst A'.
    destruct Ho as (HA & HB & _), Ho' as (HA' & HB' & _).
    rewrite (dist_value_no_atoms o use_cython [] B),
            (dist_value_no_atoms o' use_cython [] B'); auto. }
  destruct B as [|b B0] eqn:EB.
  { apply Permutation_nil in HpB. subst B'.
    destruct Ho as (HA & HB & _), Ho' as (HA' & HB' & _).
    rewrite (dist_value_no_atoms o use_cython (a :: A0) []),
            (dist_value_no_atoms o' use_cython A' []); auto. }
  rewrite <- EA, <- EB in *.
  assert (HA : A <> []) by (rewrite EA; discriminate).
  assert (HB : B <> []) by (rewrite EB; discriminate).
  assert (HA' : A' <> []).
  { intros ->. apply Permutation_sym, Permutation_nil in HpA. congruence. }
  assert (HB' : B' <> []).
  { intros ->. apply Permutation_sym, Permutation_nil in HpB. congruence. }
  rewrite (dist_value_fresh o use_cython A B Ho HA HB).
  rewrite (dist_value_fresh o' use_cython A' B' Ho' HA' HB').
  unfold dist_expr.
  rewrite (rms_nearest_perm A A' HpA), (rms_nearest_perm B B' HpB).
  rewrite (sum_min_sq_perm A A' B B' HpA HpB), (sum_min_sq_perm B B' A A' HpB HpA).
  now rewrite (Permutation_length HpA), (Permutation_length HpB).
Qed.

Lemma calc_fineness_order_witness :
  _calc_fineness None (model_of (rev line3)) false
  = _calc_fineness None (model_of line3) false.
Proof.
  apply (calc_fineness_order None (model_of line3) (model_of (rev line3))
           false line3 (rev line3)).
  - left. reflexivity.
  - reflexivity.
  - reflexivity.
  - apply Permutation_rev.
Defined.

Lemma dist_order_witness :
  dist_value None (Distinct (model_of (rev line3)) (model_of (rev pair_x))) true
  = dist_value None (Distinct (model_of line3) (model_of pair_x)) true.
Proof.
  apply (dist_order (Distinct (model_of line3) (model_of pair_x))
           (Distinct (model_of (rev line3)) (model_of (rev pair_x)))
           true line3 (rev line3) pair_x (rev pair_x)).
  - repeat split.
  - repeat split.
  - apply Permutation_rev.
  - apply Permutation_rev.
Defined.
